(** * SFrame end-to-end media encryption (secure-frame-ts)

    A shallow embedding of the TypeScript sources: the SFrame header codec
    ([SFrameHeader.ts]), the IV builder ([IV.ts]), the cipher suites
    ([CipherSuite.ts]), the frame transform ([SFrameCrypto.ts]) and the
    stateful [Sender], [Receiver] and [Context] classes.

    Conventions of the embedding.
    - A JavaScript [number] is an IEEE double.  Every number that occurs in
      these sources is integer valued or [NaN]; it is represented by [Num z]
      with the rounding to the nearest double written out ([round_double])
      in the arithmetic that can leave the range of exact integers.
    - A [Uint8Array] is a [list byte]; reading outside of it gives
      [undefined] ([None]), writing outside of it is ignored.
    - A function that can throw returns a [result]; a method that mutates
      its object returns the new object next to its result.
    - The WebCrypto primitives ([crypto.subtle]) and the logarithm of the
      [Math] object are not part of the repository: the code is
      parameterised by the classes [WebCrypto] and [JSMath]. *)

From Stdlib Require Import ZArith List String Ascii Lia Bool.
From coqutil Require Import Byte.
From stdpp Require Import gmap.
Import ListNotations.
Local Open Scope Z_scope.

(* ===================================================================== *)
(** ** JavaScript numbers and typed arrays *)
(* ===================================================================== *)

Module JS.

(** Integer valued doubles and NaN. *)
Inductive Number := NaN | Num (z : Z).

(** Nearest double of an integer, ties to even.  Integers of magnitude
    below 2^53 are exact; above, doubles are spaced by
    [2 ^ (Z.log2 |z| - 52)]. *)
Definition round_double (z : Z) : Z :=
  let a := Z.abs z in
  if a <? 2 ^ 53 then z
  else
    let e := Z.log2 a - 52 in
    let q := a / 2 ^ e in
    let r := a mod 2 ^ e in
    let half := 2 ^ (e - 1) in
    let q' := if r <? half then q
              else if half <? r then q + 1
              else if Z.even q then q else q + 1 in
    Z.sgn z * (q' * 2 ^ e).

(** The integer is a value of type [number]. *)
Definition is_Number (z : Z) : bool := round_double z =? z.

Definition add (a b : Number) : Number :=
  match a, b with
  | Num x, Num y => Num (round_double (x + y))
  | _, _ => NaN
  end.

Definition sub (a b : Number) : Number :=
  match a, b with
  | Num x, Num y => Num (round_double (x - y))
  | _, _ => NaN
  end.

Definition mul (a b : Number) : Number :=
  match a, b with
  | Num x, Num y => Num (round_double (x * y))
  | _, _ => NaN
  end.

(** [a < b] and [a > b]: false as soon as one side is NaN. *)
Definition lt (a b : Number) : bool :=
  match a, b with
  | Num x, Num y => x <? y
  | _, _ => false
  end.

Definition gt (a b : Number) : bool := lt b a.

(** [Math.max(a, b)]. *)
Definition max (a b : Number) : Number :=
  match a, b with
  | Num x, Num y => Num (Z.max x y)
  | _, _ => NaN
  end.

#[global] Instance Number_eq_dec : EqDecision Number.
Proof. solve_decision. Defined.

#[global] Instance Number_countable : Countable Number :=
  inj_countable'
    (fun n => match n with NaN => None | Num z => Some z end)
    (fun o => match o with None => NaN | Some z => Num z end)
    (fun n => match n with NaN => eq_refl | Num _ => eq_refl end).

Abbreviation bytes := (list byte).

(** [new Uint8Array(n)]. *)
Definition alloc (n : nat) : bytes := repeat Byte.x00 n.

(** [a[i]] for a typed array: [None] is [undefined]. *)
Definition get (a : bytes) (i : Z) : option byte :=
  if i <? 0 then None else a !! Z.to_nat i.

(** An element used in arithmetic: [undefined] becomes NaN. *)
Definition ToNumber (o : option byte) : Number :=
  match o with
  | Some b => Num (byte.unsigned b)
  | None => NaN
  end.

(** An element used by a bit operator: [undefined] becomes 0. *)
Definition ToInt32 (o : option byte) : Z :=
  match o with
  | Some b => byte.unsigned b
  | None => 0
  end.

(** [x === y] on two elements. *)
Definition strict_eq (x y : option byte) : bool :=
  match x, y with
  | Some a, Some b => Byte.eqb a b
  | None, None => true
  | _, _ => false
  end.

(** [a[i] = v] for a typed array: the value is taken modulo 256
    ([undefined] is stored as 0) and a write outside of the array is
    ignored. *)
Definition put (a : bytes) (i : Z) (v : Z) : bytes :=
  if i <? 0 then a else <[Z.to_nat i := byte.of_Z v]> a.

(** Relative index of [subarray] and [slice]. *)
Definition rel_index (len i : Z) : Z :=
  if i <? 0 then Z.max (len + i) 0 else Z.min i len.

(** [a.subarray(b, e)] and [a.slice(b, e)]: they differ in sharing the
    buffer or copying it, which no function below observes. *)
Definition subarray (a : bytes) (b e : Z) : bytes :=
  let len := Z.of_nat (length a) in
  let b' := rel_index len b in
  let e' := rel_index len e in
  firstn (Z.to_nat (e' - b')) (skipn (Z.to_nat b') a).

Definition slice := subarray.

(** [target.set(src, offset)]: [None] is the RangeError raised when the
    source does not fit. *)
Definition set (target src : bytes) (offset : Z) : option bytes :=
  if (offset <? 0) || (Z.of_nat (length target) <? Z.of_nat (length src) + offset)
  then None
  else Some (firstn (Z.to_nat offset) target ++ src
               ++ skipn (Z.to_nat offset + length src) target).

(** The indices of [for (let i = 0; i < n; ++i)]. *)
Definition upto (n : Z) : list Z := map Z.of_nat (seq 0 (Z.to_nat n)).

End JS.

Import JS.

(* ===================================================================== *)
(** ** Types.ts *)
(* ===================================================================== *)

Inductive SFrameErrorType :=
| DecryptionFailure
| EncryptionFailure
| InvalidKey
| InvalidHeaderKey
| InitializationVectorError
| ReplayAttackError
| AuthenticationError
| Unknown.

(** What a function can throw: an [SFrameError] of some type, a plain
    [Error] with its message, a [RangeError] of the runtime, or the
    rejection of a [crypto.subtle] promise. *)
Inductive exn :=
| SFrameError (type : SFrameErrorType)
| PlainError (message : string)
| RangeError
| SubtleRejected.

Inductive result (A : Type) :=
| Ok (a : A)
| Throw (e : exn).
Arguments Ok {A} a.
Arguments Throw {A} e.

Definition bind {A B} (r : result A) (k : A -> result B) : result B :=
  match r with
  | Ok a => k a
  | Throw e => Throw e
  end.

Notation "'do' x <- c ; k" := (bind c (fun x => k))
  (at level 10, x pattern, c at level 100, k at level 200).

(* ===================================================================== *)
(** ** SFrameHeader.ts *)
(* ===================================================================== *)

Record SFrameHeader := mkHeader {
  data : bytes;
  keyId : Number;
  counter : Number;
  rawCounter : bytes;
}.

(** [Number.MAX_SAFE_INTEGER]. *)
Definition SFRAME_HEADER_MAXKEYID : Z := 2 ^ 53 - 1.
Definition lengthAdjustment : Z := 1.

(** The loop [for i < n: acc = acc * 256 + view[start + i]]. *)
Definition readBigEndian (view : bytes) (start n : Z) : Number :=
  fold_left
    (fun acc i => add (mul acc (Num 256)) (ToNumber (get view (start + i))))
    (upto n) (Num 0).

Definition parseSFrameHeader (buffer : bytes) : SFrameHeader :=
  let view := buffer in
  let metadata := ToInt32 (get view 0) in
  let ctrLEN := Z.land (Z.shiftr metadata 4) 0x07 in
  let isExtendedKey := negb (Z.land metadata 0x08 =? 0) in
  let keyLenOrKeyId := Z.land metadata 0x07 in
  let staticHeaderLength := 1 in
  let frameCounterLength := ctrLEN + lengthAdjustment in
  let '(keyId, headerLength, ctrStartIdx) :=
    if isExtendedKey then
      let extendedKeyLength := keyLenOrKeyId + lengthAdjustment in
      (readBigEndian view staticHeaderLength extendedKeyLength,
       extendedKeyLength + frameCounterLength,
       staticHeaderLength + extendedKeyLength)
    else (Num keyLenOrKeyId, frameCounterLength, staticHeaderLength) in
  let counter := readBigEndian view ctrStartIdx frameCounterLength in
  let rawCounter := slice view ctrStartIdx (ctrStartIdx + frameCounterLength) in
  {| data := subarray view 0 (headerLength + 1);
     keyId := keyId;
     counter := counter;
     rawCounter := rawCounter |}.

Definition checkSFrameHeaderKeyId (keyId : Z) : result unit :=
  if keyId <? 0 then Throw (SFrameError InvalidHeaderKey)
  else if SFRAME_HEADER_MAXKEYID <? keyId then Throw (SFrameError InvalidHeaderKey)
  else Ok tt.

(** The logarithm of the [Math] object.  [log_quotient i] stands for
    [parseInt((Math.log(i) / Math.log(256)).toString())] at an integer
    [i > 0]: the integer part of the quotient of two doubles.  The language
    leaves the precision of [Math.log] to the implementation, so the
    quotient is a parameter of the code, like the WebCrypto primitives. *)
Class JSMath := {
  log_quotient : Z -> Z;
}.

Section Header.
Context {M : JSMath}.

(** [i ? parseInt((Math.log(i) / Math.log(256)).toString()) : 0]; the
    logarithm of a negative number is NaN. *)
Definition calculateKLENorLEN (i : Z) : Number :=
  if i =? 0 then Num 0
  else if i <? 0 then NaN
  else Num (log_quotient i).

(** [new Uint8Array(new BigUint64Array([BigInt(input)]).buffer)]: the eight
    bytes of [input] modulo 2^64, least significant first, as a typed array
    lays them out on a little-endian platform. *)
Definition i64Bytes (input : Z) : bytes :=
  map (fun i => byte.of_Z (Z.shiftr (input mod 2 ^ 64) (8 * i))) (upto 8).

Definition toUint8ArrayViaI64 (input : Z) (length : Z) : bytes :=
  rev (slice (i64Bytes input) 0 length).

Definition addToHeaderViaI64 (headerData : bytes) (leftOffset input length : Z) : bytes :=
  let a8 := toUint8ArrayViaI64 input length in
  fold_left
    (fun headerData i => put headerData (leftOffset + i) (ToInt32 (get a8 i)))
    (upto length) headerData.

(** [keyId] and [counter] are of type [number]: the function is called on
    integers [z] with [is_Number z] only (every integer up to 2^53 and,
    above, the multiples of the spacing of the doubles), since an argument
    is rounded to a double before the call. *)
Definition generateSFrameHeader (keyId counter : Z) : result SFrameHeader :=
  do _ <- checkSFrameHeaderKeyId keyId;
  let isExtendedKey := 7 <? keyId in
  let keyLenOrKeyId := if isExtendedKey then calculateKLENorLEN keyId else Num keyId in
  match keyLenOrKeyId, calculateKLENorLEN counter with
  | Num keyLenOrKeyId, Num ctrLEN =>
      if 7 <? ctrLEN then
        Throw (PlainError "The length of the CTR fields in bytes must be between 1-8")
      else
        let staticHeaderLength := 1 in
        let extendedKeyLength := keyLenOrKeyId + lengthAdjustment in
        let frameCounterLength := ctrLEN + lengthAdjustment in
        let headerDataLength :=
          if isExtendedKey
          then staticHeaderLength + extendedKeyLength + frameCounterLength
          else staticHeaderLength + frameCounterLength in
        let headerData := alloc (Z.to_nat headerDataLength) in
        let headerData := put headerData 0 0x00 in
        let headerData :=
          put headerData 0
            (Z.lor (Z.shiftl (ToInt32 (get headerData 0)) 3) (Z.land ctrLEN 0x07)) in
        let headerData :=
          put headerData 0
            (Z.lor (Z.shiftl (ToInt32 (get headerData 0)) 1)
                   (if isExtendedKey then 0x01 else 0x00)) in
        let headerData :=
          put headerData 0
            (Z.lor (Z.shiftl (ToInt32 (get headerData 0)) 3)
                   (Z.land keyLenOrKeyId 0x07)) in
        let headerData :=
          if isExtendedKey
          then addToHeaderViaI64 headerData staticHeaderLength keyId extendedKeyLength
          else headerData in
        let ctrStartIdx := if isExtendedKey then extendedKeyLength + 1 else 1 in
        let headerData := addToHeaderViaI64 headerData ctrStartIdx counter frameCounterLength in
        Ok {| data := headerData;
              keyId := Num keyId;
              counter := Num counter;
              rawCounter := slice headerData ctrStartIdx (ctrStartIdx + frameCounterLength) |}
  | _, _ =>
      (* a negative counter: its length is NaN, [new Uint8Array(NaN)] is
         empty and every loop bound [i < NaN] is false *)
      Ok {| data := []; keyId := Num keyId; counter := Num counter; rawCounter := [] |}
  end.

End Header.

(* ===================================================================== *)
(** ** The WebCrypto interface *)
(* ===================================================================== *)

(** The operations of [crypto.subtle] that the library calls.  A
    [CryptoKey] is represented by its key bits.  [None] is a rejected
    promise.
    - [hkdf hash salt info ikm bits] stands for [deriveBits] and
      [deriveKey] with algorithm [{name: 'HKDF', hash, salt, info}] on the
      imported key material [ikm];
    - [subtle_encrypt name iv length additionalData key payload] stands for
      [crypto.subtle.encrypt({name, iv, length, additionalData}, key, payload)],
      and [subtle_decrypt] likewise;
    - [hmac_sign key message] stands for [crypto.subtle.sign('HMAC', key, message)]. *)
Class WebCrypto := {
  hkdf : string -> bytes -> bytes -> bytes -> Z -> option bytes;
  subtle_encrypt : string -> bytes -> Z -> bytes -> bytes -> bytes -> option bytes;
  subtle_decrypt : string -> bytes -> Z -> bytes -> bytes -> bytes -> option bytes;
  hmac_sign : bytes -> bytes -> option bytes;
}.

(** [new Uint8Array(length)] with a computed length: a negative length
    is a RangeError. *)
Definition Uint8Array (length : Z) : result bytes :=
  if length <? 0 then Throw RangeError else Ok (alloc (Z.to_nat length)).

(** A rejected promise that is awaited throws. *)
Definition await {A} (p : option A) : result A :=
  match p with
  | Some a => Ok a
  | None => Throw SubtleRejected
  end.

(** [new TextEncoder().encode(s)] for the ASCII literals of the library. *)
Definition TextEncoder_encode (s : string) : bytes := list_byte_of_string s.

(* ===================================================================== *)
(** ** IV.ts *)
(* ===================================================================== *)

(** [DataView.prototype.setUint8]: [None] is the RangeError of an offset
    outside of the view. *)
Definition setUint8 (view : bytes) (byteOffset value : Z) : option bytes :=
  if (byteOffset <? 0) || (Z.of_nat (length view) <=? byteOffset) then None
  else Some (put view byteOffset value).

Definition generateIV (counter salt : bytes) : result bytes :=
  let saltLength := Z.of_nat (length salt) in
  let saltArray := salt in
  let counterLength := Z.of_nat (length counter) in
  let iv := alloc (length salt) in
  let aligned :=
    fold_left
      (fun view i =>
         match view with
         | Some iv => setUint8 iv (saltLength - counterLength + i) (ToInt32 (get counter i))
         | None => None
         end)
      (upto counterLength) (Some iv) in
  let xored :=
    fold_left
      (fun view i =>
         match view with
         | Some iv => setUint8 iv i (Z.lxor (ToInt32 (get iv i)) (ToInt32 (get saltArray i)))
         | None => None
         end)
      (upto saltLength) aligned in
  match xored with
  | Some iv => Ok iv
  | None => Throw (SFrameError InitializationVectorError)
  end.

(* ===================================================================== *)
(** ** CipherSuite.ts *)
(* ===================================================================== *)

Inductive CipherSuiteVariant :=
| AES_CM_128_HMAC_SHA256_8
| AES_CM_128_HMAC_SHA256_4
| AES_GCM_128_SHA256
| AES_GCM_256_SHA512.

Record CipherSuiteConfig := mkConfig {
  algorithm : string;
  keyAlgorithm : string;
  hashAlgorithm : string;
  nH : Z;
  nK : Z;
  nN : Z;
  nT : Z;
}.

Record CipherSuite := mkCipherSuite {
  config : CipherSuiteConfig;
  baseKey : bytes;
  encryptionKey : bytes;
  saltKey : bytes;
  authKey : bytes;
}.

Definition getCipherSuiteConfig (variant : CipherSuiteVariant) : option CipherSuiteConfig :=
  match variant with
  | AES_CM_128_HMAC_SHA256_8 =>
      Some {| algorithm := "AES-CTR"; keyAlgorithm := "HKDF"; hashAlgorithm := "SHA-256";
              nH := 32; nK := 16; nN := 12; nT := 8 |}
  | AES_CM_128_HMAC_SHA256_4 =>
      Some {| algorithm := "AES-CTR"; keyAlgorithm := "HKDF"; hashAlgorithm := "SHA-256";
              nH := 32; nK := 16; nN := 12; nT := 4 |}
  | AES_GCM_128_SHA256 =>
      Some {| algorithm := "AES-GCM"; keyAlgorithm := "HKDF"; hashAlgorithm := "SHA-256";
              nH := 32; nK := 16; nN := 12; nT := 8 |}
  | AES_GCM_256_SHA512 =>
      Some {| algorithm := "AES-GCM"; keyAlgorithm := "HKDF"; hashAlgorithm := "SHA-512";
              nH := 64; nK := 32; nN := 12; nT := 16 |}
  end.

Section CipherSuite.
Context {W : WebCrypto}.

Definition createCipherSuite (cipherSuite : CipherSuiteVariant) (keyMaterial : bytes)
  : result CipherSuite :=
  match getCipherSuiteConfig cipherSuite with
  | None => Throw (PlainError "no config found for cipher suite variant")
  | Some config =>
      let key := keyMaterial in
      do encryptionKey <-
        await (hkdf (hashAlgorithm config) (TextEncoder_encode "SFrame10")
                 (TextEncoder_encode "key") key (nK config * 8));
      do saltKey <-
        await (hkdf (hashAlgorithm config) (TextEncoder_encode "SFrame10")
                 (TextEncoder_encode "salt") key (nN config * 8));
      do authKey <-
        await (hkdf "SHA-256" (TextEncoder_encode "SFrame10")
                 (TextEncoder_encode "auth") key (nK config * 8));
      Ok (mkCipherSuite config key encryptionKey saltKey authKey)
  end.

End CipherSuite.

(** The methods of the class [CipherSuite]: the bits of the encryption key
    and of the salt, derived again from the base key. *)
Section CipherSuiteMethods.
Context {W : WebCrypto}.

Definition deriveBits (this : CipherSuite) (info : string) (size : Z) : result bytes :=
  await (hkdf (hashAlgorithm (config this)) (TextEncoder_encode "SFrame10")
           (TextEncoder_encode info) (baseKey this) (size * 8)).

Definition deriveEncryptionKeyBits (this : CipherSuite) : result bytes :=
  deriveBits this "key" (nK (config this)).

Definition deriveSaltBits (this : CipherSuite) : result bytes :=
  deriveBits this "salt" (nN (config this)).

End CipherSuiteMethods.

(* ===================================================================== *)
(** ** SFrameCrypto.ts *)
(* ===================================================================== *)

Module SFrameCrypto.

(** An [SFrameCrypto] object holds nothing but its cipher suite. *)
Definition t := CipherSuite.

Section SFrameCrypto.
Context {W : WebCrypto}.

Definition encrypt (cipherSuite : SFrameCrypto.t) (header : SFrameHeader)
    (payload : bytes) (skip : Z) : result (bytes * bytes) :=
  do iv <- generateIV (rawCounter header) (saltKey cipherSuite);
  (* step 1: encrypt *)
  do encrypted <-
    await (subtle_encrypt (algorithm (config cipherSuite)) iv
             (nK (config cipherSuite) * 8) (data header)
             (encryptionKey cipherSuite) payload);
  let authTagLength := nT (config cipherSuite) in
  let frameSize :=
    Z.of_nat (length (data header)) + Z.of_nat (length encrypted)
    + authTagLength + skip in
  do encryptedFrame <- Uint8Array frameSize;
  match
    match set encryptedFrame (data header) skip with
    | Some f => set f encrypted (skip + Z.of_nat (length (data header)))
    | None => None
    end
  with
  | None => Throw (SFrameError EncryptionFailure)
  | Some encryptedFrame =>
      (* step 2: calculate AuthTag and append to encrypted payload *)
      do authCode <-
        await (hmac_sign (authKey cipherSuite)
                 (subarray encryptedFrame skip
                    (skip + Z.of_nat (length (data header))
                     + Z.of_nat (length encrypted))));
      let authTag := subarray authCode 0 authTagLength in
      match
        set encryptedFrame authTag
          (skip + Z.of_nat (length encrypted) + Z.of_nat (length (data header)))
      with
      | Some encryptedFrame => Ok (encryptedFrame, authTag)
      | None => Throw (SFrameError AuthenticationError)
      end
  end.

Definition decrypt (cipherSuite : SFrameCrypto.t) (header : SFrameHeader)
    (encryptedFrame : bytes) (skip : Z) : result (bytes * bytes) :=
  (* step 1: verify authentication by calculating authTag from encrypted payload *)
  do iv <- generateIV (rawCounter header) (saltKey cipherSuite);
  let authTagLength := nT (config cipherSuite) in
  let frameLength := Z.of_nat (length encryptedFrame) - skip in
  let authTag :=
    subarray encryptedFrame (skip + frameLength - authTagLength) (skip + frameLength) in
  let encryptedPayload :=
    subarray encryptedFrame (skip + Z.of_nat (length (data header)))
      (skip + frameLength - authTagLength) in
  do authCode <-
    await (hmac_sign (authKey cipherSuite)
             (subarray encryptedFrame skip
                (skip + Z.of_nat (length (data header))
                 + Z.of_nat (length encryptedPayload))));
  let authenticated :=
    fold_left
      (fun authenticated i =>
         authenticated && strict_eq (get authTag i) (get authCode i))
      (upto authTagLength) true in
  if negb authenticated then Throw (PlainError "Authentication error")
  else
    (* step 2: decrypt payload *)
    do payload <-
      await (subtle_decrypt (algorithm (config cipherSuite)) iv
               (nK (config cipherSuite) * 8) (data header)
               (encryptionKey cipherSuite) encryptedPayload);
    Ok (payload, authTag).

(** The default variant of [createSFrameCrypto] is [AES_GCM_256_SHA512]. *)
Definition createSFrameCrypto (rawKey : bytes) (variant : CipherSuiteVariant)
  : result SFrameCrypto.t :=
  createCipherSuite variant rawKey.

End SFrameCrypto.
End SFrameCrypto.

(* ===================================================================== *)
(** ** Sender.ts *)
(* ===================================================================== *)

Module Sender.

Record t := mk {
  senderId : Z;
  counter : Z;
  key : option SFrameCrypto.t;
}.

Section Sender.
Context {M : JSMath} {W : WebCrypto}.

(** [new Sender(senderId)]. *)
Definition new (senderId : Z) : result t :=
  do _ <- checkSFrameHeaderKeyId senderId;
  Ok {| senderId := senderId; counter := 0; key := None |}.

(** [encrypt] returns its result and the sender after the call: the
    counter is incremented before anything can throw. *)
Definition encrypt (this : t) (payloadToBeEncrypted : bytes) (skip : Z)
  : result bytes * t :=
  match key this with
  | None => (Throw (SFrameError InvalidKey), this)
  | Some key =>
      let counter := counter this in
      let this :=
        {| senderId := senderId this;
           counter := round_double (counter + 1);
           key := Some key |} in
      (do header <- generateSFrameHeader (senderId this) counter;
       do encrypted <- SFrameCrypto.encrypt key header payloadToBeEncrypted skip;
       let encryptedFrame := fst encrypted in
       (* copy part of payload that is not encrypted *)
       if skip =? 0 then Ok encryptedFrame
       else
         match set encryptedFrame (subarray payloadToBeEncrypted 0 skip) 0 with
         | Some encryptedFrame => Ok encryptedFrame
         | None => Throw RangeError
         end,
       this)
  end.

Definition setSenderId (this : t) (senderId : Z) : result unit * t :=
  match checkSFrameHeaderKeyId senderId with
  | Throw e => (Throw e, this)
  | Ok _ => (Ok tt, {| senderId := senderId; counter := counter this; key := key this |})
  end.

Definition setEncryptionKey (this : t) (key : SFrameCrypto.t) : t :=
  {| senderId := senderId this; counter := counter this; key := Some key |}.

End Sender.
End Sender.

(* ===================================================================== *)
(** ** Receiver.ts *)
(* ===================================================================== *)

Module Receiver.

Definition ReplayWindow : Z := 128.
Definition KeyTimeout : Z := 1000.

(** The keyring holds the oldest key first.  The timer that retires the
    keys older than a newly installed one after [KeyTimeout] milliseconds
    is outside of this development. *)
Record t := mk {
  maxReceivedCounter : Number;
  keyring : list SFrameCrypto.t;
}.

Section Receiver.
Context {W : WebCrypto}.

(** [new Receiver(senderId)]. *)
Definition new (senderId : Z) : result t :=
  do _ <- checkSFrameHeaderKeyId senderId;
  Ok {| maxReceivedCounter := Num (-1); keyring := [] |}.

Definition checkForReplayAttack (this : t) (header : SFrameHeader) : result unit :=
  if lt (counter header) (maxReceivedCounter this)
     && gt (sub (maxReceivedCounter this) (counter header)) (Num ReplayWindow)
  then Throw (SFrameError ReplayAttackError)
  else Ok tt.

(** The loop over the keyring: the first key that decrypts wins, the
    error of a key that fails is dropped. *)
Fixpoint tryKeys (keyRingSnapshot : list SFrameCrypto.t) (header : SFrameHeader)
    (frameToBeDecrypted : bytes) (skip : Z) : option (bytes * bytes) :=
  match keyRingSnapshot with
  | [] => None
  | key :: rest =>
      match SFrameCrypto.decrypt key header frameToBeDecrypted skip with
      | Ok r => Some r
      | Throw _ => tryKeys rest header frameToBeDecrypted skip
      end
  end.

Definition decrypt (this : t) (header : SFrameHeader) (encryptedFrame : bytes)
    (skip : Z) : result bytes * t :=
  let frameToBeDecrypted := encryptedFrame in
  match checkForReplayAttack this header with
  | Throw e => (Throw e, this)
  | Ok _ =>
      let keyRingSnapshot := keyring this in
      match tryKeys keyRingSnapshot header frameToBeDecrypted skip with
      | None => (Throw (SFrameError DecryptionFailure), this)
      | Some (decryptedFrame, authTag) =>
          (* the skip denotes parts that we send in clear, thus they need
             to be copied into the decrypted frame *)
          match
            if skip =? 0 then Some decryptedFrame
            else set decryptedFrame (subarray frameToBeDecrypted 0 skip) 0
          with
          | None => (Throw RangeError, this)
          | Some decryptedFrame =>
              (* Store last received counter *)
              (Ok decryptedFrame,
               {| maxReceivedCounter := max (counter header) (maxReceivedCounter this);
                  keyring := keyring this |})
          end
      end
  end.

(** Append to the keyring. *)
Definition setEncryptionKey (this : t) (key : SFrameCrypto.t) : t :=
  {| maxReceivedCounter := maxReceivedCounter this;
     keyring := keyring this ++ [key] |}.

End Receiver.
End Receiver.

(* ===================================================================== *)
(** ** Context.ts *)
(* ===================================================================== *)

Module MediaFrame.
Record t := mk {
  data : bytes;
  headerLength : Z;
}.
End MediaFrame.

Module Context.

Record t := mk {
  sender : option Sender.t;
  receivers : gmap Number Receiver.t;
}.

Section Context.
Context {M : JSMath} {W : WebCrypto}.

(** [new Context()]. *)
Definition new : t := {| sender := None; receivers := ∅ |}.

Definition setSenderEncryptionKey (this : t) (senderId : Z) (key : bytes)
  : result unit * t :=
  match
    match sender this with
    | None => Sender.new senderId
    | Some s =>
        match Sender.setSenderId s senderId with
        | (Ok _, s) => Ok s
        | (Throw e, _) => Throw e
        end
    end
  with
  | Throw e => (Throw e, this)
  | Ok s =>
      match SFrameCrypto.createSFrameCrypto key AES_GCM_256_SHA512 with
      | Throw e => (Throw e, {| sender := Some s; receivers := receivers this |})
      | Ok encryptionKey =>
          (Ok tt, {| sender := Some (Sender.setEncryptionKey s encryptionKey);
                     receivers := receivers this |})
      end
  end.

Definition setReceiverEncryptionKey (this : t) (receiverKeyId : Z) (key : bytes)
  : result unit * t :=
  match
    match receivers this !! Num receiverKeyId with
    | Some receiver => Ok receiver
    | None => Receiver.new receiverKeyId
    end
  with
  | Throw e => (Throw e, this)
  | Ok receiver =>
      let this :=
        {| sender := sender this;
           receivers := <[Num receiverKeyId := receiver]> (receivers this) |} in
      match SFrameCrypto.createSFrameCrypto key AES_GCM_256_SHA512 with
      | Throw e => (Throw e, this)
      | Ok receiverKey =>
          (Ok tt,
           {| sender := sender this;
              receivers :=
                <[Num receiverKeyId := Receiver.setEncryptionKey receiver receiverKey]>
                  (receivers this) |})
      end
  end.

Definition deleteReceiver (this : t) (receiverKeyId : Z) : bool * t :=
  (bool_decide (is_Some (receivers this !! Num receiverKeyId)),
   {| sender := sender this; receivers := delete (Num receiverKeyId) (receivers this) |}).

Definition canEncrypt (this : t) : bool :=
  match sender this with Some _ => true | None => false end.

Definition encrypt (this : t) (frame : bytes) (skip : Z) : result bytes * t :=
  match sender this with
  | None => (Throw (SFrameError EncryptionFailure), this)
  | Some s =>
      let '(r, s) := Sender.encrypt s frame skip in
      (r, {| sender := Some s; receivers := receivers this |})
  end.

Definition encryptFrame (this : t) (frame : MediaFrame.t) : result bytes * t :=
  encrypt this (MediaFrame.data frame) (MediaFrame.headerLength frame).

(** [frame.subarray(begin)]: up to the end of the array. *)
Definition subarray_from (frame : bytes) (begin : Z) : bytes :=
  subarray frame begin (Z.of_nat (length frame)).

Definition readKeyId (this : t) (frame : MediaFrame.t) : Number :=
  let header :=
    parseSFrameHeader
      (subarray_from (MediaFrame.data frame) (MediaFrame.headerLength frame)) in
  keyId header.

Definition canDecrypt (this : t) (receiverKeyId : Z) : bool :=
  bool_decide (is_Some (receivers this !! Num receiverKeyId)).

Definition decrypt (this : t) (encryptedFrame : bytes) (skip : Z) : result bytes * t :=
  let header := parseSFrameHeader (subarray_from encryptedFrame skip) in
  match receivers this !! keyId header with
  | None => (Throw (SFrameError InvalidKey), this)
  | Some receiver =>
      let '(r, receiver) := Receiver.decrypt receiver header encryptedFrame skip in
      (r, {| sender := sender this;
             receivers := <[keyId header := receiver]> (receivers this) |})
  end.

Definition decryptFrame (this : t) (frame : MediaFrame.t) : result bytes * t :=
  decrypt this (MediaFrame.data frame) (MediaFrame.headerLength frame).

End Context.
End Context.

(* ===================================================================== *)
(** ** Utils.ts *)
(* ===================================================================== *)

(** The conversions between buffers and hexadecimal or binary strings, and
    the comparison of buffers.  A string is the sequence of its code
    units; the functions are modelled on strings whose code units are
    below 256. *)
Module Utils.

Definition codeUnit (c : ascii) : Z := Z.of_nat (nat_of_ascii c).

(** The digit of value [d] as [Number.prototype.toString] writes it. *)
Definition digitChar (d : Z) : ascii :=
  ascii_of_nat (Z.to_nat (if d <? 10 then 48 + d else 87 + d)).

Fixpoint toDigits (fuel : nat) (radix n : Z) (acc : list ascii) : list ascii :=
  match fuel with
  | O => acc
  | S fuel =>
      let acc := digitChar (n mod radix) :: acc in
      if n / radix =? 0 then acc else toDigits fuel radix (n / radix) acc
  end.

(** [x.toString(radix)] for an element [x] of a [Uint8Array], which has
    at most eight digits. *)
Definition toString (x : byte) (radix : Z) : list ascii :=
  toDigits 8 radix (byte.unsigned x) [].

(** [s.padStart(targetLength, fill)] for a filler of one character. *)
Definition padStart (s : list ascii) (targetLength : nat) (fill : ascii) : list ascii :=
  repeat fill (targetLength - length s) ++ s.

Definition toHex (buffer : bytes) : string :=
  string_of_list_ascii
    (concat (map (fun x => padStart (toString x 16) 2 "0"%char) buffer)).

(** White space and line terminators among the code units below 256. *)
Definition isWhiteSpace (c : ascii) : bool :=
  let n := codeUnit c in
  (n =? 9) || (n =? 10) || (n =? 11) || (n =? 12) || (n =? 13) || (n =? 32) || (n =? 160).

Fixpoint trimStart (s : list ascii) : list ascii :=
  match s with
  | c :: s' => if isWhiteSpace c then trimStart s' else s
  | [] => []
  end.

Definition digitValue (c : ascii) : option Z :=
  let n := codeUnit c in
  if (48 <=? n) && (n <=? 57) then Some (n - 48)
  else if (97 <=? n) && (n <=? 122) then Some (n - 87)
  else if (65 <=? n) && (n <=? 90) then Some (n - 55)
  else None.

(** The value of the longest prefix of digits of the radix; [None] when
    that prefix is empty. *)
Fixpoint parseDigits (radix : Z) (s : list ascii) (acc : option Z) : option Z :=
  match s with
  | [] => acc
  | c :: s' =>
      match digitValue c with
      | Some d =>
          if d <? radix
          then parseDigits radix s'
                 (Some (match acc with Some a => a * radix + d | None => d end))
          else acc
      | None => acc
      end
  end.

(** [parseInt(s, radix)] for a radix from 2 to 36, as called on the slices
    of [fromHex] and [fromBin]: leading white space and a sign are
    skipped, radix 16 skips a prefix [0x], the digits are read up to the
    first character that is none, and no digit at all gives NaN.  The
    results [-0] and [0] are not told apart. *)
Definition parseInt (s : list ascii) (radix : Z) : Number :=
  let s := trimStart s in
  let '(sign, s) :=
    match s with
    | "-"%char :: s' => (-1, s')
    | "+"%char :: s' => (1, s')
    | _ => (1, s)
    end in
  let s :=
    if radix =? 16 then
      match s with
      | "0"%char :: "x"%char :: s' => s'
      | "0"%char :: "X"%char :: s' => s'
      | _ => s
      end
    else s in
  match parseDigits radix s None with
  | Some v => Num (round_double (sign * v))
  | None => NaN
  end.

(** [str.substring(start, end)] with [0 <= start <= end]; an end beyond
    the string is the end of the string. *)
Definition substring (str : list ascii) (start end_ : nat) : list ascii :=
  take (end_ - start) (drop start str).

(** An element of [new Uint8Array(numbers)]: NaN becomes 0, an integer is
    taken modulo 256. *)
Definition ToUint8 (n : Number) : byte :=
  match n with
  | Num z => byte.of_Z z
  | NaN => Byte.x00
  end.

(** The indices of [for (let i = 0; i < str.length / sliceLength; ++i)]:
    the quotient is not rounded, so a last slice may be short. *)
Definition slices (length sliceLength : nat) : list nat :=
  seq 0 ((length + sliceLength - 1) / sliceLength).

Definition fromHex (str : string) : bytes :=
  let str := list_ascii_of_string str in
  let sliceLength := 2%nat in
  map (fun i =>
         ToUint8 (parseInt (substring str (i * sliceLength) ((i + 1) * sliceLength)) 16))
    (slices (length str) sliceLength).

(** The second [map] of [toBin]: a space before every fourth character
    but the first. *)
Fixpoint spaced (i : nat) (s : list ascii) : list ascii :=
  match s with
  | [] => []
  | d :: s' =>
      (if (0 <? i)%nat && (i mod 4 =? 0)%nat then [" "%char; d] else [d])
      ++ spaced (S i) s'
  end.

Definition toBin (buffer : bytes) : string :=
  let s := concat (map (fun x => padStart (toString x 2) 8 "0"%char) buffer) in
  string_of_list_ascii (spaced 0 s).

(** [str.replace(/ /g, '')] and the slices of eight characters. *)
Definition fromBin (str : string) : bytes :=
  let str :=
    List.filter (fun c => negb (Ascii.eqb c " "%char)) (list_ascii_of_string str) in
  let sliceLength := 8%nat in
  map (fun i =>
         ToUint8 (parseInt (substring str (i * sliceLength) ((i + 1) * sliceLength)) 2))
    (slices (length str) sliceLength).

(** [equals]: the lengths are compared first, then the elements, up to
    the first difference. *)
Definition equals (a b : bytes) : bool :=
  if negb (length a =? length b)%nat then false
  else forallb (fun i => strict_eq (get a i) (get b i)) (upto (Z.of_nat (length a))).

End Utils.

(* ===================================================================== *)
(** ** A small provider of the WebCrypto interface *)
(* ===================================================================== *)

(** A transparent stand-in for [crypto.subtle], used to run the code on
    concrete frames.  It has the shape of the real provider: the HKDF
    output has the requested length; the HMAC-SHA-256 signature has 32
    bytes; the output of AES-GCM is the ciphertext, as long as the
    plaintext, followed by the 16 bytes of the tag of the cipher (the
    default [tagLength] of 128 bits); and a call for AES-CTR is rejected,
    since its parameters must name the counter block [counter], while the
    library passes [iv], [length] and [additionalData] (the test suite
    skips the two counter mode suites as not supported by WebCrypto).
    Nothing below relies on it being secure. *)
Module Toy.

Definition checksum (l : bytes) : byte :=
  byte.of_Z (fold_left (fun acc b => acc + byte.unsigned b) l 0).

Fixpoint bytes_eqb (a b : bytes) : bool :=
  match a, b with
  | [], [] => true
  | x :: a, y :: b => Byte.eqb x y && bytes_eqb a b
  | _, _ => false
  end.

Definition hkdf (hash : string) (salt info ikm : bytes) (bits : Z) : option bytes :=
  if bits <? 0 then None
  else Some (repeat (checksum (list_byte_of_string hash ++ salt ++ info ++ ikm))
               (Z.to_nat (bits / 8))).

Definition tag (iv additionalData key : bytes) : bytes :=
  repeat (checksum (iv ++ additionalData ++ key)) 16.

Definition encrypt (name : string) (iv : bytes) (length : Z)
    (additionalData key payload : bytes) : option bytes :=
  if String.eqb name "AES-GCM" then Some (payload ++ tag iv additionalData key)
  else None.

Definition decrypt (name : string) (iv : bytes) (len : Z)
    (additionalData key ciphertext : bytes) : option bytes :=
  if String.eqb name "AES-GCM" then
    let n := (length ciphertext - 16)%nat in
    if (16 <=? length ciphertext)%nat
       && bytes_eqb (skipn n ciphertext) (tag iv additionalData key)
    then Some (firstn n ciphertext)
    else None
  else None.

Definition sign (key message : bytes) : option bytes :=
  Some (repeat (checksum (key ++ message)) 32).

Definition provider : WebCrypto := Build_WebCrypto hkdf encrypt decrypt sign.

End Toy.

(** A provider that rejects every call, as [crypto.subtle] rejects key
    material that it cannot import. *)
Definition rejecting : WebCrypto :=
  Build_WebCrypto (fun _ _ _ _ _ => None) (fun _ _ _ _ _ _ => None)
    (fun _ _ _ _ _ _ => None) (fun _ _ => None).

(** The logarithm quotient as binary64 arithmetic computes it on the
    numbers from 1 to 2^64, with both logarithms rounded to the nearest
    double: the integer part of the base-256 logarithm, except just below
    a power of 256, where the rounded quotient already is the next
    integer.
    - At [2^48 - 1], [Math.log(281474976710655)] and
      [Math.log(281474976710656)] are the same double [33.27106466687737]
      and the quotient by [Math.log(256) = 5.545177444479562] is exactly 6.
    - At the 51 numbers from [2^56 - 408] to [2^56 - 8] the quotient is
      exactly 7.
    - At the 45 numbers from [2^64 - 92160] to [2^64 - 2048], the largest
      number below 2^64, the quotient is exactly 8.
    Up to 2^53 the only exception is [2^48 - 1]. *)
Definition binary64_math : JSMath :=
  {| log_quotient i :=
       if i =? 2 ^ 48 - 1 then 6
       else if (2 ^ 56 - 408 <=? i) && (i <? 2 ^ 56) then 7
       else if (2 ^ 64 - 92160 <=? i) && (i <? 2 ^ 64) then 8
       else Z.log2 i / 8 |}.

(** The condition under which the logarithm quotient is of use: up to
    2^53 it never announces fewer bytes than the number has, nor more than
    eight. *)
Definition log_quotient_sound (M : JSMath) : Prop :=
  forall i, 0 < i <= 2 ^ 53 ->
    0 <= log_quotient i <= 7 /\ i < 256 ^ (log_quotient i + 1).

(* ===================================================================== *)
(** ** Specification level functions *)
(* ===================================================================== *)

(** The [n] low bytes of [x], most significant first. *)
Fixpoint bigEndian (n : nat) (x : Z) : bytes :=
  match n with
  | O => []
  | S n' => byte.of_Z (Z.shiftr x (8 * Z.of_nat n')) :: bigEndian n' x
  end.

(** The integer that a byte sequence denotes, most significant first,
    continuing from [acc]. *)
Definition beValue (bs : bytes) (acc : Z) : Z :=
  fold_left (fun a b => a * 256 + byte.unsigned b) bs acc.

(** Every prefix of the byte sequence denotes a number: the loop of
    [parseSFrameHeader] that accumulates the bytes in a [number] then
    never rounds. *)
Definition exactPrefixes (bs : bytes) : Prop :=
  forall k, (k <= length bs)%nat -> is_Number (beValue (take k bs) 0) = true.

(** The metadata byte [R|LEN|X|K] of the header. *)
Definition metadataByte (LEN X K : Z) : byte :=
  byte.of_Z (Z.lor (Z.lor (Z.shiftl (Z.land LEN 7) 4) (Z.shiftl X 3)) (Z.land K 7)).

(** The least number of bytes that hold [x]:
    [max(1, ceil(log2(x + 1) / 8))]. *)
Definition minimalLength (x : Z) : Z :=
  Z.max 1 ((Z.log2_up (x + 1) + 7) / 8).

(** Byte-wise exclusive or of two sequences of the same length. *)
Fixpoint xorBytes (a b : bytes) : bytes :=
  match a, b with
  | x :: a', y :: b' => byte.xor x y :: xorBytes a' b'
  | _, _ => []
  end.

(** The frame on the wire: the first [skip] bytes of the payload in the
    clear (zero bytes where the payload is shorter), the header, the
    output of the cipher and the truncated HMAC. *)
Definition wireFrame (payload : bytes) (skip : nat) (header encrypted tag : bytes)
  : bytes :=
  take skip payload ++ alloc (skip - length payload) ++ header ++ encrypted ++ tag.

(** The length of the header that the metadata byte of a buffer announces:
    the metadata byte, the key id when it is extended, and the counter. *)
Definition announcedLength (buffer : bytes) : Z :=
  let metadata := ToInt32 (get buffer 0) in
  let LEN := Z.land (Z.shiftr metadata 4) 7 in
  let K := Z.land metadata 7 in
  if Z.land metadata 8 =? 0 then 1 + (LEN + 1) else 1 + (K + 1) + (LEN + 1).

(** The outcomes that the replay window prescribes for the frames of one
    sender arriving in the given order, each with its counter and payload,
    at a receiver whose highest counter so far is [m]. *)
Fixpoint windowOutcomes (m : Z) (arrivals : list (Z * bytes)) : list (result bytes) :=
  match arrivals with
  | [] => []
  | (c, P) :: arrivals =>
      if (c <? m) && (Receiver.ReplayWindow <? m - c)
      then Throw (SFrameError ReplayAttackError) :: windowOutcomes m arrivals
      else Ok P :: windowOutcomes (Z.max c m) arrivals
  end.

(** What holds of every context that is built through its methods: the
    sender has a valid id and a counter from 0 to 2^53, the receivers are
    registered under valid ids, and the highest counter of a receiver is
    -1 or more (or NaN). *)
Definition apiInvariant (ctx : Context.t) : Prop :=
  (forall s, Context.sender ctx = Some s ->
     0 <= Sender.senderId s <= SFRAME_HEADER_MAXKEYID
     /\ 0 <= Sender.counter s <= 2 ^ 53)
  /\ (forall k r, Context.receivers ctx !! k = Some r ->
        (exists id, k = Num id /\ 0 <= id <= SFRAME_HEADER_MAXKEYID)
        /\ (Receiver.maxReceivedCounter r = NaN
            \/ exists m, Receiver.maxReceivedCounter r = Num m /\ -1 <= m)).

(** The scenario of the test suite ('Replay attack', and with one payload
    the round trip tests): two fresh contexts share a key under one id, the
    first encrypts the payloads in order, the second decrypts the frames in
    the order given by [order]. *)
Section Scenario.
Context {M : JSMath} {W : WebCrypto}.

Fixpoint encryptAll (sender : Context.t) (payloads : list bytes) (skip : Z)
  : result (list bytes) :=
  match payloads with
  | [] => Ok []
  | payload :: payloads =>
      match Context.encrypt sender payload skip with
      | (Ok encrypted, sender) =>
          do ordered <- encryptAll sender payloads skip;
          Ok (encrypted :: ordered)
      | (Throw e, _) => Throw e
      end
  end.

(** Each decryption sits in its own [try]: the outcome is recorded and the
    loop goes on. *)
Fixpoint decryptAll (receiver : Context.t) (frames : list bytes) (skip : Z)
  : list (result bytes) :=
  match frames with
  | [] => []
  | frame :: frames =>
      let '(r, receiver) := Context.decrypt receiver frame skip in
      r :: decryptAll receiver frames skip
  end.

Definition replayTest (shared : bytes) (payloads : list bytes) (skip : Z)
  : result (list (result bytes)) :=
  let '(r1, sender) := Context.setSenderEncryptionKey Context.new 0 shared in
  let '(r2, receiver) := Context.setReceiverEncryptionKey Context.new 0 shared in
  do _ <- r1;
  do _ <- r2;
  do ordered <- encryptAll sender payloads skip;
  Ok (decryptAll receiver (rev ordered) skip).

End Scenario.

(** Concrete values on which the code is run below: the key material and
    a payload of the test suite, the cipher suite that the small provider
    derives from the key material, and a sender with id 5. *)
Module Sample.

Definition shared : bytes :=
  map byte.of_Z
    [0x12; 0x34; 0x56; 0x78; 0x90; 0x12; 0x34; 0x56; 0x78; 0x90; 0x12; 0x34;
     0x56; 0x78; 0x90; 0x12; 0x12; 0x34; 0x56; 0x78; 0x90; 0x12; 0x34; 0x56;
     0x78; 0x90; 0x12; 0x34; 0x56; 0x78; 0x90; 0x12].

Definition derive (variant : CipherSuiteVariant) : SFrameCrypto.t :=
  match @SFrameCrypto.createSFrameCrypto Toy.provider shared variant with
  | Ok k => k
  | Throw _ => mkCipherSuite (mkConfig "" "" "" 0 0 0 0) [] [] [] []
  end.

Definition key : SFrameCrypto.t := Eval vm_compute in derive AES_GCM_256_SHA512.

Definition payload : bytes := map byte.of_Z [0xde; 0xad; 0xbe; 0xef; 0xca; 0xca].

Definition sender (counter : Z) : Sender.t := Sender.mk 5 counter (Some key).

Definition receiver : Context.t :=
  Context.mk None {[ Num 5 := Receiver.mk (Num (-1)) [key] ]}.

(** The payloads of the 'Replay attack' test: a fixed prefix and the
    number of the frame. *)
Definition payloads (n : nat) : list bytes :=
  map (fun i => payload ++ [byte.of_Z (Z.of_nat i)]) (seq 0 n).

End Sample.

(** A second key, derived from other key material, for the runs in which
    a receiver holds two keys. *)
Module Rotated.

Definition shared : bytes := repeat (byte.of_Z 0x22) 32.

Definition key : SFrameCrypto.t :=
  Eval vm_compute in
    match @SFrameCrypto.createSFrameCrypto Toy.provider shared AES_GCM_256_SHA512 with
    | Ok k => k
    | Throw _ => Sample.key
    end.

End Rotated.

(** The payloads of successive frames with the counters they get,
    starting from [c]. *)
Fixpoint numbered (c : Z) (payloads : list bytes) : list (Z * bytes) :=
  match payloads with
  | [] => []
  | payload :: payloads => (c, payload) :: numbered (c + 1) payloads
  end.

(** [frame] carries [payload] from sender [id] under counter [c] and key
    [K]: its header parses to [id] and [c], its HMAC tag is that of header
    and cipher text under [K], and the cipher text decrypts to [payload]. *)
Definition validFrame {W : WebCrypto} (K : SFrameCrypto.t) (id c : Z)
    (payload : bytes) (skip : nat) (frame : bytes) : Prop :=
  exists h iv encrypted authCode,
    (forall rest, parseSFrameHeader (data h ++ rest) = h)
    /\ keyId h = Num id /\ counter h = Num c
    /\ generateIV (rawCounter h) (saltKey K) = Ok iv
    /\ subtle_decrypt (algorithm (config K)) iv (nK (config K) * 8) (data h)
         (encryptionKey K) encrypted = Some payload
    /\ hmac_sign (authKey K) (data h ++ encrypted) = Some authCode
    /\ 0 <= nT (config K) <= Z.of_nat (length authCode)
    /\ frame = wireFrame payload skip (data h) encrypted
                 (take (Z.to_nat (nT (config K))) authCode).

(** What the library expects of the WebCrypto provider: a cipher that
    accepts the parameters it is given and inverts its own output, an
    HMAC-SHA-256 whose signature has 32 bytes, and a key derivation that
    returns as many bits as it is asked for. *)
Definition subtle_inverts (W : WebCrypto) (name : string) : Prop :=
  forall iv len additionalData key payload,
    exists encrypted,
      subtle_encrypt name iv len additionalData key payload = Some encrypted
      /\ subtle_decrypt name iv len additionalData key encrypted = Some payload.

Definition hmac_sha256 (W : WebCrypto) : Prop :=
  forall key message,
    exists authCode, hmac_sign key message = Some authCode /\ length authCode = 32%nat.

Definition hkdf_length (W : WebCrypto) : Prop :=
  forall hash salt info ikm bits derived,
    hkdf hash salt info ikm bits = Some derived ->
    Z.of_nat (length derived) = bits / 8.

(* ===================================================================== *)
(** * Properties *)
(* ===================================================================== *)

(** ** Numbers *)

Lemma round_double_exact z : Z.abs z <= 2 ^ 53 -> round_double z = z.
Proof.
  intros H. unfold round_double.
  destruct (Z.ltb_spec (Z.abs z) (2 ^ 53)) as [|Hge]; [reflexivity|].
  assert (Hz : z = 2 ^ 53 \/ z = - 2 ^ 53) by lia.
  destruct Hz as [-> | ->]; reflexivity.
Qed.

Lemma round_double_saturates : round_double (2 ^ 53 + 1) = 2 ^ 53.
Proof. reflexivity. Qed.

(** ** Loops and typed arrays *)

Lemma upto_of_nat n : upto (Z.of_nat n) = map Z.of_nat (seq 0 n).
Proof. unfold upto. now rewrite Nat2Z.id. Qed.

Lemma upto_S n : upto (Z.of_nat (S n)) = upto (Z.of_nat n) ++ [Z.of_nat n].
Proof. rewrite !upto_of_nat, seq_S, map_app. reflexivity. Qed.

(** Invariant rule of a counting loop. *)
Lemma fold_upto_ind {A} (P : nat -> A -> Prop) (f : A -> Z -> A) (a : A) (n : nat) :
  P O a ->
  (forall k x, (k < n)%nat -> P k x -> P (S k) (f x (Z.of_nat k))) ->
  P n (fold_left f (upto (Z.of_nat n)) a).
Proof.
  induction n as [|n IH]; intros H0 Hstep.
  - exact H0.
  - rewrite upto_S, fold_left_app. cbn [fold_left].
    apply Hstep; [lia|]. apply IH; [exact H0|].
    intros k x Hk. apply Hstep. lia.
Qed.

Lemma get_nat (a : bytes) (i : nat) : get a (Z.of_nat i) = a !! i.
Proof.
  unfold get. destruct (Z.ltb_spec (Z.of_nat i) 0); [lia|].
  rewrite Nat2Z.id. reflexivity.
Qed.

Lemma put_nat (a : bytes) (i : nat) v : put a (Z.of_nat i) v = <[i := byte.of_Z v]> a.
Proof.
  unfold put. destruct (Z.ltb_spec (Z.of_nat i) 0); [lia|].
  rewrite Nat2Z.id. reflexivity.
Qed.

(** Writing the next element of [t] over [c]. *)
Lemma insert_take_drop {A} (t c : list A) (j : nat) (v : A) :
  t !! j = Some v -> (j < length c)%nat ->
  <[j := v]> (take j t ++ drop j c) = take (S j) t ++ drop (S j) c.
Proof.
  intros Ht Hc.
  assert (Hlt : (j < length t)%nat) by (eapply lookup_lt_Some; eauto).
  destruct (lookup_lt_is_Some_2 c j Hc) as [w Hw].
  rewrite (take_S_r t j v Ht), (drop_S c w j Hw).
  rewrite insert_app_r_alt by (rewrite length_take; lia).
  rewrite length_take, Nat.min_l by lia.
  rewrite Nat.sub_diag. cbn. now rewrite <- app_assoc.
Qed.

Lemma subarray_nat (a : bytes) (b e : nat) :
  (b <= e <= length a)%nat ->
  subarray a (Z.of_nat b) (Z.of_nat e) = take (e - b) (drop b a).
Proof.
  intros H. unfold subarray, rel_index.
  destruct (Z.ltb_spec (Z.of_nat b) 0); [lia|].
  destruct (Z.ltb_spec (Z.of_nat e) 0); [lia|].
  rewrite !Z.min_l by lia.
  rewrite <- Nat2Z.inj_sub by lia. now rewrite !Nat2Z.id.
Qed.

Lemma subarray_mid (a b c : bytes) :
  subarray (a ++ b ++ c) (Z.of_nat (length a)) (Z.of_nat (length a + length b)) = b.
Proof.
  rewrite subarray_nat by (rewrite !length_app; lia).
  rewrite drop_app_length.
  replace (length a + length b - length a)%nat with (length b) by lia.
  apply take_app_length.
Qed.

Lemma set_nat (target src : bytes) (offset : nat) :
  (length src + offset <= length target)%nat ->
  set target src (Z.of_nat offset)
  = Some (take offset target ++ src ++ drop (offset + length src) target).
Proof.
  intros H. unfold set.
  destruct (Z.ltb_spec (Z.of_nat offset) 0); [lia|].
  destruct (Z.ltb_spec (Z.of_nat (length target)) (Z.of_nat (length src) + Z.of_nat offset));
    [lia|].
  cbn. now rewrite Nat2Z.id.
Qed.

Lemma ToInt32_lookup (a : bytes) (i : nat) (b : byte) :
  a !! i = Some b -> byte.of_Z (ToInt32 (get a (Z.of_nat i))) = b.
Proof. intros H. rewrite get_nat, H. apply byte.of_Z_unsigned. Qed.

(** The loop [for i < length: target[offset + i] = source[i]]. *)
Lemma write_loop (a8 pre old post : bytes) :
  length old = length a8 ->
  fold_left
    (fun h i => put h (Z.of_nat (length pre) + i) (ToInt32 (get a8 i)))
    (upto (Z.of_nat (length a8))) (pre ++ old ++ post)
  = pre ++ a8 ++ post.
Proof.
  intros Hlen.
  set (t := pre ++ a8 ++ post). set (c := pre ++ old ++ post).
  assert (Hinv :
    (fun k x => x = take (length pre + k) t ++ drop (length pre + k) c)
      (length a8)
      (fold_left
         (fun h i => put h (Z.of_nat (length pre) + i) (ToInt32 (get a8 i)))
         (upto (Z.of_nat (length a8))) c)).
  { apply fold_upto_ind.
    - rewrite Nat.add_0_r. subst t c.
      now rewrite take_app_length, drop_app_length.
    - intros k x Hk ->.
      destruct (lookup_lt_is_Some_2 a8 k Hk) as [b Hb].
      rewrite <- Nat2Z.inj_add, put_nat, (ToInt32_lookup a8 k b Hb).
      replace (length pre + S k)%nat with (S (length pre + k)) by lia.
      apply insert_take_drop.
      + subst t. rewrite lookup_app_r by lia.
        replace (length pre + k - length pre)%nat with k by lia.
        now rewrite lookup_app_l by lia.
      + subst c. rewrite !length_app. lia. }
  cbn beta in Hinv. rewrite Hinv. subst t c.
  rewrite !app_assoc.
  rewrite <- (length_app pre a8).
  rewrite take_app_length.
  replace (length (pre ++ a8)) with (length (pre ++ old)) by (rewrite !length_app; lia).
  now rewrite drop_app_length.
Qed.

(** ** SFrameHeader.ts: what [generateSFrameHeader] writes *)

Lemma length_bigEndian n x : length (bigEndian n x) = n.
Proof. induction n; cbn; congruence. Qed.

Lemma toUint8ArrayViaI64_bigEndian x len :
  0 <= x < 2 ^ 64 -> 0 <= len <= 8 ->
  toUint8ArrayViaI64 x len = bigEndian (Z.to_nat len) x.
Proof.
  intros Hx Hlen. unfold toUint8ArrayViaI64, i64Bytes.
  rewrite Z.mod_small by lia.
  assert (Hcases : len = 0 \/ len = 1 \/ len = 2 \/ len = 3 \/ len = 4
                   \/ len = 5 \/ len = 6 \/ len = 7 \/ len = 8) by lia.
  repeat (destruct Hcases as [-> | Hcases]); try subst len; reflexivity.
Qed.

Section HeaderFacts.
Context {M : JSMath}.

Lemma addToHeaderViaI64_spec (pre old post : bytes) input len :
  0 <= input < 2 ^ 64 -> 0 <= len <= 8 -> length old = Z.to_nat len ->
  addToHeaderViaI64 (pre ++ old ++ post) (Z.of_nat (length pre)) input len
  = pre ++ bigEndian (Z.to_nat len) input ++ post.
Proof.
  intros Hx Hlen Hold. unfold addToHeaderViaI64.
  rewrite toUint8ArrayViaI64_bigEndian by assumption.
  pose proof (write_loop (bigEndian (Z.to_nat len) input) pre old post) as Hw.
  rewrite length_bigEndian, Z2Nat.id in Hw by lia.
  apply Hw. exact Hold.
Qed.

End HeaderFacts.

Lemma metadata_steps LEN X K :
  0 <= LEN <= 7 -> 0 <= X <= 1 -> 0 <= K <= 7 ->
  byte.of_Z
    (Z.lor
       (Z.shiftl
          (byte.unsigned
             (byte.of_Z
                (Z.lor
                   (Z.shiftl
                      (byte.unsigned
                         (byte.of_Z
                            (Z.lor (Z.shiftl (byte.unsigned (byte.of_Z 0)) 3)
                                   (Z.land LEN 7)))) 1) X))) 3)
       (Z.land K 7))
  = metadataByte LEN X K.
Proof.
  intros HL HX HK.
  assert (HL' : LEN = 0 \/ LEN = 1 \/ LEN = 2 \/ LEN = 3 \/ LEN = 4
                \/ LEN = 5 \/ LEN = 6 \/ LEN = 7) by lia.
  assert (HX' : X = 0 \/ X = 1) by lia.
  assert (HK' : K = 0 \/ K = 1 \/ K = 2 \/ K = 3 \/ K = 4
                \/ K = 5 \/ K = 6 \/ K = 7) by lia.
  clear HL HX HK.
  repeat (destruct HL' as [-> | HL']); try subst LEN;
    (destruct HX' as [-> | ->]);
    repeat (destruct HK' as [-> | HK']); try subst K; reflexivity.
Qed.

(** Decoding the metadata byte. *)
Lemma metadata_decode LEN X K :
  0 <= LEN <= 7 -> 0 <= X <= 1 -> 0 <= K <= 7 ->
  let m := byte.unsigned (metadataByte LEN X K) in
  Z.land (Z.shiftr m 4) 7 = LEN /\ Z.land m 8 = 8 * X /\ Z.land m 7 = K.
Proof.
  intros HL HX HK.
  assert (HL' : LEN = 0 \/ LEN = 1 \/ LEN = 2 \/ LEN = 3 \/ LEN = 4
                \/ LEN = 5 \/ LEN = 6 \/ LEN = 7) by lia.
  assert (HX' : X = 0 \/ X = 1) by lia.
  assert (HK' : K = 0 \/ K = 1 \/ K = 2 \/ K = 3 \/ K = 4
                \/ K = 5 \/ K = 6 \/ K = 7) by lia.
  clear HL HX HK.
  repeat (destruct HL' as [-> | HL']); try subst LEN;
    (destruct HX' as [-> | ->]);
    repeat (destruct HK' as [-> | HK']); try subst K; vm_compute; auto.
Qed.

Lemma alloc_app a b : alloc (a + b) = alloc a ++ alloc b.
Proof. apply repeat_app. Qed.

Lemma length_alloc n : length (alloc n) = n.
Proof. apply repeat_length. Qed.

Lemma checkSFrameHeaderKeyId_ok keyId :
  0 <= keyId <= SFRAME_HEADER_MAXKEYID -> checkSFrameHeaderKeyId keyId = Ok tt.
Proof.
  intros H. unfold checkSFrameHeaderKeyId.
  destruct (Z.ltb_spec keyId 0); [lia|].
  destruct (Z.ltb_spec SFRAME_HEADER_MAXKEYID keyId); [lia|]. reflexivity.
Qed.

Lemma put_0 (b : byte) (r : bytes) v : put (b :: r) 0 v = byte.of_Z v :: r.
Proof. reflexivity. Qed.

Lemma get_0 (b : byte) (r : bytes) : get (b :: r) 0 = Some b.
Proof. reflexivity. Qed.

Section GenerateLayout.
Context {M : JSMath}.

(** Key ids 0..7 travel in the metadata byte. *)
Lemma generateSFrameHeader_basic keyId counter lc :
  0 <= keyId <= 7 -> 0 <= counter < 2 ^ 64 ->
  calculateKLENorLEN counter = Num lc -> 0 <= lc <= 7 ->
  generateSFrameHeader keyId counter
  = Ok {| data := metadataByte lc 0 keyId :: bigEndian (Z.to_nat (lc + 1)) counter;
          keyId := Num keyId;
          counter := Num counter;
          rawCounter := bigEndian (Z.to_nat (lc + 1)) counter |}.
Proof.
  intros Hk Hc Hlc Hl. unfold generateSFrameHeader.
  rewrite checkSFrameHeaderKeyId_ok by (unfold SFRAME_HEADER_MAXKEYID; lia).
  cbn [bind]. destruct (Z.ltb_spec 7 keyId) as [|_]; [lia|].
  rewrite Hlc. destruct (Z.ltb_spec 7 lc) as [|_]; [lia|].
  unfold lengthAdjustment.
  replace (Z.to_nat (1 + (lc + 1))) with (S (Z.to_nat (lc + 1))) by lia.
  change (alloc (S (Z.to_nat (lc + 1)))) with (Byte.x00 :: alloc (Z.to_nat (lc + 1))).
  repeat (rewrite put_0 || rewrite get_0). cbn [ToInt32].
  rewrite (metadata_steps lc 0 keyId) by lia.
  pose proof (addToHeaderViaI64_spec [metadataByte lc 0 keyId]
                (alloc (Z.to_nat (lc + 1))) [] counter (lc + 1)) as Hw.
  rewrite app_nil_r in Hw. cbn [length app] in Hw. change (Z.of_nat 1) with 1 in Hw.
  rewrite Hw by (rewrite ?length_alloc; lia). clear Hw.
  rewrite app_nil_r. f_equal. f_equal.
  pose proof (subarray_mid [metadataByte lc 0 keyId]
                (bigEndian (Z.to_nat (lc + 1)) counter) []) as Hs.
  rewrite app_nil_r in Hs. cbn [length app] in Hs.
  rewrite length_bigEndian in Hs.
  replace (Z.of_nat (1 + Z.to_nat (lc + 1))) with (1 + (lc + 1)) in Hs by lia.
  exact Hs.
Qed.

(** Larger key ids follow the metadata byte, which carries their length. *)
Lemma generateSFrameHeader_extended keyId counter lk lc :
  7 < keyId <= SFRAME_HEADER_MAXKEYID -> 0 <= counter < 2 ^ 64 ->
  calculateKLENorLEN keyId = Num lk -> 0 <= lk <= 7 ->
  calculateKLENorLEN counter = Num lc -> 0 <= lc <= 7 ->
  generateSFrameHeader keyId counter
  = Ok {| data := metadataByte lc 1 lk
                  :: bigEndian (Z.to_nat (lk + 1)) keyId
                  ++ bigEndian (Z.to_nat (lc + 1)) counter;
          keyId := Num keyId;
          counter := Num counter;
          rawCounter := bigEndian (Z.to_nat (lc + 1)) counter |}.
Proof.
  intros Hk Hc Hlk Hl1 Hlc Hl2. unfold generateSFrameHeader.
  rewrite checkSFrameHeaderKeyId_ok by lia.
  cbn [bind]. destruct (Z.ltb_spec 7 keyId) as [_|]; [|lia].
  rewrite Hlk, Hlc. destruct (Z.ltb_spec 7 lc) as [|_]; [lia|].
  unfold lengthAdjustment.
  replace (Z.to_nat (1 + (lk + 1) + (lc + 1)))
    with (S (Z.to_nat (lk + 1) + Z.to_nat (lc + 1))) by lia.
  change (alloc (S (Z.to_nat (lk + 1) + Z.to_nat (lc + 1))))
    with (Byte.x00 :: alloc (Z.to_nat (lk + 1) + Z.to_nat (lc + 1))).
  rewrite alloc_app.
  repeat (rewrite put_0 || rewrite get_0). cbn [ToInt32].
  rewrite (metadata_steps lc 1 lk) by lia.
  assert (HkeyId : 0 <= keyId < 2 ^ 64)
    by (unfold SFRAME_HEADER_MAXKEYID in Hk; lia).
  pose proof (addToHeaderViaI64_spec [metadataByte lc 1 lk]
                (alloc (Z.to_nat (lk + 1))) (alloc (Z.to_nat (lc + 1)))
                keyId (lk + 1)) as Hw.
  cbn [length app] in Hw. change (Z.of_nat 1) with 1 in Hw.
  rewrite Hw by (rewrite ?length_alloc; lia). clear Hw.
  pose proof (addToHeaderViaI64_spec
                (metadataByte lc 1 lk :: bigEndian (Z.to_nat (lk + 1)) keyId)
                (alloc (Z.to_nat (lc + 1))) [] counter (lc + 1)) as Hw.
  rewrite app_nil_r in Hw. cbn [length] in Hw. rewrite length_bigEndian in Hw.
  replace (Z.of_nat (S (Z.to_nat (lk + 1)))) with (lk + 1 + 1) in Hw by lia.
  cbn [app] in Hw.
  rewrite Hw by (rewrite ?length_alloc; lia). clear Hw.
  rewrite app_nil_r. f_equal. f_equal.
  pose proof (subarray_mid
                (metadataByte lc 1 lk :: bigEndian (Z.to_nat (lk + 1)) keyId)
                (bigEndian (Z.to_nat (lc + 1)) counter) []) as Hs.
  rewrite app_nil_r in Hs. cbn [length app] in Hs.
  rewrite !length_bigEndian in Hs.
  replace (Z.of_nat (S (Z.to_nat (lk + 1)))) with (lk + 1 + 1) in Hs by lia.
  replace (Z.of_nat (S (Z.to_nat (lk + 1)) + Z.to_nat (lc + 1)))
    with (lk + 1 + 1 + (lc + 1)) in Hs by lia.
  exact Hs.
Qed.

End GenerateLayout.

(** With a logarithm quotient that is the integer part of the base-256
    logarithm, key id and counter are written in their minimal lengths. *)
Section ExactLogarithm.
Context {M : JSMath}.
Hypothesis Hexact : forall i, 0 < i -> log_quotient i = Z.log2 i / 8.

Lemma calculateKLENorLEN_minimal x :
  0 <= x < 2 ^ 64 ->
  calculateKLENorLEN x = Num (minimalLength x - 1) /\ 0 <= minimalLength x - 1 <= 7.
Proof.
  intros Hx. unfold calculateKLENorLEN, minimalLength.
  destruct (Z.eqb_spec x 0) as [-> | Hne];
    [split; [reflexivity | vm_compute; split; discriminate]|].
  destruct (Z.ltb_spec x 0); [lia|].
  rewrite Hexact by lia.
  rewrite Z.log2_up_eqn by lia. replace (Z.pred (x + 1)) with x by lia.
  pose proof (Z.log2_nonneg x) as Hnn.
  assert (Hlt : Z.log2 x < 64) by (apply Z.log2_lt_pow2; lia).
  replace (Z.succ (Z.log2 x) + 7) with (Z.log2 x + 1 * 8) by lia.
  rewrite Z.div_add by lia.
  assert (0 <= Z.log2 x / 8 < 8)
    by (split; [apply Z.div_pos; lia | apply Z.div_lt_upper_bound; lia]).
  split; [f_equal; lia | lia].
Qed.

Lemma generateSFrameHeader_minimal kid ctr :
  0 <= kid <= SFRAME_HEADER_MAXKEYID -> 0 <= ctr < 2 ^ 64 ->
  exists h,
    generateSFrameHeader kid ctr = Ok h
    /\ rawCounter h = bigEndian (Z.to_nat (minimalLength ctr)) ctr
    /\ data h
       = if 7 <? kid
         then metadataByte (minimalLength ctr - 1) 1 (minimalLength kid - 1)
              :: bigEndian (Z.to_nat (minimalLength kid)) kid
              ++ bigEndian (Z.to_nat (minimalLength ctr)) ctr
         else metadataByte (minimalLength ctr - 1) 0 kid
              :: bigEndian (Z.to_nat (minimalLength ctr)) ctr.
Proof.
  intros Hk Hc.
  destruct (calculateKLENorLEN_minimal ctr Hc) as [Hlc Hlc7].
  destruct (Z.ltb_spec 7 kid) as [Hext | Hbasic].
  - assert (Hk64 : 0 <= kid < 2 ^ 64) by (unfold SFRAME_HEADER_MAXKEYID in Hk; lia).
    destruct (calculateKLENorLEN_minimal kid Hk64) as [Hlk Hlk7].
    eexists. split.
    + apply (generateSFrameHeader_extended kid ctr _ _ (conj Hext (proj2 Hk)) Hc
               Hlk Hlk7 Hlc Hlc7).
    + cbn [rawCounter data].
      replace (minimalLength kid - 1 + 1) with (minimalLength kid) by lia.
      replace (minimalLength ctr - 1 + 1) with (minimalLength ctr) by lia.
      split; reflexivity.
  - eexists. split.
    + apply (generateSFrameHeader_basic kid ctr _ (conj (proj1 Hk) Hbasic) Hc Hlc Hlc7).
    + cbn [rawCounter data].
      replace (minimalLength ctr - 1 + 1) with (minimalLength ctr) by lia.
      split; reflexivity.
Qed.

End ExactLogarithm.

(** ** SFrameHeader.ts: what [parseSFrameHeader] reads *)

Lemma beValue_app l1 l2 a : beValue (l1 ++ l2) a = beValue l2 (beValue l1 a).
Proof. apply fold_left_app. Qed.

Lemma beValue_ge l a : 0 <= a -> a <= beValue l a.
Proof.
  revert a. induction l as [|b l IH]; intros a Ha; cbn; [lia|].
  pose proof (byte.unsigned_range b).
  etransitivity; [|apply IH]; lia.
Qed.

Lemma beValue_take_le k l a : 0 <= a -> beValue (take k l) a <= beValue l a.
Proof.
  intros Ha. rewrite <- (take_drop k l) at 2. rewrite beValue_app.
  apply beValue_ge. etransitivity; [exact Ha|]. now apply beValue_ge.
Qed.

(** *** Numbers above 2^53

    An integer is a number when it is below 2^53 or a multiple of the
    spacing of the doubles at its size. *)

Lemma is_Number_spec z :
  0 <= z ->
  is_Number z = true <-> z < 2 ^ 53 \/ z mod 2 ^ (Z.log2 z - 52) = 0.
Proof.
  intros Hz. unfold is_Number, round_double. rewrite (Z.abs_eq z Hz).
  destruct (Z.ltb_spec z (2 ^ 53)) as [Hlt | Hge].
  - rewrite Z.eqb_refl. split; [now left | reflexivity].
  - assert (Hlog : 53 <= Z.log2 z) by (apply Z.log2_le_pow2; lia).
    set (e := Z.log2 z - 52).
    assert (He : 0 < 2 ^ e) by (apply Z.pow_pos_nonneg; lia).
    rewrite (Z.sgn_pos z) by lia. rewrite Z.mul_1_l.
    split.
    + intros H. right. apply Z.eqb_eq in H. rewrite <- H. apply Z.mod_mul. lia.
    + intros [Hlt | Hmod]; [lia|].
      rewrite Hmod.
      assert (Hhalf : 0 < 2 ^ (e - 1)) by (apply Z.pow_pos_nonneg; lia).
      destruct (Z.ltb_spec 0 (2 ^ (e - 1))); [|lia].
      apply Z.eqb_eq. pose proof (Z.div_mod z (2 ^ e) ltac:(lia)). lia.
Qed.

Lemma is_Number_small z : 0 <= z <= 2 ^ 53 -> is_Number z = true.
Proof.
  intros Hz. unfold is_Number. rewrite round_double_exact by lia. apply Z.eqb_refl.
Qed.

(** Dropping low bits of a number leaves a number. *)
Lemma is_Number_div_pow2 z k :
  0 <= z -> 0 <= k -> is_Number z = true -> is_Number (z / 2 ^ k) = true.
Proof.
  intros Hz Hk Hn.
  assert (Hp : 0 < 2 ^ k) by (apply Z.pow_pos_nonneg; lia).
  assert (Hw : 0 <= z / 2 ^ k) by (apply Z.div_pos; lia).
  apply is_Number_spec; [assumption|].
  destruct (Z.lt_ge_cases (z / 2 ^ k) (2 ^ 53)) as [Hlt | Hge]; [now left|right].
  assert (Hzk : 2 ^ 53 * 2 ^ k <= z).
  { pose proof (Z.mul_div_le z (2 ^ k) Hp). nia. }
  assert (Hz53 : 2 ^ 53 <= z) by nia.
  apply is_Number_spec in Hn; [|assumption]. destruct Hn as [?|Hmod]; [lia|].
  assert (Hlogw : Z.log2 (z / 2 ^ k) = Z.log2 z - k).
  { rewrite <- Z.shiftr_div_pow2 by lia. rewrite Z.log2_shiftr by lia.
    assert (53 <= Z.log2 (z / 2 ^ k)) by (apply Z.log2_le_pow2; lia).
    rewrite <- Z.shiftr_div_pow2 in H by lia. rewrite Z.log2_shiftr in H by lia. lia. }
  rewrite Hlogw.
  assert (Hlw : 53 <= Z.log2 z - k) by (rewrite <- Hlogw; apply Z.log2_le_pow2; lia).
  set (e := Z.log2 z - 52) in *.
  apply Z.mod_divide in Hmod; [|apply Z.pow_nonzero; lia].
  destruct Hmod as [m Hm].
  replace (Z.log2 z - k - 52) with (e - k) by lia.
  replace (2 ^ e) with (2 ^ (e - k) * 2 ^ k) in Hm
    by (rewrite <- Z.pow_add_r by lia; f_equal; lia).
  rewrite Hm, Z.mul_assoc, Z.div_mul by lia.
  apply Z.mod_mul. apply Z.pow_nonzero; lia.
Qed.

(** Appending zero bits to a number leaves a number. *)
Lemma is_Number_mul_pow2 z k :
  0 <= z -> 0 <= k -> is_Number z = true -> is_Number (z * 2 ^ k) = true.
Proof.
  intros Hz Hk Hn.
  assert (Hp : 0 < 2 ^ k) by (apply Z.pow_pos_nonneg; lia).
  apply is_Number_spec; [nia|].
  destruct (Z.lt_ge_cases (z * 2 ^ k) (2 ^ 53)) as [Hlt | Hge]; [now left|right].
  assert (Hz0 : 0 < z) by nia.
  rewrite Z.log2_mul_pow2 by lia.
  assert (Hlw : 53 <= k + Z.log2 z).
  { rewrite <- Z.log2_mul_pow2 by lia. apply Z.log2_le_pow2; lia. }
  apply is_Number_spec in Hn; [|assumption]. destruct Hn as [Hlt | Hmod].
  - assert (Z.log2 z < 53) by (apply Z.log2_lt_pow2; lia).
    replace (2 ^ k) with (2 ^ (k - (k + Z.log2 z - 52)) * 2 ^ (k + Z.log2 z - 52))
      by (rewrite <- Z.pow_add_r by lia; f_equal; lia).
    rewrite Z.mul_assoc. apply Z.mod_mul. apply Z.pow_nonzero; lia.
  - destruct (Z.lt_ge_cases (Z.log2 z) 52) as [Hsmall | Hbig].
    + replace (2 ^ k) with (2 ^ (k - (k + Z.log2 z - 52)) * 2 ^ (k + Z.log2 z - 52))
        by (rewrite <- Z.pow_add_r by lia; f_equal; lia).
      rewrite Z.mul_assoc. apply Z.mod_mul. apply Z.pow_nonzero; lia.
    + apply Z.mod_divide in Hmod; [|apply Z.pow_nonzero; lia].
      destruct Hmod as [m Hm].
      replace (2 ^ (k + Z.log2 z - 52)) with (2 ^ (Z.log2 z - 52) * 2 ^ k)
        by (rewrite <- Z.pow_add_r by lia; f_equal; lia).
      rewrite Hm at 1. rewrite <- Z.mul_assoc. apply Z.mod_mul.
      apply Z.neq_mul_0. split; apply Z.pow_nonzero; lia.
Qed.

Lemma beValue_nonneg l a : 0 <= a -> 0 <= beValue l a.
Proof. intros Ha. etransitivity; [exact Ha | now apply beValue_ge]. Qed.

Lemma exactPrefixes_small (bs : bytes) : beValue bs 0 <= 2 ^ 53 -> exactPrefixes bs.
Proof.
  intros Hb k _. apply is_Number_small. split; [now apply beValue_nonneg|].
  etransitivity; [apply beValue_take_le; lia | exact Hb].
Qed.

(** The accumulation is exact when every prefix denotes a number. *)
Lemma readBigEndian_exact (pre bs rest : bytes) :
  exactPrefixes bs ->
  readBigEndian (pre ++ bs ++ rest) (Z.of_nat (length pre)) (Z.of_nat (length bs))
  = Num (beValue bs 0).
Proof.
  intros Hb. unfold readBigEndian.
  assert (Hinv :
    (fun k x => x = Num (beValue (take k bs) 0))
      (length bs)
      (fold_left
         (fun acc i =>
            add (mul acc (Num 256))
              (ToNumber (get (pre ++ bs ++ rest) (Z.of_nat (length pre) + i))))
         (upto (Z.of_nat (length bs))) (Num 0))).
  { apply fold_upto_ind; [reflexivity|].
    intros k x Hk ->.
    destruct (lookup_lt_is_Some_2 bs k Hk) as [b Hbk].
    rewrite <- Nat2Z.inj_add, get_nat.
    rewrite lookup_app_r by lia.
    replace (length pre + k - length pre)%nat with k by lia.
    rewrite lookup_app_l, Hbk by lia. cbn [ToNumber add mul].
    pose proof (Hb k ltac:(lia)) as Hnk.
    pose proof (Hb (S k) ltac:(lia)) as Hns.
    rewrite (take_S_r bs k b Hbk), beValue_app in Hns |- *.
    cbn [beValue fold_left] in Hns |- *.
    fold (beValue (take k bs) 0) in Hns |- *.
    pose proof (beValue_nonneg (take k bs) 0 ltac:(lia)) as H0.
    pose proof (is_Number_mul_pow2 _ 8 H0 ltac:(lia) Hnk) as Hm.
    change (2 ^ 8) with 256 in Hm.
    apply Z.eqb_eq in Hm, Hns. unfold is_Number in *. now rewrite Hm, Hns. }
  cbn beta in Hinv. rewrite Hinv. now rewrite firstn_all.
Qed.

(** In particular as long as the value stays within 2^53. *)
Lemma readBigEndian_spec (pre bs rest : bytes) :
  beValue bs 0 <= 2 ^ 53 ->
  readBigEndian (pre ++ bs ++ rest) (Z.of_nat (length pre)) (Z.of_nat (length bs))
  = Num (beValue bs 0).
Proof. intros Hb. apply readBigEndian_exact. now apply exactPrefixes_small. Qed.

Lemma beValue_bigEndian n x a :
  0 <= x -> beValue (bigEndian n x) a = a * 256 ^ Z.of_nat n + x mod 256 ^ Z.of_nat n.
Proof.
  intros Hx. revert a. induction n as [|n IH]; intros a.
  - cbn. rewrite Z.mod_1_r. lia.
  - cbn [bigEndian beValue fold_left]. fold (beValue (bigEndian n x)).
    rewrite IH, byte.unsigned_of_Z. unfold byte.wrap.
    rewrite Z.shiftr_div_pow2 by lia.
    rewrite Nat2Z.inj_succ, Z.pow_succ_r by lia.
    replace (2 ^ (8 * Z.of_nat n)) with (256 ^ Z.of_nat n)
      by (change 256 with (2 ^ 8); rewrite <- Z.pow_mul_r by lia; reflexivity).
    change (2 ^ 8) with 256.
    assert (Hp : 0 < 256 ^ Z.of_nat n) by (apply Z.pow_pos_nonneg; lia).
    rewrite (Z.mul_comm 256 (256 ^ Z.of_nat n)).
    rewrite (Z.rem_mul_r x (256 ^ Z.of_nat n) 256) by lia.
    lia.
Qed.

Lemma beValue_bigEndian_small n x :
  0 <= x < 256 ^ Z.of_nat n -> beValue (bigEndian n x) 0 = x.
Proof.
  intros Hx. rewrite beValue_bigEndian by lia.
  rewrite Z.mod_small by lia. lia.
Qed.

Lemma pow256_pow2 n : 0 <= n -> 256 ^ n = 2 ^ (8 * n).
Proof. intros H. change 256 with (2 ^ 8). now rewrite <- Z.pow_mul_r by lia. Qed.

Lemma bigEndian_app a b x :
  bigEndian (a + b) x = bigEndian a (Z.shiftr x (8 * Z.of_nat b)) ++ bigEndian b x.
Proof.
  induction a as [|a IH]; [reflexivity|].
  cbn [Nat.add bigEndian app]. rewrite IH. f_equal. f_equal.
  rewrite Z.shiftr_shiftr by lia. f_equal. lia.
Qed.

(** The leading bytes of a number are the bytes of a number. *)
Lemma exactPrefixes_bigEndian n x :
  0 <= x < 256 ^ Z.of_nat n -> is_Number x = true -> exactPrefixes (bigEndian n x).
Proof.
  intros Hx Hn k Hk. rewrite length_bigEndian in Hk.
  replace n with (k + (n - k))%nat at 1 by lia.
  rewrite bigEndian_app.
  rewrite take_app_length' by (symmetry; apply length_bigEndian).
  rewrite Z.shiftr_div_pow2 by lia.
  assert (Hp : 0 < 2 ^ (8 * Z.of_nat (n - k))) by (apply Z.pow_pos_nonneg; lia).
  rewrite beValue_bigEndian_small.
  - apply is_Number_div_pow2; lia || assumption.
  - split; [apply Z.div_pos; lia|].
    apply Z.div_lt_upper_bound; [lia|].
    rewrite <- pow256_pow2, <- Z.pow_add_r by lia.
    replace (Z.of_nat (n - k) + Z.of_nat k) with (Z.of_nat n) by lia. lia.
Qed.

Lemma subarray_prefix (a b : bytes) :
  subarray (a ++ b) 0 (Z.of_nat (length a)) = a.
Proof.
  pose proof (subarray_mid [] a b) as H. cbn [length app] in H.
  exact H.
Qed.

Lemma parseSFrameHeader_basic_exact K LEN (ctr rest : bytes) :
  0 <= K <= 7 -> 0 <= LEN <= 7 ->
  Z.of_nat (length ctr) = LEN + 1 -> exactPrefixes ctr ->
  parseSFrameHeader (metadataByte LEN 0 K :: ctr ++ rest)
  = {| data := metadataByte LEN 0 K :: ctr;
       keyId := Num K;
       counter := Num (beValue ctr 0);
       rawCounter := ctr |}.
Proof.
  intros HK HL Hlen Hv. unfold parseSFrameHeader.
  rewrite get_0. cbn [ToInt32].
  destruct (metadata_decode LEN 0 K HL ltac:(lia) HK) as (H1 & H2 & H3).
  cbv zeta in H1, H2, H3. rewrite H1, H2, H3.
  change (negb (8 * 0 =? 0)) with false. cbv iota beta.
  unfold lengthAdjustment, slice. rewrite <- Hlen.
  pose proof (readBigEndian_exact [metadataByte LEN 0 K] ctr rest Hv) as Hr.
  change (readBigEndian (metadataByte LEN 0 K :: ctr ++ rest) 1 (Z.of_nat (length ctr))
          = Num (beValue ctr 0)) in Hr.
  rewrite Hr.
  pose proof (subarray_mid [metadataByte LEN 0 K] ctr rest) as Hs.
  change (subarray (metadataByte LEN 0 K :: ctr ++ rest) 1
            (Z.of_nat (S (length ctr))) = ctr) in Hs.
  replace (Z.of_nat (S (length ctr))) with (1 + Z.of_nat (length ctr)) in Hs by lia.
  rewrite Hs.
  pose proof (subarray_prefix (metadataByte LEN 0 K :: ctr) rest) as Hp.
  change (subarray (metadataByte LEN 0 K :: ctr ++ rest) 0
            (Z.of_nat (S (length ctr))) = metadataByte LEN 0 K :: ctr) in Hp.
  replace (Z.of_nat (S (length ctr))) with (Z.of_nat (length ctr) + 1) in Hp by lia.
  rewrite Hp. reflexivity.
Qed.

Lemma parseSFrameHeader_basic K LEN (ctr rest : bytes) :
  0 <= K <= 7 -> 0 <= LEN <= 7 ->
  Z.of_nat (length ctr) = LEN + 1 -> beValue ctr 0 <= 2 ^ 53 ->
  parseSFrameHeader (metadataByte LEN 0 K :: ctr ++ rest)
  = {| data := metadataByte LEN 0 K :: ctr;
       keyId := Num K;
       counter := Num (beValue ctr 0);
       rawCounter := ctr |}.
Proof.
  intros HK HL Hlen Hv.
  apply parseSFrameHeader_basic_exact; try assumption. now apply exactPrefixes_small.
Qed.

Lemma parseSFrameHeader_extended_exact KLEN LEN (kid ctr rest : bytes) :
  0 <= KLEN <= 7 -> 0 <= LEN <= 7 ->
  Z.of_nat (length kid) = KLEN + 1 -> Z.of_nat (length ctr) = LEN + 1 ->
  exactPrefixes kid -> exactPrefixes ctr ->
  parseSFrameHeader (metadataByte LEN 1 KLEN :: kid ++ ctr ++ rest)
  = {| data := metadataByte LEN 1 KLEN :: kid ++ ctr;
       keyId := Num (beValue kid 0);
       counter := Num (beValue ctr 0);
       rawCounter := ctr |}.
Proof.
  intros HK HL Hklen Hlen Hkv Hv. unfold parseSFrameHeader.
  rewrite get_0. cbn [ToInt32].
  destruct (metadata_decode LEN 1 KLEN HL ltac:(lia) HK) as (H1 & H2 & H3).
  cbv zeta in H1, H2, H3. rewrite H1, H2, H3.
  change (negb (8 * 1 =? 0)) with true. cbv iota beta.
  unfold lengthAdjustment, slice. rewrite <- Hlen, <- Hklen.
  set (m := metadataByte LEN 1 KLEN).
  pose proof (readBigEndian_exact [m] kid (ctr ++ rest) Hkv) as Hr.
  change (readBigEndian (m :: kid ++ ctr ++ rest) 1 (Z.of_nat (length kid))
          = Num (beValue kid 0)) in Hr.
  rewrite Hr. clear Hr.
  pose proof (readBigEndian_exact (m :: kid) ctr rest Hv) as Hr.
  change ((m :: kid) ++ ctr ++ rest) with (m :: kid ++ ctr ++ rest) in Hr.
  change (length (m :: kid)) with (S (length kid)) in Hr.
  replace (Z.of_nat (S (length kid))) with (1 + Z.of_nat (length kid)) in Hr by lia.
  rewrite Hr. clear Hr.
  pose proof (subarray_mid (m :: kid) ctr rest) as Hs.
  change ((m :: kid) ++ ctr ++ rest) with (m :: kid ++ ctr ++ rest) in Hs.
  change (length (m :: kid)) with (S (length kid)) in Hs.
  replace (Z.of_nat (S (length kid) + length ctr))
    with (1 + Z.of_nat (length kid) + Z.of_nat (length ctr)) in Hs by lia.
  replace (Z.of_nat (S (length kid))) with (1 + Z.of_nat (length kid)) in Hs by lia.
  rewrite Hs. clear Hs.
  pose proof (subarray_prefix (m :: kid ++ ctr) rest) as Hp.
  change ((m :: kid ++ ctr) ++ rest) with (m :: (kid ++ ctr) ++ rest) in Hp.
  rewrite <- app_assoc in Hp.
  change (length (m :: kid ++ ctr)) with (S (length (kid ++ ctr))) in Hp.
  rewrite length_app in Hp.
  replace (Z.of_nat (S (length kid + length ctr)))
    with (Z.of_nat (length kid) + Z.of_nat (length ctr) + 1) in Hp by lia.
  rewrite Hp. reflexivity.
Qed.

Lemma parseSFrameHeader_extended KLEN LEN (kid ctr rest : bytes) :
  0 <= KLEN <= 7 -> 0 <= LEN <= 7 ->
  Z.of_nat (length kid) = KLEN + 1 -> Z.of_nat (length ctr) = LEN + 1 ->
  beValue kid 0 <= 2 ^ 53 -> beValue ctr 0 <= 2 ^ 53 ->
  parseSFrameHeader (metadataByte LEN 1 KLEN :: kid ++ ctr ++ rest)
  = {| data := metadataByte LEN 1 KLEN :: kid ++ ctr;
       keyId := Num (beValue kid 0);
       counter := Num (beValue ctr 0);
       rawCounter := ctr |}.
Proof.
  intros HK HL Hklen Hlen Hkv Hv.
  apply parseSFrameHeader_extended_exact; try assumption; now apply exactPrefixes_small.
Qed.

(** ** The header round trip *)

Lemma floor_log256_bound i :
  0 < i -> 0 <= Z.log2 i / 8 /\ i < 256 ^ (Z.log2 i / 8 + 1).
Proof.
  intros Hi. pose proof (Z.log2_nonneg i) as H0.
  pose proof (Z.log2_spec i Hi) as [_ Hlt].
  pose proof (Z.div_mod (Z.log2 i) 8 ltac:(lia)) as Hdm.
  pose proof (Z.mod_pos_bound (Z.log2 i) 8 ltac:(lia)) as Hm.
  split; [apply Z.div_pos; lia|].
  rewrite pow256_pow2 by (apply Z.add_nonneg_nonneg; [apply Z.div_pos|]; lia).
  eapply Z.lt_le_trans; [exact Hlt|].
  apply Z.pow_le_mono_r; lia.
Qed.

Lemma binary64_math_sound : log_quotient_sound binary64_math.
Proof.
  intros i [Hi Hle]. cbn [log_quotient binary64_math].
  destruct (Z.eqb_spec i (2 ^ 48 - 1)) as [-> | _]; [split; [lia|reflexivity]|].
  destruct (Z.leb_spec (2 ^ 56 - 408) i); [lia|].
  destruct (Z.leb_spec (2 ^ 64 - 92160) i); [lia|]. cbn [andb].
  pose proof (floor_log256_bound i Hi) as [Hq0 Hlt].
  repeat split; try assumption.
  pose proof (Z.log2_le_mono i (2 ^ 53) Hle) as Hlog.
  change (Z.log2 (2 ^ 53)) with 53 in Hlog.
  apply Z.div_le_upper_bound; lia.
Qed.

Section HeaderRoundTrip.
Context {M : JSMath}.
Hypothesis Hsound : log_quotient_sound M.

Lemma calculateKLENorLEN_sound i :
  0 <= i <= 2 ^ 53 ->
  exists l, calculateKLENorLEN i = Num l /\ 0 <= l <= 7 /\ i < 256 ^ (l + 1).
Proof.
  intros Hi. unfold calculateKLENorLEN.
  destruct (Z.eqb_spec i 0) as [-> | Hne].
  - exists 0. repeat split; lia.
  - destruct (Z.ltb_spec i 0); [lia|].
    exists (log_quotient i). split; [reflexivity|]. apply Hsound. lia.
Qed.

(** Parsing the bytes of a generated header, whatever follows them in the
    buffer, gives back the header: its bytes, key id, counter and raw
    counter. *)
Lemma generate_parse kid ctr :
  0 <= kid <= SFRAME_HEADER_MAXKEYID -> 0 <= ctr <= 2 ^ 53 ->
  exists h,
    generateSFrameHeader kid ctr = Ok h
    /\ (forall rest, parseSFrameHeader (data h ++ rest) = h)
    /\ keyId h = Num kid
    /\ counter h = Num ctr
    /\ (1 <= length (rawCounter h) <= 8)%nat.
Proof.
  intros Hk Hc.
  destruct (calculateKLENorLEN_sound ctr Hc) as (lc & Hlc & Hlc7 & Hclt).
  assert (Hc64 : 0 <= ctr < 2 ^ 64) by lia.
  assert (Hcv : beValue (bigEndian (Z.to_nat (lc + 1)) ctr) 0 = ctr).
  { apply beValue_bigEndian_small. rewrite Z2Nat.id by lia. lia. }
  destruct (Z.le_gt_cases kid 7) as [Hbasic | Hext].
  - eexists. split; [apply (generateSFrameHeader_basic kid ctr lc); lia || assumption|].
    cbn [data keyId counter rawCounter].
    rewrite length_bigEndian. repeat split; try lia.
    intros rest. rewrite <- app_comm_cons.
    rewrite (parseSFrameHeader_basic kid lc); rewrite ?length_bigEndian, ?Hcv; try lia.
    reflexivity.
  - unfold SFRAME_HEADER_MAXKEYID in Hk.
    destruct (calculateKLENorLEN_sound kid ltac:(lia)) as (lk & Hlk & Hlk7 & Hklt).
    assert (Hkv : beValue (bigEndian (Z.to_nat (lk + 1)) kid) 0 = kid).
    { apply beValue_bigEndian_small. rewrite Z2Nat.id by lia. lia. }
    eexists. split.
    { apply (generateSFrameHeader_extended kid ctr lk lc);
        unfold SFRAME_HEADER_MAXKEYID; lia || assumption. }
    cbn [data keyId counter rawCounter].
    rewrite length_bigEndian. repeat split; try lia.
    intros rest. rewrite <- app_comm_cons, <- app_assoc.
    rewrite (parseSFrameHeader_extended lk lc);
      rewrite ?length_bigEndian, ?Hcv, ?Hkv; try lia.
    reflexivity.
Qed.

End HeaderRoundTrip.

(** *** The round trip for counters above 2^53

    The same for every counter that is a number below a bound [B] up to
    which the logarithm quotient is of use. *)
Section NumberRoundTrip.
Context {M : JSMath}.
Variable B : Z.
Hypothesis HB : 2 ^ 53 <= B <= 2 ^ 64.
Hypothesis Hbelow :
  forall i, 0 < i < B -> 0 <= log_quotient i <= 7 /\ i < 256 ^ (log_quotient i + 1).

Lemma calculateKLENorLEN_below i :
  0 <= i < B ->
  exists l, calculateKLENorLEN i = Num l /\ 0 <= l <= 7 /\ i < 256 ^ (l + 1).
Proof.
  intros Hi. unfold calculateKLENorLEN.
  destruct (Z.eqb_spec i 0) as [-> | Hne].
  - exists 0. repeat split; lia.
  - destruct (Z.ltb_spec i 0); [lia|].
    exists (log_quotient i). split; [reflexivity|]. apply Hbelow. lia.
Qed.

(** The round trip for every counter that is a number below [B]. *)
Lemma generate_parse_number kid ctr :
  0 <= kid <= SFRAME_HEADER_MAXKEYID -> 0 <= ctr < B -> is_Number ctr = true ->
  exists h,
    generateSFrameHeader kid ctr = Ok h
    /\ (forall rest, parseSFrameHeader (data h ++ rest) = h)
    /\ keyId h = Num kid
    /\ counter h = Num ctr.
Proof.
  intros Hk Hc Hnum.
  destruct (calculateKLENorLEN_below ctr Hc) as (lc & Hlc & Hlc7 & Hclt).
  assert (Hc64 : 0 <= ctr < 2 ^ 64) by lia.
  assert (Hcb : 0 <= ctr < 256 ^ Z.of_nat (Z.to_nat (lc + 1)))
    by (rewrite Z2Nat.id by lia; lia).
  pose proof (beValue_bigEndian_small _ _ Hcb) as Hcv.
  pose proof (exactPrefixes_bigEndian _ _ Hcb Hnum) as Hce.
  destruct (Z.le_gt_cases kid 7) as [Hbasic | Hext].
  - eexists. split; [apply (generateSFrameHeader_basic kid ctr lc); lia || assumption|].
    cbn [data keyId counter rawCounter]. repeat split.
    intros rest. rewrite <- app_comm_cons.
    rewrite (parseSFrameHeader_basic_exact kid lc);
      rewrite ?length_bigEndian, ?Hcv; try lia; try assumption.
    reflexivity.
  - unfold SFRAME_HEADER_MAXKEYID in Hk.
    destruct (calculateKLENorLEN_below kid ltac:(lia)) as (lk & Hlk & Hlk7 & Hklt).
    assert (Hkb : 0 <= kid < 256 ^ Z.of_nat (Z.to_nat (lk + 1)))
      by (rewrite Z2Nat.id by lia; lia).
    pose proof (beValue_bigEndian_small _ _ Hkb) as Hkv.
    pose proof (exactPrefixes_bigEndian _ _ Hkb (is_Number_small kid ltac:(lia))) as Hke.
    eexists. split.
    { apply (generateSFrameHeader_extended kid ctr lk lc);
        unfold SFRAME_HEADER_MAXKEYID; lia || assumption. }
    cbn [data keyId counter rawCounter]. repeat split.
    intros rest. rewrite <- app_comm_cons, <- app_assoc.
    rewrite (parseSFrameHeader_extended_exact lk lc);
      rewrite ?length_bigEndian, ?Hcv, ?Hkv; try lia; try assumption.
    reflexivity.
Qed.

End NumberRoundTrip.

Lemma binary64_math_below i :
  0 < i < 2 ^ 64 - 92160 ->
  0 <= @log_quotient binary64_math i <= 7
  /\ i < 256 ^ (@log_quotient binary64_math i + 1).
Proof.
  intros Hi. cbn [log_quotient binary64_math].
  destruct (Z.eqb_spec i (2 ^ 48 - 1)) as [-> | _]; [split; [lia|reflexivity]|].
  destruct (Z.leb_spec (2 ^ 56 - 408) i) as [H56|H56];
    [destruct (Z.ltb_spec i (2 ^ 56)) as [H56'|H56']|]; cbn [andb].
  - split; [lia|]. change (256 ^ (7 + 1)) with (2 ^ 64). lia.
  - destruct (Z.leb_spec (2 ^ 64 - 92160) i); [lia|]. cbn [andb].
    pose proof (floor_log256_bound i ltac:(lia)) as [Hq0 Hlt].
    repeat split; try assumption.
    assert (Z.log2 i < 64) by (apply Z.log2_lt_pow2; lia).
    assert (Z.log2 i / 8 < 8) by (apply Z.div_lt_upper_bound; lia). lia.
  - destruct (Z.leb_spec (2 ^ 64 - 92160) i); [lia|]. cbn [andb].
    pose proof (floor_log256_bound i ltac:(lia)) as [Hq0 Hlt].
    repeat split; try assumption.
    assert (Z.log2 i < 64) by (apply Z.log2_lt_pow2; lia).
    assert (Z.log2 i / 8 < 8) by (apply Z.div_lt_upper_bound; lia). lia.
Qed.

Lemma exact_logarithm_below {M : JSMath} :
  (forall i, 0 < i -> log_quotient i = Z.log2 i / 8) ->
  forall i, 0 < i < 2 ^ 64 ->
    0 <= log_quotient i <= 7 /\ i < 256 ^ (log_quotient i + 1).
Proof.
  intros Hexact i Hi. rewrite Hexact by lia.
  pose proof (floor_log256_bound i ltac:(lia)) as [Hq0 Hlt].
  repeat split; try assumption.
  assert (Z.log2 i < 64) by (apply Z.log2_lt_pow2; lia).
  assert (Z.log2 i / 8 < 8) by (apply Z.div_lt_upper_bound; lia). lia.
Qed.

(** ** IV.ts *)

Lemma length_xorBytes a b : length (xorBytes a b) = Nat.min (length a) (length b).
Proof.
  revert b. induction a as [|x a IH]; intros [|y b]; cbn; try reflexivity.
  now rewrite IH.
Qed.

Lemma lookup_xorBytes a b k x y :
  a !! k = Some x -> b !! k = Some y -> xorBytes a b !! k = Some (byte.xor x y).
Proof.
  revert b k. induction a as [|x' a IH]; intros [|y' b] [|k]; cbn; try discriminate.
  - intros [= ->] [= ->]. reflexivity.
  - apply IH.
Qed.

Lemma setUint8_nat (view : bytes) (i : nat) v :
  (i < length view)%nat ->
  setUint8 view (Z.of_nat i) v = Some (<[i := byte.of_Z v]> view).
Proof.
  intros H. unfold setUint8.
  destruct (Z.ltb_spec (Z.of_nat i) 0); [lia|].
  destruct (Z.leb_spec (Z.of_nat (length view)) (Z.of_nat i)); [lia|].
  cbn. now rewrite put_nat.
Qed.

Lemma lookup_alloc n i : (i < n)%nat -> alloc n !! i = Some Byte.x00.
Proof.
  revert i. induction n as [|n IH]; intros [|i] Hi; try lia; [reflexivity|].
  cbn. apply IH. lia.
Qed.

Lemma take_alloc_app n (l : bytes) : take n (alloc n ++ l) = alloc n.
Proof. rewrite <- (length_alloc n) at 1. apply take_app_length. Qed.

Lemma drop_alloc_app n (l : bytes) : drop n (alloc n ++ l) = l.
Proof. rewrite <- (length_alloc n) at 1. apply drop_app_length. Qed.

(** The IV is the counter, right aligned in as many zero bytes as the salt
    has, xored with the salt. *)
Lemma generateIV_spec (ctr salt : bytes) :
  (length ctr <= length salt)%nat ->
  generateIV ctr salt
  = Ok (xorBytes (alloc (length salt - length ctr) ++ ctr) salt).
Proof.
  intros Hlen. unfold generateIV.
  set (off := (length salt - length ctr)%nat).
  set (t := alloc off ++ ctr).
  assert (Ht : length t = length salt)
    by (subst t off; rewrite length_app, length_alloc; lia).
  (* the loop that copies the counter *)
  assert (Haligned :
    fold_left
      (fun view i =>
         match view with
         | Some iv =>
             setUint8 iv (Z.of_nat (length salt) - Z.of_nat (length ctr) + i)
               (ToInt32 (get ctr i))
         | None => None
         end)
      (upto (Z.of_nat (length ctr))) (Some (alloc (length salt)))
    = Some t).
  { assert (Hinv :
      (fun k x => x = Some (take (off + k) t ++ drop (off + k) (alloc (length salt))))
        (length ctr)
        (fold_left
           (fun view i =>
              match view with
              | Some iv =>
                  setUint8 iv (Z.of_nat (length salt) - Z.of_nat (length ctr) + i)
                    (ToInt32 (get ctr i))
              | None => None
              end)
           (upto (Z.of_nat (length ctr))) (Some (alloc (length salt))))).
    { apply fold_upto_ind.
      - rewrite Nat.add_0_r. subst t. rewrite take_alloc_app.
        replace (length salt) with (off + length ctr)%nat by (subst off; lia).
        now rewrite alloc_app, drop_alloc_app.
      - intros k x Hk ->.
        destruct (lookup_lt_is_Some_2 ctr k Hk) as [b Hb].
        replace (Z.of_nat (length salt) - Z.of_nat (length ctr) + Z.of_nat k)
          with (Z.of_nat (off + k)) by (subst off; lia).
        rewrite setUint8_nat
          by (rewrite length_app, length_take, length_drop, length_alloc; lia).
        rewrite (ToInt32_lookup ctr k b Hb).
        replace (off + S k)%nat with (S (off + k)) by lia.
        f_equal. apply insert_take_drop.
        + subst t. rewrite lookup_app_r by (rewrite length_alloc; lia).
          rewrite length_alloc.
          replace (off + k - off)%nat with k by lia. exact Hb.
        + rewrite length_alloc. subst off. lia. }
    cbn beta in Hinv. rewrite Hinv.
    replace (off + length ctr)%nat with (length t)
      by (subst t; rewrite length_app, length_alloc; lia).
    rewrite firstn_all. rewrite Ht, <- (length_alloc (length salt)) at 1.
    now rewrite drop_all, app_nil_r. }
  rewrite Haligned.
  (* the loop that xors the salt *)
  assert (Hxored :
    fold_left
      (fun view i =>
         match view with
         | Some iv => setUint8 iv i (Z.lxor (ToInt32 (get iv i)) (ToInt32 (get salt i)))
         | None => None
         end)
      (upto (Z.of_nat (length salt))) (Some t)
    = Some (xorBytes t salt)).
  { assert (Hinv :
      (fun k x => x = Some (take k (xorBytes t salt) ++ drop k t))
        (length salt)
        (fold_left
           (fun view i =>
              match view with
              | Some iv =>
                  setUint8 iv i (Z.lxor (ToInt32 (get iv i)) (ToInt32 (get salt i)))
              | None => None
              end)
           (upto (Z.of_nat (length salt))) (Some t))).
    { apply fold_upto_ind; [reflexivity|].
      intros k x Hk ->.
      destruct (lookup_lt_is_Some_2 salt k Hk) as [s Hs].
      destruct (lookup_lt_is_Some_2 t k ltac:(lia)) as [a Ha].
      rewrite setUint8_nat
        by (rewrite length_app, length_take, length_drop, length_xorBytes; lia).
      rewrite !get_nat, Hs.
      rewrite lookup_app_r by (rewrite length_take, length_xorBytes; lia).
      rewrite length_take, length_xorBytes.
      replace (k - Nat.min k (Nat.min (length t) (length salt)))%nat with 0%nat by lia.
      rewrite lookup_drop, Nat.add_0_r, Ha. cbn [ToInt32].
      f_equal. apply insert_take_drop; [|lia].
      now apply lookup_xorBytes. }
    cbn beta in Hinv. rewrite Hinv.
    rewrite <- Ht at 2. rewrite drop_all, app_nil_r.
    rewrite firstn_all2 by (rewrite length_xorBytes; lia). reflexivity. }
  rewrite Hxored. reflexivity.
Qed.

(** ** SFrameCrypto.ts *)

Lemma set_mid (a old c src : bytes) :
  length old = length src ->
  set (a ++ old ++ c) src (Z.of_nat (length a)) = Some (a ++ src ++ c).
Proof.
  intros H. rewrite set_nat by (rewrite !length_app; lia).
  rewrite take_app_length. do 3 f_equal.
  rewrite <- H, app_assoc, <- length_app. apply drop_app_length.
Qed.

Lemma strict_eq_refl o : strict_eq o o = true.
Proof. destruct o as [b|]; [|reflexivity]. cbn. now apply Byte.byte_dec_lb. Qed.

Lemma cipherSuite_nT variant cfg :
  getCipherSuiteConfig variant = Some cfg -> 0 <= nT cfg <= 32 /\ nN cfg = 12.
Proof. destruct variant; intros [= <-]; cbn; lia. Qed.

Section FrameFacts.
Context {W : WebCrypto}.

(** The frame that [SFrameCrypto.encrypt] assembles: [skip] zero bytes,
    the header, the output of the cipher on the whole payload and the
    first [nT] bytes of the HMAC of header and cipher output. *)
Lemma SFrameCrypto_encrypt_spec (cs : SFrameCrypto.t) (header : SFrameHeader)
    (payload : bytes) (skip : nat) (iv encrypted authCode : bytes) :
  generateIV (rawCounter header) (saltKey cs) = Ok iv ->
  subtle_encrypt (algorithm (config cs)) iv (nK (config cs) * 8) (data header)
    (encryptionKey cs) payload = Some encrypted ->
  hmac_sign (authKey cs) (data header ++ encrypted) = Some authCode ->
  0 <= nT (config cs) <= Z.of_nat (length authCode) ->
  SFrameCrypto.encrypt cs header payload (Z.of_nat skip)
  = Ok (alloc skip ++ data header ++ encrypted
          ++ take (Z.to_nat (nT (config cs))) authCode,
        take (Z.to_nat (nT (config cs))) authCode).
Proof.
  intros Hiv Henc Hmac HnT. unfold SFrameCrypto.encrypt.
  rewrite Hiv. cbn [bind]. rewrite Henc. cbn [await bind].
  set (n := Z.to_nat (nT (config cs))).
  assert (Hn : nT (config cs) = Z.of_nat n) by (subst n; lia).
  unfold Uint8Array.
  destruct (Z.ltb_spec (Z.of_nat (length (data header)) + Z.of_nat (length encrypted)
                        + nT (config cs) + Z.of_nat skip) 0); [lia|].
  cbn [bind].
  replace (Z.to_nat (Z.of_nat (length (data header)) + Z.of_nat (length encrypted)
                     + nT (config cs) + Z.of_nat skip))
    with (skip + (length (data header) + (length encrypted + n)))%nat by lia.
  rewrite !alloc_app.
  (* the header *)
  rewrite <- (length_alloc skip) at 2.
  rewrite set_mid by now rewrite length_alloc.
  (* the cipher output *)
  replace (Z.of_nat skip + Z.of_nat (length (data header)))
    with (Z.of_nat (length (alloc skip ++ data header)))
    by (rewrite length_app, length_alloc; lia).
  rewrite (app_assoc (alloc skip) (data header)).
  rewrite set_mid by now rewrite length_alloc.
  (* the HMAC over header and cipher output *)
  rewrite <- (app_assoc (alloc skip) (data header)).
  rewrite length_app, length_alloc.
  replace (Z.of_nat (skip + length (data header)) + Z.of_nat (length encrypted))
    with (Z.of_nat (length (alloc skip) + length (data header ++ encrypted)))
    by (rewrite length_app, length_alloc; lia).
  rewrite (app_assoc (data header) encrypted).
  rewrite <- (length_alloc skip) at 2.
  rewrite subarray_mid, Hmac. cbn [await bind].
  (* the tag *)
  change 0 with (Z.of_nat 0). rewrite Hn.
  rewrite subarray_nat by lia. rewrite Nat.sub_0_r, drop_0.
  replace (Z.of_nat skip + Z.of_nat (length encrypted) + Z.of_nat (length (data header)))
    with (Z.of_nat (length (alloc skip ++ data header ++ encrypted)))
    by (rewrite !length_app, length_alloc; lia).
  pose proof (set_mid (alloc skip ++ data header ++ encrypted) (alloc n) []
                (take n authCode)) as Hset.
  rewrite !app_nil_r in Hset.
  rewrite <- !app_assoc in Hset. rewrite <- !app_assoc.
  rewrite Hset by (rewrite length_alloc, length_take; lia).
  reflexivity.
Qed.

(** [SFrameCrypto.decrypt] on a frame of that shape, whatever its first
    [skip] bytes are. *)
Lemma SFrameCrypto_decrypt_spec (cs : SFrameCrypto.t) (header : SFrameHeader)
    (pfx encrypted authCode iv payload : bytes) :
  generateIV (rawCounter header) (saltKey cs) = Ok iv ->
  hmac_sign (authKey cs) (data header ++ encrypted) = Some authCode ->
  0 <= nT (config cs) <= Z.of_nat (length authCode) ->
  subtle_decrypt (algorithm (config cs)) iv (nK (config cs) * 8) (data header)
    (encryptionKey cs) encrypted = Some payload ->
  SFrameCrypto.decrypt cs header
    (pfx ++ data header ++ encrypted ++ take (Z.to_nat (nT (config cs))) authCode)
    (Z.of_nat (length pfx))
  = Ok (payload, take (Z.to_nat (nT (config cs))) authCode).
Proof.
  intros Hiv Hmac HnT Hdec. unfold SFrameCrypto.decrypt.
  rewrite Hiv. cbn [bind].
  set (n := Z.to_nat (nT (config cs))).
  assert (Hn : nT (config cs) = Z.of_nat n) by (subst n; lia).
  set (tag := take n authCode).
  assert (Htaglen : length tag = n) by (subst tag; rewrite length_take; lia).
  set (hdr := data header).
  set (frame := pfx ++ hdr ++ encrypted ++ tag).
  assert (Hlen : length frame
                 = (length pfx + (length hdr + (length encrypted + n)))%nat)
    by (subst frame; rewrite !length_app; lia).
  assert (Htag :
    subarray frame
      (Z.of_nat (length pfx) + (Z.of_nat (length frame) - Z.of_nat (length pfx))
       - nT (config cs))
      (Z.of_nat (length pfx) + (Z.of_nat (length frame) - Z.of_nat (length pfx)))
    = tag).
  { replace (Z.of_nat (length pfx) + (Z.of_nat (length frame) - Z.of_nat (length pfx))
             - nT (config cs))
      with (Z.of_nat (length (pfx ++ hdr ++ encrypted)))
      by (rewrite !length_app; lia).
    replace (Z.of_nat (length pfx) + (Z.of_nat (length frame) - Z.of_nat (length pfx)))
      with (Z.of_nat (length (pfx ++ hdr ++ encrypted) + length tag))
      by (rewrite !length_app; lia).
    pose proof (subarray_mid (pfx ++ hdr ++ encrypted) tag []) as Hs.
    rewrite app_nil_r, <- !app_assoc in Hs. exact Hs. }
  assert (Hpayload :
    subarray frame (Z.of_nat (length pfx) + Z.of_nat (length hdr))
      (Z.of_nat (length pfx) + (Z.of_nat (length frame) - Z.of_nat (length pfx))
       - nT (config cs))
    = encrypted).
  { replace (Z.of_nat (length pfx) + Z.of_nat (length hdr))
      with (Z.of_nat (length (pfx ++ hdr))) by (rewrite !length_app; lia).
    replace (Z.of_nat (length pfx) + (Z.of_nat (length frame) - Z.of_nat (length pfx))
             - nT (config cs))
      with (Z.of_nat (length (pfx ++ hdr) + length encrypted))
      by (rewrite !length_app; lia).
    pose proof (subarray_mid (pfx ++ hdr) encrypted tag) as Hs.
    rewrite <- !app_assoc in Hs. exact Hs. }
  rewrite Htag, Hpayload.
  assert (Hsigned :
    subarray frame (Z.of_nat (length pfx))
      (Z.of_nat (length pfx) + Z.of_nat (length hdr) + Z.of_nat (length encrypted))
    = hdr ++ encrypted).
  { replace (Z.of_nat (length pfx) + Z.of_nat (length hdr) + Z.of_nat (length encrypted))
      with (Z.of_nat (length pfx + length (hdr ++ encrypted)))
      by (rewrite !length_app; lia).
    pose proof (subarray_mid pfx (hdr ++ encrypted) tag) as Hs.
    rewrite <- !app_assoc in Hs. exact Hs. }
  rewrite Hsigned. subst hdr. rewrite Hmac. cbn [await bind].
  (* the comparison of the tag *)
  assert (Hauth :
    fold_left
      (fun authenticated i => authenticated && strict_eq (get tag i) (get authCode i))
      (upto (nT (config cs))) true = true).
  { rewrite Hn.
    apply (fold_upto_ind (fun _ x => x = true)); [reflexivity|].
    intros k x Hk ->. rewrite !get_nat. subst tag.
    rewrite lookup_take_lt by lia. now rewrite strict_eq_refl. }
  rewrite Hauth. cbn [negb]. rewrite Hdec. reflexivity.
Qed.

End FrameFacts.

(** ** Sender.ts, Receiver.ts and Context.ts: one frame from end to end *)

Lemma subarray_take (a : bytes) (n : nat) : subarray a 0 (Z.of_nat n) = take n a.
Proof.
  destruct (Nat.le_gt_cases n (length a)).
  - change 0 with (Z.of_nat 0). rewrite subarray_nat by lia.
    now rewrite Nat.sub_0_r.
  - unfold subarray, rel_index. cbn [Z.ltb Z.compare].
    destruct (Z.ltb_spec (Z.of_nat n) 0); [lia|].
    rewrite (Z.min_l 0), (Z.min_r (Z.of_nat n)), Z.sub_0_r by lia.
    cbn [Z.to_nat drop]. rewrite Nat2Z.id.
    now rewrite firstn_all, firstn_all2 by lia.
Qed.

Lemma subarray_from_drop (a : bytes) (n : nat) :
  (n <= length a)%nat -> Context.subarray_from a (Z.of_nat n) = drop n a.
Proof.
  intros H. unfold Context.subarray_from.
  rewrite subarray_nat by lia. apply firstn_all2. rewrite length_drop. lia.
Qed.

Lemma set_prefix (target src : bytes) :
  (length src <= length target)%nat ->
  set target src 0 = Some (src ++ drop (length src) target).
Proof.
  intros H. change 0 with (Z.of_nat 0). rewrite set_nat by lia. reflexivity.
Qed.

Lemma drop_alloc k n : drop k (alloc n) = alloc (n - k).
Proof.
  revert k. induction n as [|n IH]; intros [|k]; try reflexivity.
  cbn. apply IH.
Qed.

Section CipherSuiteFacts.
Context {W : WebCrypto}.
Hypothesis Hhkdf : hkdf_length W.

Lemma createCipherSuite_ok variant raw (K : CipherSuite) :
  createCipherSuite variant raw = Ok K ->
  getCipherSuiteConfig variant = Some (config K) /\ length (saltKey K) = 12%nat.
Proof.
  unfold createCipherSuite.
  destruct (getCipherSuiteConfig variant) as [cfg|] eqn:Hcfg; [|discriminate].
  destruct (hkdf (hashAlgorithm cfg) _ (TextEncoder_encode "key") raw _) as [ek|];
    [|discriminate].
  destruct (hkdf (hashAlgorithm cfg) _ (TextEncoder_encode "salt") raw _) as [sk|] eqn:Hsk;
    [|discriminate].
  destruct (hkdf "SHA-256" _ (TextEncoder_encode "auth") raw _) as [ak|];
    [|discriminate].
  cbn [await bind]. intros [= <-]. cbn [config saltKey]. split; [reflexivity|].
  apply Hhkdf in Hsk.
  destruct (cipherSuite_nT variant cfg Hcfg) as [_ HnN]. rewrite HnN in Hsk.
  change (12 * 8 / 8) with 12 in Hsk. lia.
Qed.

End CipherSuiteFacts.

Section EndToEnd.
Context {M : JSMath} {W : WebCrypto}.
Hypothesis Hsound : log_quotient_sound M.
Hypothesis Hmac : hmac_sha256 W.
Hypothesis Hhkdf : hkdf_length W.

(** The anatomy of an encrypted frame: what [Sender.encrypt] returns when
    the cipher accepts the payload, and the sender it leaves behind. *)
Lemma Sender_encrypt_spec variant raw (K : SFrameCrypto.t) id c (P : bytes) (skip : nat) :
  createCipherSuite variant raw = Ok K ->
  subtle_inverts W (algorithm (config K)) ->
  0 <= id <= SFRAME_HEADER_MAXKEYID -> 0 <= c <= 2 ^ 53 ->
  exists h iv encrypted authCode,
    generateSFrameHeader id c = Ok h
    /\ (forall rest, parseSFrameHeader (data h ++ rest) = h)
    /\ keyId h = Num id /\ counter h = Num c
    /\ generateIV (rawCounter h) (saltKey K) = Ok iv
    /\ subtle_encrypt (algorithm (config K)) iv (nK (config K) * 8) (data h)
         (encryptionKey K) P = Some encrypted
    /\ subtle_decrypt (algorithm (config K)) iv (nK (config K) * 8) (data h)
         (encryptionKey K) encrypted = Some P
    /\ hmac_sign (authKey K) (data h ++ encrypted) = Some authCode
    /\ 0 <= nT (config K) <= Z.of_nat (length authCode)
    /\ Sender.encrypt (Sender.mk id c (Some K)) P (Z.of_nat skip)
       = (Ok (wireFrame P skip (data h) encrypted
                (take (Z.to_nat (nT (config K))) authCode)),
          Sender.mk id (round_double (c + 1)) (Some K)).
Proof.
  intros HK Hinv Hid Hc.
  destruct (generate_parse Hsound id c Hid Hc) as (h & Hgen & Hparse & Hkid & Hctr & Hraw).
  destruct (createCipherSuite_ok Hhkdf variant raw K HK) as [Hcfg Hsalt].
  destruct (cipherSuite_nT variant (config K) Hcfg) as [HnT _].
  pose proof (generateIV_spec (rawCounter h) (saltKey K) ltac:(lia)) as Hiv.
  destruct (Hinv (xorBytes (alloc (length (saltKey K) - length (rawCounter h))
                            ++ rawCounter h) (saltKey K))
              (nK (config K) * 8) (data h) (encryptionKey K) P)
    as (encrypted & Henc & Hdec).
  destruct (Hmac (authKey K) (data h ++ encrypted)) as (authCode & Hsign & Hlen).
  eexists h, _, encrypted, authCode.
  repeat (split; [first [eassumption | lia]|]).
  unfold Sender.encrypt. cbn [Sender.key Sender.counter Sender.senderId].
  rewrite Hgen. cbn [bind].
  rewrite (SFrameCrypto_encrypt_spec K h P skip _ encrypted authCode Hiv Henc Hsign)
    by lia.
  cbn [bind fst]. unfold wireFrame. f_equal.
  destruct (Z.eqb_spec (Z.of_nat skip) 0) as [H0 | Hne].
  - assert (skip = 0%nat) as -> by lia. reflexivity.
  - rewrite subarray_take.
    rewrite set_prefix by (rewrite length_take, !length_app, length_alloc; lia).
    rewrite drop_app_le by (rewrite length_take, length_alloc; lia).
    rewrite drop_alloc, length_take.
    replace (skip - Nat.min skip (length P))%nat with (skip - length P)%nat by lia.
    reflexivity.
Qed.

(** A key that rejects the frame leaves the turn to the next one. *)
Lemma tryKeys_app (older rest : list SFrameCrypto.t) h (frame : bytes) skip :
  Forall (fun k => exists e, SFrameCrypto.decrypt k h frame skip = Throw e) older ->
  Receiver.tryKeys (older ++ rest) h frame skip = Receiver.tryKeys rest h frame skip.
Proof.
  induction 1 as [|k older [e He] _ IH]; [reflexivity|].
  cbn [app Receiver.tryKeys]. now rewrite He.
Qed.

(** What [Context.decrypt] does with a frame of a sender whose key the
    receiver registered under the sender's id holds: outside of the replay
    window it throws and leaves the receiver as it is, inside it returns
    the payload and records the counter. *)
Lemma Context_decrypt_spec (K : SFrameCrypto.t) (h : SFrameHeader) id c m
    (P iv encrypted authCode : bytes) (skip : nat)
    (sender : option Sender.t) (receivers : gmap Number Receiver.t)
    (older newer : list SFrameCrypto.t) :
  (forall rest, parseSFrameHeader (data h ++ rest) = h) ->
  keyId h = Num id -> counter h = Num c ->
  generateIV (rawCounter h) (saltKey K) = Ok iv ->
  subtle_decrypt (algorithm (config K)) iv (nK (config K) * 8) (data h)
    (encryptionKey K) encrypted = Some P ->
  hmac_sign (authKey K) (data h ++ encrypted) = Some authCode ->
  0 <= nT (config K) <= Z.of_nat (length authCode) ->
  (skip <= length P)%nat ->
  0 <= c <= 2 ^ 53 -> -1 <= m <= 2 ^ 53 ->
  receivers !! Num id = Some (Receiver.mk (Num m) (older ++ K :: newer)) ->
  let frame :=
    wireFrame P skip (data h) encrypted (take (Z.to_nat (nT (config K))) authCode) in
  Forall (fun k => exists e, SFrameCrypto.decrypt k h frame (Z.of_nat skip) = Throw e)
    older ->
  Context.decrypt (Context.mk sender receivers) frame (Z.of_nat skip)
  = if (c <? m) && (Receiver.ReplayWindow <? m - c)
    then (Throw (SFrameError ReplayAttackError), Context.mk sender receivers)
    else (Ok P,
          Context.mk sender
            (<[Num id := Receiver.mk (Num (Z.max c m)) (older ++ K :: newer)]> receivers)).
Proof.
  intros Hparse Hkid Hctr Hiv Hdec Hsign HnT Hskip Hc Hm Hlookup frame Holder.
  set (tag := take (Z.to_nat (nT (config K))) authCode) in *.
  set (pfx := take skip P ++ alloc (skip - length P)).
  assert (Hpfx : length pfx = skip)
    by (subst pfx; rewrite length_app, length_take, length_alloc; lia).
  assert (Hpfx_eq : pfx = take skip P).
  { subst pfx. replace (skip - length P)%nat with 0%nat by lia. apply app_nil_r. }
  assert (Hframe : frame = pfx ++ data h ++ encrypted ++ tag)
    by (subst frame pfx; unfold wireFrame; now rewrite <- app_assoc).
  clearbody frame pfx. subst frame skip.
  unfold Context.decrypt. cbn [Context.receivers Context.sender].
  rewrite subarray_from_drop by (rewrite length_app; lia).
  rewrite drop_app_length.
  rewrite Hparse, Hkid, Hlookup.
  unfold Receiver.decrypt, Receiver.checkForReplayAttack.
  cbn [Receiver.maxReceivedCounter Receiver.keyring].
  rewrite Hctr. cbn [lt gt sub].
  assert (Hgood :
    (let '(r, receiver) :=
       match Receiver.tryKeys (older ++ K :: newer) h
               (pfx ++ data h ++ encrypted ++ tag) (Z.of_nat (length pfx)) with
       | Some (decryptedFrame, _) =>
           match
             (if Z.of_nat (length pfx) =? 0 then Some decryptedFrame
              else set decryptedFrame
                     (subarray (pfx ++ data h ++ encrypted ++ tag) 0
                        (Z.of_nat (length pfx))) 0)
           with
           | Some decryptedFrame =>
               (Ok decryptedFrame,
                Receiver.mk (max (Num c) (Num m)) (older ++ K :: newer))
           | None => (Throw RangeError, Receiver.mk (Num m) (older ++ K :: newer))
           end
       | None =>
           (Throw (SFrameError DecryptionFailure),
            Receiver.mk (Num m) (older ++ K :: newer))
       end in
     (r, Context.mk sender (<[Num id := receiver]> receivers)))
    = (Ok P,
       Context.mk sender
         (<[Num id := Receiver.mk (Num (Z.max c m)) (older ++ K :: newer)]> receivers))).
  { rewrite tryKeys_app by exact Holder. cbn [Receiver.tryKeys].
    pose proof (SFrameCrypto_decrypt_spec K h pfx encrypted authCode iv P
                  Hiv Hsign HnT Hdec) as Hd.
    fold tag in Hd. rewrite Hd. clear Hd.
    assert (Hset :
      (if Z.of_nat (length pfx) =? 0 then Some P
       else set P (subarray (pfx ++ data h ++ encrypted ++ tag) 0
                     (Z.of_nat (length pfx))) 0) = Some P).
    { destruct (Z.eqb_spec (Z.of_nat (length pfx)) 0); [reflexivity|].
      rewrite subarray_take, take_app_length.
      rewrite set_prefix by lia.
      rewrite Hpfx_eq at 1. now rewrite take_drop. }
    rewrite Hset. reflexivity. }
  destruct (Z.ltb_spec c m) as [Hlt | Hge]; cbn [andb].
  - rewrite round_double_exact by lia.
    destruct (Z.ltb_spec Receiver.ReplayWindow (m - c)) as [Hout | Hin].
    + f_equal. f_equal. now apply insert_id.
    + exact Hgood.
  - exact Hgood.
Qed.

End EndToEnd.

(** ** The small provider meets the expectations *)

Lemma bytes_eqb_refl (a : bytes) : Toy.bytes_eqb a a = true.
Proof.
  induction a as [|x a IH]; [reflexivity|].
  cbn. rewrite IH. now rewrite (Byte.byte_dec_lb eq_refl).
Qed.

Lemma Toy_hmac_sha256 : hmac_sha256 Toy.provider.
Proof. intros key message. eexists. split; [reflexivity|]. apply repeat_length. Qed.

Lemma Toy_hkdf_length : hkdf_length Toy.provider.
Proof.
  intros hash salt info ikm bits derived. cbn [hkdf Toy.provider]. unfold Toy.hkdf.
  destruct (Z.ltb_spec bits 0); [discriminate|].
  intros [= <-]. rewrite repeat_length.
  pose proof (Z.div_pos bits 8 ltac:(lia) ltac:(lia)). lia.
Qed.

Lemma Toy_subtle_inverts : subtle_inverts Toy.provider "AES-GCM".
Proof.
  intros iv len ad key payload.
  cbn [subtle_encrypt subtle_decrypt Toy.provider]. unfold Toy.encrypt, Toy.decrypt.
  change (String.eqb "AES-GCM" "AES-GCM") with true. cbv iota.
  eexists. split; [reflexivity|].
  assert (Hlen : length (Toy.tag iv ad key) = 16%nat) by apply repeat_length.
  rewrite length_app, Hlen.
  replace (length payload + 16 - 16)%nat with (length payload) by lia.
  rewrite drop_app_length, take_app_length, bytes_eqb_refl.
  destruct (Nat.leb_spec 16 (length payload + 16)); [reflexivity|lia].
Qed.

(* ===================================================================== *)
(** * The claims *)
(* ===================================================================== *)

(** Round trip, for the suites whose cipher the provider runs.  With a
    sound logarithm and a WebCrypto provider whose cipher, called the way
    the library calls it, inverts its output (so for the two AES-GCM
    suites), for every key material, payload [P] and [skip <= |P|]: a
    sender that has the derived key installed encrypts [P] into a frame,
    and a context whose receiver for the sender's id holds that key first
    in its keyring, and has not yet seen a counter more than the replay
    window ahead, decrypts that frame with the same skip into exactly
    [P]. *)
Lemma decrypt_encrypt_roundtrip {M : JSMath} {W : WebCrypto} :
  log_quotient_sound M -> hmac_sha256 W -> hkdf_length W ->
  forall variant raw (K : SFrameCrypto.t) id c m (P : bytes) (skip : nat)
         (newer : list SFrameCrypto.t) sender receivers,
    SFrameCrypto.createSFrameCrypto raw variant = Ok K ->
    subtle_inverts W (algorithm (config K)) ->
    0 <= id <= SFRAME_HEADER_MAXKEYID ->
    0 <= c <= 2 ^ 53 ->
    -1 <= m <= 2 ^ 53 -> m <= c + Receiver.ReplayWindow ->
    (skip <= length P)%nat ->
    receivers !! Num id = Some (Receiver.mk (Num m) (K :: newer)) ->
    exists frame,
      Sender.encrypt (Sender.mk id c (Some K)) P (Z.of_nat skip)
      = (Ok frame, Sender.mk id (round_double (c + 1)) (Some K))
      /\ fst (Context.decrypt (Context.mk sender receivers) frame (Z.of_nat skip))
         = Ok P.
Proof.
  intros Hsound Hmac Hhkdf variant raw K id c m P skip newer sender receivers
    HK Hinv Hid Hc Hm Hwin Hskip Hlookup.
  destruct (Sender_encrypt_spec Hsound Hmac Hhkdf variant raw K id c P skip
              HK Hinv Hid Hc)
    as (h & iv & encrypted & authCode & Hgen & Hparse & Hkid & Hctr & Hiv
        & Henc & Hdec & Hsign & HnT & Hsend).
  eexists. split; [exact Hsend|].
  rewrite (Context_decrypt_spec K h id c m P iv encrypted authCode skip
             sender receivers [] newer Hparse Hkid Hctr Hiv Hdec Hsign HnT
             Hskip Hc Hm Hlookup (List.Forall_nil _)).
  unfold Receiver.ReplayWindow in *.
  destruct (Z.ltb_spec c m); destruct (Z.ltb_spec 128 (m - c)); cbn [andb fst];
    first [reflexivity | lia].
Qed.

Example decrypt_encrypt_roundtrip_sample :
  exists frame,
    @Sender.encrypt binary64_math Toy.provider (Sample.sender 0) Sample.payload 4
    = (Ok frame, Sample.sender 1)
    /\ fst (@Context.decrypt Toy.provider Sample.receiver frame 4) = Ok Sample.payload.
Proof.
  apply (@decrypt_encrypt_roundtrip binary64_math Toy.provider
           binary64_math_sound Toy_hmac_sha256 Toy_hkdf_length
           AES_GCM_256_SHA512 Sample.shared Sample.key 5 0 (-1) Sample.payload 4%nat
           [] None {[ Num 5 := Receiver.mk (Num (-1)) [Sample.key] ]}).
  - vm_compute. reflexivity.
  - apply Toy_subtle_inverts.
  - vm_compute. split; discriminate.
  - vm_compute. split; discriminate.
  - vm_compute. split; discriminate.
  - vm_compute. discriminate.
  - vm_compute. lia.
  - apply lookup_singleton_eq.
Defined.

(** C1 (code bug).  The round trip fails for the two counter mode suites,
    which [CipherSuiteVariant] offers like the AES-GCM ones: the key
    material is derived and installed, and the sender's [encrypt] rejects
    at [crypto.subtle.encrypt], whose AES-CTR parameters lack [counter];
    no frame is produced that a receiver could decrypt.  The sender's
    counter has advanced all the same.  Under the default suite the same
    sender, key material and payload make the round trip. *)
Theorem counter_mode_encrypt_rejected :
  Forall (fun variant =>
    exists K,
      @SFrameCrypto.createSFrameCrypto Toy.provider Sample.shared variant = Ok K
      /\ algorithm (config K) = "AES-CTR"%string
      /\ @Sender.encrypt binary64_math Toy.provider
           (Sender.mk 5 0 (Some K)) Sample.payload 4
         = (Throw SubtleRejected, Sender.mk 5 1 (Some K)))
    [AES_CM_128_HMAC_SHA256_4; AES_CM_128_HMAC_SHA256_8]
  /\ exists frame,
       @Sender.encrypt binary64_math Toy.provider (Sample.sender 0) Sample.payload 4
       = (Ok frame, Sample.sender 1)
       /\ fst (@Context.decrypt Toy.provider Sample.receiver frame 4)
          = Ok Sample.payload.
Proof.
  split.
  - apply List.Forall_cons; [|apply List.Forall_cons; [|apply List.Forall_nil]].
    + exists (Sample.derive AES_CM_128_HMAC_SHA256_4).
      repeat split; vm_compute; reflexivity.
    + exists (Sample.derive AES_CM_128_HMAC_SHA256_8).
      repeat split; vm_compute; reflexivity.
  - exact decrypt_encrypt_roundtrip_sample.
Qed.

(** C2 (code bug).  Header round trip.  The header comment of
    [SFrameHeader.ts] promises counters of up to 8 bytes, and
    [generateSFrameHeader] throws only when the length it computes exceeds
    8.  But that length comes from a quotient of rounded logarithms: at
    [2^64 - 2048], the largest number below 2^64, which takes eight bytes,
    the quotient is exactly 8 and [generateSFrameHeader] throws, as it does
    for each of the 45 numbers from [2^64 - 92160], whatever the key id, so
    that there is no header to parse.  Below that range the round trip
    holds for every key id up to [SFRAME_HEADER_MAXKEYID] and every counter
    that is a number: parsing the generated bytes gives back the key id and
    the counter.  And with the exact integer part of the logarithm it holds
    for every such counter below 2^64: all but the computation of the
    length handles these counters. *)
Theorem generateSFrameHeader_rejects_top_counters :
  let c := 2 ^ 64 - 2048 in
  (is_Number c = true /\ 0 <= c < 2 ^ 64 /\ minimalLength c = 8)
  /\ @generateSFrameHeader binary64_math 0 c
     = Throw (PlainError "The length of the CTR fields in bytes must be between 1-8")
  /\ (forall kid ctr,
        0 <= kid <= SFRAME_HEADER_MAXKEYID ->
        2 ^ 64 - 92160 <= ctr < 2 ^ 64 ->
        @generateSFrameHeader binary64_math kid ctr
        = Throw (PlainError "The length of the CTR fields in bytes must be between 1-8"))
  /\ (forall kid ctr,
        0 <= kid <= SFRAME_HEADER_MAXKEYID ->
        0 <= ctr < 2 ^ 64 - 92160 -> is_Number ctr = true ->
        exists h,
          @generateSFrameHeader binary64_math kid ctr = Ok h
          /\ keyId (parseSFrameHeader (data h)) = Num kid
          /\ counter (parseSFrameHeader (data h)) = Num ctr)
  /\ (forall M : JSMath,
        (forall i, 0 < i -> log_quotient i = Z.log2 i / 8) ->
        forall kid ctr,
          0 <= kid <= SFRAME_HEADER_MAXKEYID ->
          0 <= ctr < 2 ^ 64 -> is_Number ctr = true ->
          exists h,
            generateSFrameHeader kid ctr = Ok h
            /\ keyId (parseSFrameHeader (data h)) = Num kid
            /\ counter (parseSFrameHeader (data h)) = Num ctr).
Proof.
  cbv zeta. split; [|split; [|split; [|split]]].
  - split; [reflexivity|]. split; [lia | reflexivity].
  - vm_compute. reflexivity.
  - intros kid ctr Hk Hc. unfold generateSFrameHeader.
    rewrite checkSFrameHeaderKeyId_ok by assumption. cbn [bind].
    assert (Hlc : @calculateKLENorLEN binary64_math ctr = Num 8).
    { unfold calculateKLENorLEN. cbn [log_quotient binary64_math].
      destruct (Z.eqb_spec ctr 0); [lia|]. destruct (Z.ltb_spec ctr 0); [lia|].
      destruct (Z.eqb_spec ctr (2 ^ 48 - 1)); [lia|].
      destruct (Z.ltb_spec ctr (2 ^ 56)); [lia|]. rewrite andb_false_r.
      destruct (Z.leb_spec (2 ^ 64 - 92160) ctr); [|lia].
      destruct (Z.ltb_spec ctr (2 ^ 64)); [|lia]. reflexivity. }
    rewrite Hlc.
    destruct (7 <? kid) eqn:Hext; [|reflexivity].
    unfold calculateKLENorLEN.
    destruct (Z.eqb_spec kid 0); [reflexivity|].
    destruct (Z.ltb_spec kid 0); [lia|]. reflexivity.
  - intros kid ctr Hk Hc Hnum.
    destruct (@generate_parse_number binary64_math (2 ^ 64 - 92160) ltac:(lia)
                binary64_math_below kid ctr Hk Hc Hnum) as (h & Hg & Hp & Hkid & Hctr).
    exists h. split; [exact Hg|].
    specialize (Hp []). rewrite app_nil_r in Hp. rewrite Hp. now split.
  - intros M Hexact kid ctr Hk Hc Hnum.
    destruct (@generate_parse_number M (2 ^ 64) ltac:(lia)
                (exact_logarithm_below Hexact) kid ctr Hk Hc Hnum)
      as (h & Hg & Hp & Hkid & Hctr).
    exists h. split; [exact Hg|].
    specialize (Hp []). rewrite app_nil_r in Hp. rewrite Hp. now split.
Qed.

(** C6 (code bug).  Where the logarithm quotient is the integer part of
    the base-256 logarithm the header is laid out as the claim says; the
    two headers of the claim are such.  At counter [2^48 - 1] the quotient
    of the two doubles is 6 and the header carries the counter in seven
    bytes, [60 00 ff ff ff ff ff ff], although six are its minimal
    length. *)
Theorem generateSFrameHeader_not_minimal :
  minimalLength (2 ^ 48 - 1) = 6
  /\ (exists h,
        @generateSFrameHeader binary64_math 0 (2 ^ 48 - 1) = Ok h
        /\ data h = map byte.of_Z [0x60; 0x00; 0xff; 0xff; 0xff; 0xff; 0xff; 0xff]
        /\ length (rawCounter h) = 7%nat)
  /\ (exists h,
        @generateSFrameHeader binary64_math 0xbbccdd 0xff = Ok h
        /\ data h = map byte.of_Z [0x0a; 0xbb; 0xcc; 0xdd; 0xff])
  /\ (exists h,
        @generateSFrameHeader binary64_math 0xbbccddee 0x100 = Ok h
        /\ data h = map byte.of_Z [0x1b; 0xbb; 0xcc; 0xdd; 0xee; 0x01; 0x00]).
Proof.
  split; [reflexivity|].
  split; [eexists; split; [vm_compute; reflexivity|split; reflexivity]|].
  split; eexists; (split; [vm_compute; reflexivity|reflexivity]).
Qed.

(** C7 (confirmed).  For a counter of 1 to 8 bytes and a salt of 12 bytes
    [generateIV] returns the 12 bytes obtained by right-aligning the
    counter in zeros, [iv[12 - length + i] = counter[i]], and xoring the
    salt byte by byte; with salt [42d662fbad5cd81eb3aad79a] the counter [aa]
    gives [42d662fbad5cd81eb3aad730] and the counter [ffffffffffffff] gives
    [42d662fbada327e14c552865]. *)
Theorem generateIV_right_aligned_xor :
  (forall ctr salt : bytes,
     (1 <= length ctr <= 8)%nat -> length salt = 12%nat ->
     let aligned := alloc (12 - length ctr) ++ ctr in
     generateIV ctr salt = Ok (xorBytes aligned salt)
     /\ length (xorBytes aligned salt) = 12%nat
     /\ (forall i, (i < length ctr)%nat -> aligned !! (12 - length ctr + i)%nat = ctr !! i)
     /\ (forall i, (i < 12 - length ctr)%nat -> aligned !! i = Some Byte.x00))
  /\ generateIV (map byte.of_Z [0xaa])
       (map byte.of_Z [0x42; 0xd6; 0x62; 0xfb; 0xad; 0x5c; 0xd8; 0x1e; 0xb3; 0xaa; 0xd7; 0x9a])
     = Ok (map byte.of_Z
             [0x42; 0xd6; 0x62; 0xfb; 0xad; 0x5c; 0xd8; 0x1e; 0xb3; 0xaa; 0xd7; 0x30])
  /\ generateIV (map byte.of_Z [0xff; 0xff; 0xff; 0xff; 0xff; 0xff; 0xff])
       (map byte.of_Z [0x42; 0xd6; 0x62; 0xfb; 0xad; 0x5c; 0xd8; 0x1e; 0xb3; 0xaa; 0xd7; 0x9a])
     = Ok (map byte.of_Z
             [0x42; 0xd6; 0x62; 0xfb; 0xad; 0xa3; 0x27; 0xe1; 0x4c; 0x55; 0x28; 0x65]).
Proof.
  split; [|split; reflexivity].
  intros ctr salt Hc Hs aligned. subst aligned.
  rewrite generateIV_spec by lia. rewrite Hs.
  split; [reflexivity|].
  split; [rewrite length_xorBytes, length_app, length_alloc; lia|].
  split.
  - intros i Hi. rewrite lookup_app_r by (rewrite length_alloc; lia).
    rewrite length_alloc. f_equal. lia.
  - intros i Hi. rewrite lookup_app_l by (rewrite length_alloc; lia).
    now apply lookup_alloc.
Qed.

Lemma generateIV_right_aligned_xor_witness :
  generateIV (map byte.of_Z [0x01; 0x02])
    (map byte.of_Z [0x42; 0xd6; 0x62; 0xfb; 0xad; 0x5c; 0xd8; 0x1e; 0xb3; 0xaa; 0xd7; 0x9a])
  = Ok (map byte.of_Z
          [0x42; 0xd6; 0x62; 0xfb; 0xad; 0x5c; 0xd8; 0x1e; 0xb3; 0xaa; 0xd6; 0x98]).
Proof.
  apply (proj1 generateIV_right_aligned_xor (map byte.of_Z [0x01; 0x02])
           (map byte.of_Z
              [0x42; 0xd6; 0x62; 0xfb; 0xad; 0x5c; 0xd8; 0x1e; 0xb3; 0xaa; 0xd7; 0x9a])).
  - cbn [length map]. lia.
  - reflexivity.
Defined.

(** C4 (corrected).  The first [skip] bytes of the encrypted frame are the
    first [skip] bytes of the payload (followed by zero bytes where the
    payload is shorter than [skip]); the cipher is given the whole
    payload, its first [skip] bytes included, and its output on the whole
    payload is what follows the header in the frame. *)
Theorem skip_region_in_clear {M : JSMath} {W : WebCrypto} :
  log_quotient_sound M -> hmac_sha256 W -> hkdf_length W ->
  forall variant raw (K : SFrameCrypto.t) id c (P : bytes) (skip : nat),
    SFrameCrypto.createSFrameCrypto raw variant = Ok K ->
    subtle_inverts W (algorithm (config K)) ->
    0 <= id <= SFRAME_HEADER_MAXKEYID -> 0 <= c <= 2 ^ 53 ->
    exists frame h iv encrypted,
      fst (Sender.encrypt (Sender.mk id c (Some K)) P (Z.of_nat skip)) = Ok frame
      /\ take skip frame = take skip P ++ alloc (skip - length P)
      /\ generateSFrameHeader id c = Ok h
      /\ generateIV (rawCounter h) (saltKey K) = Ok iv
      /\ subtle_encrypt (algorithm (config K)) iv (nK (config K) * 8) (data h)
           (encryptionKey K) P = Some encrypted
      /\ take (length encrypted) (drop (skip + length (data h)) frame) = encrypted.
Proof.
  intros Hsound Hmac Hhkdf variant raw K id c P skip HK Hinv Hid Hc.
  destruct (Sender_encrypt_spec Hsound Hmac Hhkdf variant raw K id c P skip
              HK Hinv Hid Hc)
    as (h & iv & encrypted & authCode & Hgen & _ & _ & _ & Hiv & Henc & _ & _ & _ & Hsend).
  eexists _, h, iv, encrypted. rewrite Hsend. cbn [fst].
  split; [reflexivity|]. unfold wireFrame.
  set (pfx := take skip P ++ alloc (skip - length P)).
  assert (Hpfx : length pfx = skip)
    by (subst pfx; rewrite length_app, length_take, length_alloc; lia).
  rewrite (app_assoc (take skip P)). fold pfx.
  split; [rewrite <- Hpfx at 1; apply take_app_length|].
  repeat (split; [assumption|]).
  rewrite <- Hpfx, (app_assoc pfx), <- length_app, drop_app_length.
  apply take_app_length.
Qed.

Lemma skip_region_in_clear_witness :
  exists frame h iv encrypted,
    fst (@Sender.encrypt binary64_math Toy.provider (Sample.sender 0) Sample.payload 4)
    = Ok frame
    /\ take 4 frame = take 4 Sample.payload ++ alloc (4 - length Sample.payload)
    /\ @generateSFrameHeader binary64_math 5 0 = Ok h
    /\ generateIV (rawCounter h) (saltKey Sample.key) = Ok iv
    /\ @subtle_encrypt Toy.provider (algorithm (config Sample.key)) iv
         (nK (config Sample.key) * 8) (data h) (encryptionKey Sample.key)
         Sample.payload = Some encrypted
    /\ take (length encrypted) (drop (4 + length (data h)) frame) = encrypted.
Proof.
  apply (@skip_region_in_clear binary64_math Toy.provider
           binary64_math_sound Toy_hmac_sha256 Toy_hkdf_length
           AES_GCM_256_SHA512 Sample.shared Sample.key 5 0 Sample.payload 4%nat).
  - vm_compute. reflexivity.
  - apply Toy_subtle_inverts.
  - vm_compute. split; discriminate.
  - vm_compute. split; discriminate.
Defined.

(** C4, the claim as stated, fails: with skip 4 the six bytes of the
    payload go to the cipher, and what follows the header in the frame is
    the output of the cipher on all six, not its output on the last two. *)
Lemma skip_region_counterexample :
  exists frame h iv whole rest,
    fst (@Sender.encrypt binary64_math Toy.provider (Sample.sender 0) Sample.payload 4)
    = Ok frame
    /\ @generateSFrameHeader binary64_math 5 0 = Ok h
    /\ generateIV (rawCounter h) (saltKey Sample.key) = Ok iv
    /\ @subtle_encrypt Toy.provider (algorithm (config Sample.key)) iv
         (nK (config Sample.key) * 8) (data h) (encryptionKey Sample.key)
         Sample.payload = Some whole
    /\ @subtle_encrypt Toy.provider (algorithm (config Sample.key)) iv
         (nK (config Sample.key) * 8) (data h) (encryptionKey Sample.key)
         (drop 4 Sample.payload) = Some rest
    /\ take (length whole) (drop (4 + length (data h)) frame) = whole
    /\ take (length rest) (drop (4 + length (data h)) frame) <> rest.
Proof.
  eexists _, _, _, _, _.
  split; [vm_compute; reflexivity|].
  split; [vm_compute; reflexivity|].
  split; [vm_compute; reflexivity|].
  split; [vm_compute; reflexivity|].
  split; [vm_compute; reflexivity|].
  split; [vm_compute; reflexivity|].
  vm_compute. discriminate.
Qed.

(** C5 (corrected).  The encrypted frame has length
    [skip + |header.data| + |encrypted| + nT] where [encrypted] is the
    output of the cipher on the payload: the region between header and
    HMAC tag has the length of the cipher output, whatever that is. *)
Theorem frame_length {M : JSMath} {W : WebCrypto} :
  log_quotient_sound M -> hmac_sha256 W -> hkdf_length W ->
  forall variant raw (K : SFrameCrypto.t) id c (P : bytes) (skip : nat),
    SFrameCrypto.createSFrameCrypto raw variant = Ok K ->
    subtle_inverts W (algorithm (config K)) ->
    0 <= id <= SFRAME_HEADER_MAXKEYID -> 0 <= c <= 2 ^ 53 ->
    exists frame h iv encrypted,
      fst (Sender.encrypt (Sender.mk id c (Some K)) P (Z.of_nat skip)) = Ok frame
      /\ generateSFrameHeader id c = Ok h
      /\ generateIV (rawCounter h) (saltKey K) = Ok iv
      /\ subtle_encrypt (algorithm (config K)) iv (nK (config K) * 8) (data h)
           (encryptionKey K) P = Some encrypted
      /\ Z.of_nat (length frame)
         = Z.of_nat skip + Z.of_nat (length (data h)) + Z.of_nat (length encrypted)
           + nT (config K).
Proof.
  intros Hsound Hmac Hhkdf variant raw K id c P skip HK Hinv Hid Hc.
  destruct (Sender_encrypt_spec Hsound Hmac Hhkdf variant raw K id c P skip
              HK Hinv Hid Hc)
    as (h & iv & encrypted & authCode & Hgen & _ & _ & _ & Hiv & Henc & _ & _ & HnT & Hsend).
  eexists _, h, iv, encrypted. rewrite Hsend. cbn [fst].
  split; [reflexivity|]. repeat (split; [assumption|]).
  unfold wireFrame. rewrite !length_app, !length_take, length_alloc. lia.
Qed.

Lemma frame_length_witness :
  exists frame h iv encrypted,
    fst (@Sender.encrypt binary64_math Toy.provider (Sample.sender 0) Sample.payload 4)
    = Ok frame
    /\ @generateSFrameHeader binary64_math 5 0 = Ok h
    /\ generateIV (rawCounter h) (saltKey Sample.key) = Ok iv
    /\ @subtle_encrypt Toy.provider (algorithm (config Sample.key)) iv
         (nK (config Sample.key) * 8) (data h) (encryptionKey Sample.key)
         Sample.payload = Some encrypted
    /\ Z.of_nat (length frame)
       = Z.of_nat 4 + Z.of_nat (length (data h)) + Z.of_nat (length encrypted)
         + nT (config Sample.key).
Proof.
  apply (@frame_length binary64_math Toy.provider
           binary64_math_sound Toy_hmac_sha256 Toy_hkdf_length
           AES_GCM_256_SHA512 Sample.shared Sample.key 5 0 Sample.payload 4%nat).
  - vm_compute. reflexivity.
  - apply Toy_subtle_inverts.
  - vm_compute. split; discriminate.
  - vm_compute. split; discriminate.
Defined.

(** C5, the claim as stated, fails for a cipher whose output carries its
    own tag, as that of AES-GCM does: the frame of a six byte payload with
    skip 4, a two byte header and [nT = 16] has 44 bytes, not
    [4 + 2 + 6 + 16 = 28]. *)
Lemma frame_length_counterexample :
  exists frame h,
    fst (@Sender.encrypt binary64_math Toy.provider (Sample.sender 0) Sample.payload 4)
    = Ok frame
    /\ @generateSFrameHeader binary64_math 5 0 = Ok h
    /\ Z.of_nat (length frame) = 44
    /\ 4 + Z.of_nat (length (data h)) + Z.of_nat (length Sample.payload)
       + nT (config Sample.key) = 28.
Proof.
  eexists _, _.
  split; [vm_compute; reflexivity|].
  split; [vm_compute; reflexivity|].
  split; reflexivity.
Qed.

(** Below 2^53 every encrypt that finds a key installed uses the counter
    of the sender and leaves the sender with the next one, whether or not
    the frame could be produced. *)
Lemma Sender_counter_increments {M : JSMath} {W : WebCrypto}
    (s : Sender.t) (k : SFrameCrypto.t) (P : bytes) skip :
  Sender.key s = Some k -> 0 <= Sender.counter s < 2 ^ 53 ->
  Sender.counter (snd (Sender.encrypt s P skip)) = Sender.counter s + 1.
Proof.
  intros Hk Hc. unfold Sender.encrypt. rewrite Hk. cbn [snd Sender.counter].
  apply round_double_exact. lia.
Qed.

Lemma Sender_new_counter id (s : Sender.t) : Sender.new id = Ok s -> Sender.counter s = 0.
Proof.
  unfold Sender.new. destruct (checkSFrameHeaderKeyId id); [|discriminate].
  cbn [bind]. now intros [= <-].
Qed.

(** C8 (code bug).  A sender whose counter is 2^53 encrypts without
    error and is left with the counter 2^53: the next encrypt uses the same
    counter, hence the same header and IV, and so does every one after
    it. *)
Theorem Sender_counter_saturates :
  exists frame,
    @Sender.encrypt binary64_math Toy.provider (Sample.sender (2 ^ 53)) Sample.payload 0
    = (Ok frame, Sample.sender (2 ^ 53))
    /\ counter (parseSFrameHeader frame) = Num (2 ^ 53)
    /\ @Sender.encrypt binary64_math Toy.provider
         (snd (@Sender.encrypt binary64_math Toy.provider
                 (Sample.sender (2 ^ 53)) Sample.payload 0))
         Sample.payload 0
       = (Ok frame, Sample.sender (2 ^ 53)).
Proof.
  eexists. split; [vm_compute; reflexivity|].
  split; vm_compute; reflexivity.
Qed.

(** C9 (corrected).  [Sender.encrypt] without a key fails with InvalidKey;
    [Context.encrypt] fails with EncryptionFailure while the context has no
    sender, which is the case until a sender key is set, and with
    InvalidKey when it has a sender without a key; [Context.decrypt] fails
    with InvalidKey when no receiver is registered for the key id of the
    parsed header. *)
Theorem missing_key_errors {M : JSMath} {W : WebCrypto} :
  (forall (s : Sender.t) (P : bytes) skip,
     Sender.key s = None ->
     fst (Sender.encrypt s P skip) = Throw (SFrameError InvalidKey))
  /\ (forall (ctx : Context.t) (P : bytes) skip,
        Context.sender ctx = None ->
        fst (Context.encrypt ctx P skip) = Throw (SFrameError EncryptionFailure))
  /\ (forall (ctx : Context.t) (s : Sender.t) (P : bytes) skip,
        Context.sender ctx = Some s -> Sender.key s = None ->
        fst (Context.encrypt ctx P skip) = Throw (SFrameError InvalidKey))
  /\ (forall (ctx : Context.t) (frame : bytes) skip,
        Context.receivers ctx
          !! keyId (parseSFrameHeader (Context.subarray_from frame skip)) = None ->
        fst (Context.decrypt ctx frame skip) = Throw (SFrameError InvalidKey)).
Proof.
  repeat split.
  - intros s P skip Hk. unfold Sender.encrypt. now rewrite Hk.
  - intros ctx P skip Hs. unfold Context.encrypt. now rewrite Hs.
  - intros ctx s P skip Hs Hk. unfold Context.encrypt, Sender.encrypt.
    now rewrite Hs, Hk.
  - intros ctx frame skip Hr. unfold Context.decrypt. now rewrite Hr.
Qed.

Lemma missing_key_errors_witness :
  fst (@Sender.encrypt binary64_math Toy.provider (Sender.mk 5 0 None) Sample.payload 0)
  = Throw (SFrameError InvalidKey)
  /\ fst (@Context.encrypt binary64_math Toy.provider
            (Context.mk (Some (Sender.mk 5 0 None)) ∅) Sample.payload 0)
     = Throw (SFrameError InvalidKey)
  /\ fst (@Context.decrypt Toy.provider Context.new Sample.payload 0)
     = Throw (SFrameError InvalidKey).
Proof.
  pose proof (@missing_key_errors binary64_math Toy.provider) as (H1 & _ & H3 & H4).
  split; [apply H1; reflexivity|].
  split; [apply (H3 _ (Sender.mk 5 0 None)); reflexivity|].
  apply H4. apply lookup_empty.
Defined.

(** C9, the claim as stated, fails for [Context.encrypt]: on a fresh
    context, where no sender key is installed, encrypting fails with
    EncryptionFailure, not with InvalidKey. *)
Lemma missing_key_counterexample :
  Context.canEncrypt Context.new = false
  /\ fst (@Context.encrypt binary64_math Toy.provider Context.new Sample.payload 0)
     = Throw (SFrameError EncryptionFailure)
  /\ fst (@Context.encrypt binary64_math Toy.provider Context.new Sample.payload 0)
     <> Throw (SFrameError InvalidKey).
Proof. repeat split. discriminate. Qed.

(** ** [parseSFrameHeader] on arbitrary buffers *)

Lemma fold_left_upto_ext {A} (f g : A -> Z -> A) n a :
  (forall x i, 0 <= i -> f x i = g x i) ->
  fold_left f (upto n) a = fold_left g (upto n) a.
Proof.
  intros Hfg. unfold upto. generalize (seq 0 (Z.to_nat n)). intros l. revert a.
  induction l as [|i l IH]; intros a; [reflexivity|].
  cbn [map fold_left]. rewrite Hfg by lia. apply IH.
Qed.

Lemma get_cons_pos (b : byte) (rest : bytes) i :
  0 < i -> get (b :: rest) i = get rest (i - 1).
Proof.
  intros Hi. unfold get.
  destruct (Z.ltb_spec i 0); [lia|]. destruct (Z.ltb_spec (i - 1) 0); [lia|].
  replace (Z.to_nat i) with (S (Z.to_nat (i - 1))) by lia. reflexivity.
Qed.

(** The bytes after the first are read the same way whatever the first. *)
Lemma readBigEndian_tail (b : byte) (rest : bytes) start n :
  0 < start -> readBigEndian (b :: rest) start n = readBigEndian rest (start - 1) n.
Proof.
  intros Hs. unfold readBigEndian. apply fold_left_upto_ext.
  intros x i Hi. rewrite get_cons_pos by lia. do 3 f_equal. lia.
Qed.

Lemma land_7_range x : 0 <= Z.land x 7 <= 7.
Proof.
  assert (H : Z.land x 7 = x mod 8) by (apply (Z.land_ones x 3); lia).
  rewrite H. pose proof (Z.mod_pos_bound x 8 ltac:(lia)). lia.
Qed.

(** C10 (confirmed).  [parseSFrameHeader] is a total function of the
    buffer: for every byte sequence it returns a header record, whose
    [data] is a prefix of at most 17 bytes of the buffer.  On the empty
    buffer the key id is 0 and the counter NaN; on a buffer shorter than
    the length announced by the metadata byte the missing bytes make the
    counter NaN; the reserved bit does not change key id or counter; a key
    id above [SFRAME_HEADER_MAXKEYID], which [checkSFrameHeaderKeyId]
    rejects, is returned as it is read; and [Context.readKeyId] is the key
    id of that record. *)
Theorem parseSFrameHeader_total :
  (forall buffer : bytes,
     exists n, (n <= 17)%nat /\ data (parseSFrameHeader buffer) = take n buffer)
  /\ parseSFrameHeader []
     = {| data := []; keyId := Num 0; counter := NaN; rawCounter := [] |}
  /\ parseSFrameHeader (map byte.of_Z [0x10])
     = {| data := map byte.of_Z [0x10]; keyId := Num 0; counter := NaN; rawCounter := [] |}
  /\ (forall (b : byte) (rest : bytes),
        let b' := byte.of_Z (Z.land (byte.unsigned b) 0x7f) in
        keyId (parseSFrameHeader (b :: rest)) = keyId (parseSFrameHeader (b' :: rest))
        /\ counter (parseSFrameHeader (b :: rest))
           = counter (parseSFrameHeader (b' :: rest)))
  /\ (keyId (parseSFrameHeader
               (map byte.of_Z [0x0f; 0xff; 0xff; 0xff; 0xff; 0xff; 0xff; 0xff; 0xff; 0x00]))
      = Num (2 ^ 64)
      /\ checkSFrameHeaderKeyId (2 ^ 64) = Throw (SFrameError InvalidHeaderKey))
  /\ (forall (ctx : Context.t) (frame : MediaFrame.t),
        Context.readKeyId ctx frame
        = keyId (parseSFrameHeader
                   (Context.subarray_from (MediaFrame.data frame)
                      (MediaFrame.headerLength frame)))).
Proof.
  split; [|split; [reflexivity|split; [reflexivity|split; [|split; [split; reflexivity|reflexivity]]]]].
  - intros buffer. unfold parseSFrameHeader.
    set (m := ToInt32 (get buffer 0)).
    pose proof (land_7_range m) as HK. pose proof (land_7_range (Z.shiftr m 4)) as HL.
    unfold lengthAdjustment.
    destruct (negb (Z.land m 8 =? 0)); cbn [data].
    + exists (Z.to_nat (Z.land m 7 + 1 + (Z.land (Z.shiftr m 4) 7 + 1) + 1)).
      split; [lia|]. rewrite <- subarray_take. f_equal. lia.
    + exists (Z.to_nat (Z.land (Z.shiftr m 4) 7 + 1 + 1)).
      split; [lia|]. rewrite <- subarray_take. f_equal. lia.
  - intros b rest b'.
    assert (E1 : Z.land (Z.shiftr (byte.unsigned b') 4) 7
                 = Z.land (Z.shiftr (byte.unsigned b) 4) 7)
      by (subst b'; destruct b; reflexivity).
    assert (E2 : Z.land (byte.unsigned b') 8 = Z.land (byte.unsigned b) 8)
      by (subst b'; destruct b; reflexivity).
    assert (E3 : Z.land (byte.unsigned b') 7 = Z.land (byte.unsigned b) 7)
      by (subst b'; destruct b; reflexivity).
    clearbody b'. unfold parseSFrameHeader. rewrite !get_0. cbn [ToInt32].
    rewrite E1, E2, E3. unfold lengthAdjustment.
    pose proof (land_7_range (byte.unsigned b)) as HK.
    destruct (negb (Z.land (byte.unsigned b) 8 =? 0)); cbn [keyId counter].
    + rewrite !(readBigEndian_tail b), !(readBigEndian_tail b') by lia.
      split; reflexivity.
    + rewrite !(readBigEndian_tail b), !(readBigEndian_tail b') by lia.
      split; reflexivity.
Qed.

(** ** The replay window over a run of frames *)

Section Replay.
Context {M : JSMath} {W : WebCrypto}.
Hypothesis Hsound : log_quotient_sound M.
Hypothesis Hmac : hmac_sha256 W.
Hypothesis Hhkdf : hkdf_length W.

Lemma Sender_encrypt_valid variant raw (K : SFrameCrypto.t) id c (P : bytes) (skip : nat) :
  createCipherSuite variant raw = Ok K ->
  subtle_inverts W (algorithm (config K)) ->
  0 <= id <= SFRAME_HEADER_MAXKEYID -> 0 <= c < 2 ^ 53 ->
  exists frame,
    Sender.encrypt (Sender.mk id c (Some K)) P (Z.of_nat skip)
    = (Ok frame, Sender.mk id (c + 1) (Some K))
    /\ validFrame K id c P skip frame.
Proof.
  intros HK Hinv Hid Hc.
  destruct (Sender_encrypt_spec Hsound Hmac Hhkdf variant raw K id c P skip
              HK Hinv Hid ltac:(lia))
    as (h & iv & encrypted & authCode & Hgen & Hparse & Hkid & Hctr & Hiv
        & Henc & Hdec & Hsign & HnT & Hsend).
  rewrite round_double_exact in Hsend by lia.
  eexists. split; [exact Hsend|].
  exists h, iv, encrypted, authCode. repeat (split; [assumption|]). reflexivity.
Qed.

Lemma Context_decrypt_valid (K : SFrameCrypto.t) id c m (P frame : bytes) (skip : nat)
    (sender : option Sender.t) (receivers : gmap Number Receiver.t)
    (newer : list SFrameCrypto.t) :
  validFrame K id c P skip frame ->
  (skip <= length P)%nat -> 0 <= c <= 2 ^ 53 -> -1 <= m <= 2 ^ 53 ->
  receivers !! Num id = Some (Receiver.mk (Num m) (K :: newer)) ->
  Context.decrypt (Context.mk sender receivers) frame (Z.of_nat skip)
  = if (c <? m) && (Receiver.ReplayWindow <? m - c)
    then (Throw (SFrameError ReplayAttackError), Context.mk sender receivers)
    else (Ok P,
          Context.mk sender
            (<[Num id := Receiver.mk (Num (Z.max c m)) (K :: newer)]> receivers)).
Proof.
  intros (h & iv & encrypted & authCode & Hparse & Hkid & Hctr & Hiv & Hdec
          & Hsign & HnT & ->) Hskip Hc Hm Hlookup.
  exact (Context_decrypt_spec K h id c m P iv encrypted authCode skip
           sender receivers [] newer Hparse Hkid Hctr Hiv Hdec Hsign HnT
           Hskip Hc Hm Hlookup (List.Forall_nil _)).
Qed.

Lemma encryptAll_spec variant raw (K : SFrameCrypto.t) id (skip : nat) :
  createCipherSuite variant raw = Ok K ->
  subtle_inverts W (algorithm (config K)) ->
  0 <= id <= SFRAME_HEADER_MAXKEYID ->
  forall (payloads : list bytes) c receivers,
    0 <= c -> c + Z.of_nat (length payloads) <= 2 ^ 53 ->
    exists frames,
      encryptAll (Context.mk (Some (Sender.mk id c (Some K))) receivers)
        payloads (Z.of_nat skip) = Ok frames
      /\ Forall2 (fun cp frame => validFrame K id (fst cp) (snd cp) skip frame)
           (numbered c payloads) frames.
Proof.
  intros HK Hinv Hid payloads.
  induction payloads as [|P payloads IH]; intros c receivers Hc Hlen.
  - exists []. split; [reflexivity|constructor].
  - cbn [length] in Hlen.
    destruct (Sender_encrypt_valid variant raw K id c P skip HK Hinv Hid ltac:(lia))
      as (frame & Hsend & Hvalid).
    destruct (IH (c + 1) receivers ltac:(lia) ltac:(lia)) as (frames & Hall & Hframes).
    exists (frame :: frames). split.
    + cbn [encryptAll]. unfold Context.encrypt. cbn [Context.sender Context.receivers].
      rewrite Hsend, Hall. reflexivity.
    + cbn [numbered]. constructor; assumption.
Qed.

Lemma decryptAll_window (K : SFrameCrypto.t) id Mx (skip : nat)
    (newer : list SFrameCrypto.t) (sender : option Sender.t) :
  0 <= Mx <= 2 ^ 53 ->
  forall cps frames,
    Forall2 (fun cp frame => validFrame K id (fst cp) (snd cp) skip frame) cps frames ->
    Forall (fun cp => 0 <= fst cp <= Mx /\ (skip <= length (snd cp))%nat) cps ->
    forall receivers,
      receivers !! Num id = Some (Receiver.mk (Num Mx) (K :: newer)) ->
      decryptAll (Context.mk sender receivers) frames (Z.of_nat skip)
      = map (fun cp => if Receiver.ReplayWindow <? Mx - fst cp
                       then Throw (SFrameError ReplayAttackError)
                       else Ok (snd cp)) cps.
Proof.
  intros HMx cps frames Hvalid.
  induction Hvalid as [|[c P] frame cps frames Hv _ IH]; intros Hall receivers Hlookup;
    [reflexivity|].
  apply Forall_cons in Hall as [[Hc Hskip] Hall]. cbn [fst snd] in *.
  cbn [decryptAll map fst snd].
  rewrite (Context_decrypt_valid K id c Mx P frame skip sender receivers newer
             Hv Hskip ltac:(lia) ltac:(lia) Hlookup).
  destruct (Z.ltb_spec c Mx) as [Hlt | Hge]; cbn [andb].
  - destruct (Z.ltb_spec Receiver.ReplayWindow (Mx - c)).
    + f_equal. now apply IH.
    + f_equal. apply IH; [assumption|].
      rewrite lookup_insert_eq. now rewrite Z.max_r by lia.
  - assert (c = Mx) as -> by lia.
    rewrite Z.sub_diag. change (Receiver.ReplayWindow <? 0) with false. cbv iota.
    f_equal. apply IH; [assumption|].
    rewrite lookup_insert_eq. now rewrite Z.max_id.
Qed.

End Replay.

Lemma Forall2_rev {A B} (R : A -> B -> Prop) l1 l2 :
  Forall2 R l1 l2 -> Forall2 R (rev l1) (rev l2).
Proof.
  induction 1 as [|x y l1 l2 Hxy _ IH]; [constructor|].
  cbn [rev]. apply Forall2_app; [exact IH|]. repeat constructor. exact Hxy.
Qed.

Lemma numbered_app c (l1 l2 : list bytes) :
  numbered c (l1 ++ l2) = numbered c l1 ++ numbered (c + Z.of_nat (length l1)) l2.
Proof.
  revert c. induction l1 as [|P l1 IH]; intros c.
  - cbn. now rewrite Z.add_0_r.
  - cbn [app numbered length]. rewrite IH. do 3 f_equal. lia.
Qed.

Lemma numbered_bounds c (l : list bytes) :
  Forall (fun cp => c <= fst cp < c + Z.of_nat (length l) /\ In (snd cp) l) (numbered c l).
Proof.
  revert c. induction l as [|P l IH]; intros c; [constructor|].
  cbn [numbered length]. constructor.
  - cbn. split; [lia|now left].
  - eapply Forall_impl; [apply (IH (c + 1))|].
    intros cp [H1 H2]. cbn beta in *. split; [lia|now right].
Qed.

Section ReplayTest.
Context {M : JSMath} {W : WebCrypto}.
Hypothesis Hsound : log_quotient_sound M.
Hypothesis Hmac : hmac_sha256 W.
Hypothesis Hhkdf : hkdf_length W.

(** The outcome of the test for any number of payloads: the frame with
    counter [c] is refused when it lies more than the replay window below
    the last counter, the first one to be decrypted. *)
Lemma replayTest_spec (shared : bytes) (K : SFrameCrypto.t) (payloads : list bytes)
    (skip : nat) :
  SFrameCrypto.createSFrameCrypto shared AES_GCM_256_SHA512 = Ok K ->
  subtle_inverts W (algorithm (config K)) ->
  Z.of_nat (length payloads) <= 2 ^ 53 ->
  Forall (fun P => (skip <= length P)%nat) payloads ->
  replayTest shared payloads (Z.of_nat skip)
  = Ok (map (fun cp =>
               if Receiver.ReplayWindow <? Z.of_nat (length payloads) - 1 - fst cp
               then Throw (SFrameError ReplayAttackError)
               else Ok (snd cp))
          (rev (numbered 0 payloads))).
Proof.
  intros HK Hinv Hlen Hskip. unfold replayTest.
  unfold Context.setSenderEncryptionKey, Context.setReceiverEncryptionKey, Context.new.
  cbn [Context.sender Context.receivers]. rewrite lookup_empty.
  change (Sender.new 0) with (Ok (Sender.mk 0 0 None)).
  change (Receiver.new 0) with (Ok (Receiver.mk (Num (-1)) [])).
  rewrite HK. cbn [bind]. unfold Sender.setEncryptionKey, Receiver.setEncryptionKey.
  cbn [Sender.senderId Sender.counter Receiver.maxReceivedCounter Receiver.keyring app].
  destruct (encryptAll_spec Hsound Hmac Hhkdf AES_GCM_256_SHA512 shared K 0 skip
              HK Hinv ltac:(unfold SFRAME_HEADER_MAXKEYID; lia) payloads 0 ∅
              ltac:(lia) ltac:(lia))
    as (frames & Hall & Hvalid).
  rewrite Hall. cbn [bind]. f_equal.
  apply Forall2_rev in Hvalid.
  pose proof (numbered_bounds 0 payloads) as Hbounds.
  destruct payloads as [|last front _] using rev_ind.
  - cbn in Hvalid. inversion Hvalid. reflexivity.
  - rewrite numbered_app, rev_app_distr in Hvalid |- *.
    rewrite numbered_app in Hbounds. apply Forall_app in Hbounds as [Hfront _].
    cbn [numbered rev app] in Hvalid |- *.
    rewrite length_app in *. cbn [length] in *.
    pose proof Hskip as Hskip_all.
    apply Forall_app in Hskip as [Hskipf Hskipl].
    apply Forall_cons in Hskipl as [Hskipl _].
    inversion Hvalid as [|cp frame cps rest Hv Hrest Heq1 Heq2]. subst.
    cbn [fst snd] in Hv. rewrite Z.add_0_l in Hv |- *.
    cbn [decryptAll map fst snd].
    set (rcv := <[Num 0:=Receiver.mk (Num (-1)) [K]]>
                  (<[Num 0:=Receiver.mk (Num (-1)) []]> ∅)).
    rewrite (Context_decrypt_valid K 0 (Z.of_nat (length front)) (-1) last frame skip
               None rcv [] Hv Hskipl ltac:(lia) ltac:(lia)
               ltac:(subst rcv; apply lookup_insert_eq)).
    destruct (Z.ltb_spec (Z.of_nat (length front)) (-1)); [lia|]. cbn [andb].
    replace (Z.of_nat (length front + 1) - 1 - Z.of_nat (length front)) with 0 by lia.
    change (Receiver.ReplayWindow <? 0) with false. cbv iota. f_equal.
    rewrite (decryptAll_window K 0 (Z.of_nat (length front)) skip [] None
               ltac:(lia) (rev (numbered 0 front)) rest Hrest).
    + apply map_ext. intros cp.
      replace (Z.of_nat (length front + 1) - 1 - fst cp)
        with (Z.of_nat (length front) - fst cp) by lia.
      reflexivity.
    + apply Forall_rev. apply List.Forall_forall. intros cp Hcp.
      destruct (proj1 (List.Forall_forall _ _) Hfront cp Hcp) as [Hr Hin].
      split; [lia|].
      exact (proj1 (List.Forall_forall _ _) Hskip_all _ Hin).
    + rewrite lookup_insert_eq. now rewrite Z.max_l by lia.
Qed.

End ReplayTest.

Lemma checkForReplayAttack_rule {W : WebCrypto} (r : Receiver.t) (h : SFrameHeader) c m :
  counter h = Num c -> Receiver.maxReceivedCounter r = Num m ->
  Z.abs (m - c) <= 2 ^ 53 ->
  Receiver.checkForReplayAttack r h = Throw (SFrameError ReplayAttackError)
  <-> c < m /\ m - c > Receiver.ReplayWindow.
Proof.
  intros Hc Hm Habs. unfold Receiver.checkForReplayAttack.
  rewrite Hc, Hm. cbn [lt gt sub]. rewrite round_double_exact by exact Habs.
  destruct (Z.ltb_spec c m); destruct (Z.ltb_spec Receiver.ReplayWindow (m - c));
    cbn [andb]; split; intros H1; try discriminate; try reflexivity; lia.
Qed.

Lemma Sample_payloads_length n : Forall (fun P => (4 <= length P)%nat) (Sample.payloads n).
Proof.
  apply List.Forall_forall. intros P HP. unfold Sample.payloads in HP.
  apply in_map_iff in HP as (i & <- & _). rewrite length_app. cbn. lia.
Qed.

(** C3 (corrected).  The window rule is as stated: a frame with counter
    [c] is refused with ReplayAttackError if and only if
    [c < maxReceivedCounter] and [maxReceivedCounter - c > 128].  When a
    receiver decrypts the 200 frames of a sender, counters 0 to 199, in
    reverse order, the first 129 attempts (counters 199 down to 71)
    succeed and return their payloads, and the remaining 71 attempts
    (counters 70 down to 0) fail with ReplayAttackError. *)
Theorem replay_window {M : JSMath} {W : WebCrypto} :
  log_quotient_sound M -> hmac_sha256 W -> hkdf_length W ->
  (Receiver.ReplayWindow = 128
   /\ forall (r : Receiver.t) (h : SFrameHeader) c m,
        counter h = Num c -> Receiver.maxReceivedCounter r = Num m ->
        Z.abs (m - c) <= 2 ^ 53 ->
        (Receiver.checkForReplayAttack r h = Throw (SFrameError ReplayAttackError)
         <-> c < m /\ m - c > Receiver.ReplayWindow))
  /\ forall (shared : bytes) (K : SFrameCrypto.t) (payloads : list bytes) (skip : nat),
       SFrameCrypto.createSFrameCrypto shared AES_GCM_256_SHA512 = Ok K ->
       subtle_inverts W (algorithm (config K)) ->
       length payloads = 200%nat ->
       Forall (fun P => (skip <= length P)%nat) payloads ->
       exists results,
         replayTest shared payloads (Z.of_nat skip) = Ok results
         /\ take 129 results = map Ok (take 129 (rev payloads))
         /\ drop 129 results = repeat (Throw (SFrameError ReplayAttackError)) 71.
Proof.
  intros Hsound Hmac Hhkdf.
  split; [split; [reflexivity|]; intros r h c m; apply checkForReplayAttack_rule|].
  intros shared K payloads skip HK Hinv Hlen Hskip.
  eexists. split.
  { apply (replayTest_spec Hsound Hmac Hhkdf shared K payloads skip HK Hinv);
      [rewrite Hlen; vm_compute; discriminate|exact Hskip]. }
  clear Hskip HK Hinv.
  do 200 (destruct payloads as [|? payloads]; [cbn in Hlen; lia|]).
  destruct payloads; [|cbn in Hlen; lia].
  clear Hlen. split; vm_compute; reflexivity.
Qed.

Lemma replay_window_witness :
  exists results,
    @replayTest binary64_math Toy.provider Sample.shared (Sample.payloads 200) 4
    = Ok results
    /\ take 129 results = map Ok (take 129 (rev (Sample.payloads 200)))
    /\ drop 129 results = repeat (Throw (SFrameError ReplayAttackError)) 71.
Proof.
  apply (proj2 (@replay_window binary64_math Toy.provider
                  binary64_math_sound Toy_hmac_sha256 Toy_hkdf_length)
           Sample.shared Sample.key (Sample.payloads 200) 4%nat).
  - vm_compute. reflexivity.
  - apply Toy_subtle_inverts.
  - reflexivity.
  - apply Sample_payloads_length.
Defined.

(** C3, the claim as stated, fails at the 129th attempt: the frame with
    counter 71 is decrypted, [199 - 71 = 128] being within the window,
    and the first refusal is that of counter 70. *)
Lemma replay_window_counterexample :
  exists results P71,
    @replayTest binary64_math Toy.provider Sample.shared (Sample.payloads 200) 4
    = Ok results
    /\ Sample.payloads 200 !! 71%nat = Some P71
    /\ results !! 128%nat = Some (Ok P71)
    /\ results !! 128%nat <> Some (Throw (SFrameError ReplayAttackError))
    /\ results !! 129%nat = Some (Throw (SFrameError ReplayAttackError)).
Proof.
  eexists _, _.
  split; [vm_compute; reflexivity|].
  split; [vm_compute; reflexivity|].
  split; [vm_compute; reflexivity|].
  split; [vm_compute; discriminate|vm_compute; reflexivity].
Qed.

(* ===================================================================== *)
(** * Further properties of the code *)
(* ===================================================================== *)

(** ** SFrameHeader.ts: headers in a buffer *)

Lemma announcedLength_range (buffer : bytes) : 2 <= announcedLength buffer <= 17.
Proof.
  unfold announcedLength.
  pose proof (land_7_range (ToInt32 (get buffer 0))).
  pose proof (land_7_range (Z.shiftr (ToInt32 (get buffer 0)) 4)).
  destruct (_ =? 0); lia.
Qed.

Lemma fold_left_upto_ext_lt {A} (f g : A -> Z -> A) n a :
  (forall x i, 0 <= i < n -> f x i = g x i) ->
  fold_left f (upto n) a = fold_left g (upto n) a.
Proof.
  intros Hfg. unfold upto.
  assert (H : forall i, In i (seq 0 (Z.to_nat n)) -> 0 <= Z.of_nat i < n).
  { intros i Hi. apply in_seq in Hi. lia. }
  revert H. generalize (seq 0 (Z.to_nat n)). intros l. revert a.
  induction l as [|i l IH]; intros a H; [reflexivity|].
  cbn [map fold_left]. rewrite Hfg by (apply H; now left).
  apply IH. intros j Hj. apply H. now right.
Qed.

Lemma get_app_l (p rest : bytes) i :
  i < Z.of_nat (length p) -> get (p ++ rest) i = get p i.
Proof.
  intros Hi. unfold get. destruct (Z.ltb_spec i 0); [reflexivity|].
  apply lookup_app_l. lia.
Qed.

Lemma readBigEndian_app (p rest : bytes) start n :
  start + n <= Z.of_nat (length p) ->
  readBigEndian (p ++ rest) start n = readBigEndian p start n.
Proof.
  intros H. unfold readBigEndian. apply fold_left_upto_ext_lt.
  intros x i Hi. rewrite get_app_l by lia. reflexivity.
Qed.

Lemma upto_snoc n : 0 < n -> upto n = upto (n - 1) ++ [n - 1].
Proof.
  intros Hn. replace n with (Z.of_nat (S (Z.to_nat (n - 1)))) at 1 by lia.
  rewrite upto_S. now rewrite Z2Nat.id by lia.
Qed.

(** The accumulation is a number as long as it reads inside of the view,
    and NaN as soon as its last read is outside. *)
Lemma readBigEndian_Num (view : bytes) start n :
  0 <= start -> start + n <= Z.of_nat (length view) ->
  exists v, readBigEndian view start n = Num v.
Proof.
  intros Hs Hn. unfold readBigEndian.
  destruct (Z.le_gt_cases n 0) as [Hle | Hpos].
  { unfold upto. replace (Z.to_nat n) with O by lia. now exists 0. }
  replace n with (Z.of_nat (Z.to_nat n)) by lia.
  apply (fold_upto_ind (fun _ x => exists v, x = Num v)); [now exists 0|].
  intros k x Hk [v ->].
  destruct (lookup_lt_is_Some_2 view (Z.to_nat start + k)) as [b Hb]; [lia|].
  replace (start + Z.of_nat k) with (Z.of_nat (Z.to_nat start + k)) by lia.
  rewrite get_nat, Hb. cbn. eauto.
Qed.

Lemma readBigEndian_NaN (view : bytes) start n :
  0 <= start -> 0 < n -> Z.of_nat (length view) < start + n ->
  readBigEndian view start n = NaN.
Proof.
  intros Hs Hn Hlen. unfold readBigEndian.
  rewrite (upto_snoc n) by lia. rewrite fold_left_app. cbn [fold_left].
  replace (get view (start + (n - 1))) with (@None byte).
  - cbn [ToNumber]. now destruct (mul _ _).
  - unfold get. destruct (Z.ltb_spec (start + (n - 1)) 0); [lia|].
    symmetry. apply lookup_ge_None. lia.
Qed.

Lemma subarray_app_l (p rest : bytes) s e :
  0 <= s <= e -> e <= Z.of_nat (length p) ->
  subarray (p ++ rest) s e = subarray p s e.
Proof.
  intros Hs He.
  replace s with (Z.of_nat (Z.to_nat s)) by lia.
  replace e with (Z.of_nat (Z.to_nat e)) by lia.
  rewrite !subarray_nat by (rewrite ?length_app; lia).
  rewrite drop_app_le by lia.
  rewrite take_app_le by (rewrite length_drop; lia). reflexivity.
Qed.

Lemma announcedLength_app (p rest : bytes) :
  p <> [] -> announcedLength (p ++ rest) = announcedLength p.
Proof. destruct p; [congruence|reflexivity]. Qed.

(** Nothing behind the announced header is read. *)
Lemma parseSFrameHeader_app (p rest : bytes) :
  announcedLength p <= Z.of_nat (length p) ->
  parseSFrameHeader (p ++ rest) = parseSFrameHeader p.
Proof.
  intros Hlen. pose proof (announcedLength_range p) as Hr.
  destruct p as [|b p]; [cbn in Hlen; lia|].
  unfold announcedLength in Hlen, Hr. rewrite get_0 in Hlen, Hr. cbn [ToInt32] in Hlen, Hr.
  unfold parseSFrameHeader.
  change (get ((b :: p) ++ rest) 0) with (Some b). rewrite get_0. cbn [ToInt32].
  pose proof (land_7_range (byte.unsigned b)) as HK.
  pose proof (land_7_range (Z.shiftr (byte.unsigned b) 4)) as HL.
  unfold lengthAdjustment, slice.
  destruct (Z.land (byte.unsigned b) 8 =? 0); cbn [negb].
  - rewrite readBigEndian_app by lia.
    rewrite !(subarray_app_l (b :: p) rest) by lia. reflexivity.
  - rewrite !(readBigEndian_app (b :: p) rest) by lia.
    rewrite !(subarray_app_l (b :: p) rest) by lia. reflexivity.
Qed.

Lemma metadataByte_reserved LEN X K :
  0 <= LEN <= 7 -> 0 <= X <= 1 -> 0 <= K <= 7 ->
  byte.unsigned (metadataByte LEN X K) < 128.
Proof.
  intros HL HX HK.
  assert (HL' : LEN = 0 \/ LEN = 1 \/ LEN = 2 \/ LEN = 3 \/ LEN = 4
                \/ LEN = 5 \/ LEN = 6 \/ LEN = 7) by lia.
  assert (HX' : X = 0 \/ X = 1) by lia.
  assert (HK' : K = 0 \/ K = 1 \/ K = 2 \/ K = 3 \/ K = 4
                \/ K = 5 \/ K = 6 \/ K = 7) by lia.
  clear HL HX HK.
  repeat (destruct HL' as [-> | HL']); try subst LEN;
    (destruct HX' as [-> | ->]);
    repeat (destruct HK' as [-> | HK']); try subst K; reflexivity.
Qed.

(** X1.  A generated header is self-delimiting.  With a sound logarithm,
    for a key id up to [SFRAME_HEADER_MAXKEYID] and a counter up to 2^53,
    parsing the bytes of the generated header followed by any other bytes
    (in a frame: the cipher text and the tag) returns the very record that
    [generateSFrameHeader] returned: the same header bytes, key id,
    counter and raw counter. *)
Theorem header_self_delimiting {M : JSMath} :
  log_quotient_sound M ->
  forall kid ctr (rest : bytes),
    0 <= kid <= SFRAME_HEADER_MAXKEYID -> 0 <= ctr <= 2 ^ 53 ->
    exists h,
      generateSFrameHeader kid ctr = Ok h
      /\ parseSFrameHeader (data h ++ rest) = h.
Proof.
  intros Hsound kid ctr rest Hk Hc.
  destruct (generate_parse Hsound kid ctr Hk Hc) as (h & Hgen & Hparse & _).
  exists h. split; [exact Hgen | apply Hparse].
Qed.

Lemma header_self_delimiting_witness :
  exists h,
    @generateSFrameHeader binary64_math 0xbbccdd 0x100 = Ok h
    /\ parseSFrameHeader (data h ++ map byte.of_Z [0xca; 0xfe]) = h.
Proof.
  apply (@header_self_delimiting binary64_math binary64_math_sound 0xbbccdd 0x100).
  - vm_compute. split; discriminate.
  - vm_compute. split; discriminate.
Defined.

(** X2.  The shape of a generated header.  With a sound logarithm, for a
    key id up to [SFRAME_HEADER_MAXKEYID] and a counter up to 2^53, the
    header has 2 to 17 bytes and ends with the raw counter, which has 1 to
    8 bytes and denotes the counter, most significant byte first; the
    reserved bit of the metadata byte is 0; the key id travels in the
    metadata byte exactly when it is at most 7; and the metadata byte
    announces the length that the header has. *)
Theorem generated_header_shape {M : JSMath} :
  log_quotient_sound M ->
  forall kid ctr h,
    0 <= kid <= SFRAME_HEADER_MAXKEYID -> 0 <= ctr <= 2 ^ 53 ->
    generateSFrameHeader kid ctr = Ok h ->
    (2 <= length (data h) <= 17)%nat
    /\ (1 <= length (rawCounter h) <= 8)%nat
    /\ drop (length (data h) - length (rawCounter h)) (data h) = rawCounter h
    /\ beValue (rawCounter h) 0 = ctr
    /\ (exists m, data h !! 0%nat = Some m /\ byte.unsigned m < 128)
    /\ (kid <= 7 <-> length (data h) = S (length (rawCounter h)))
    /\ announcedLength (data h) = Z.of_nat (length (data h)).
Proof.
  intros Hsound kid ctr h Hk Hc Hgen.
  destruct (calculateKLENorLEN_sound Hsound ctr Hc) as (lc & Hlc & Hlc7 & Hclt).
  assert (Hc64 : 0 <= ctr < 2 ^ 64) by lia.
  assert (Hraw : beValue (bigEndian (Z.to_nat (lc + 1)) ctr) 0 = ctr).
  { apply beValue_bigEndian_small. rewrite Z2Nat.id by lia. lia. }
  destruct (Z.le_gt_cases kid 7) as [Hbasic | Hext].
  - rewrite (generateSFrameHeader_basic kid ctr lc) in Hgen by (assumption || lia).
    injection Hgen as <-. cbn [data rawCounter].
    destruct (metadata_decode lc 0 kid) as (D1 & D2 & D3); [lia..|].
    cbn [length]. rewrite length_bigEndian.
    split; [lia|]. split; [lia|]. split.
    { replace (S (Z.to_nat (lc + 1)) - Z.to_nat (lc + 1))%nat with 1%nat by lia.
      reflexivity. }
    split; [exact Hraw|]. split.
    { eexists. split; [reflexivity|]. apply metadataByte_reserved; lia. }
    split; [lia|].
    unfold announcedLength. rewrite get_0. cbn [ToInt32].
    rewrite D1, D2. change (8 * 0 =? 0) with true. cbv iota. lia.
  - unfold SFRAME_HEADER_MAXKEYID in Hk.
    destruct (calculateKLENorLEN_sound Hsound kid ltac:(lia)) as (lk & Hlk & Hlk7 & Hklt).
    rewrite (generateSFrameHeader_extended kid ctr lk lc) in Hgen
      by (assumption || unfold SFRAME_HEADER_MAXKEYID; lia).
    injection Hgen as <-. cbn [data rawCounter].
    destruct (metadata_decode lc 1 lk) as (D1 & D2 & D3); [lia..|].
    cbn [length]. rewrite length_app, !length_bigEndian.
    split; [lia|]. split; [lia|]. split.
    { replace (S (Z.to_nat (lk + 1) + Z.to_nat (lc + 1)) - Z.to_nat (lc + 1))%nat
        with (S (Z.to_nat (lk + 1))) by lia.
      cbn [drop]. rewrite <- (length_bigEndian (Z.to_nat (lk + 1)) kid) at 1.
      apply drop_app_length. }
    split; [exact Hraw|]. split.
    { eexists. split; [reflexivity|]. apply metadataByte_reserved; lia. }
    split; [lia|].
    unfold announcedLength. rewrite get_0. cbn [ToInt32].
    rewrite D1, D2, D3. change (8 * 1 =? 0) with false. cbv iota. lia.
Qed.

Lemma generated_header_shape_witness :
  exists h,
    @generateSFrameHeader binary64_math 0xbbccdd 0x100 = Ok h
    /\ (2 <= length (data h) <= 17)%nat
    /\ (1 <= length (rawCounter h) <= 8)%nat
    /\ drop (length (data h) - length (rawCounter h)) (data h) = rawCounter h
    /\ beValue (rawCounter h) 0 = 0x100
    /\ (exists m, data h !! 0%nat = Some m /\ byte.unsigned m < 128)
    /\ (0xbbccdd <= 7 <-> length (data h) = S (length (rawCounter h)))
    /\ announcedLength (data h) = Z.of_nat (length (data h)).
Proof.
  eexists. split; [vm_compute; reflexivity|].
  apply (@generated_header_shape binary64_math binary64_math_sound 0xbbccdd 0x100).
  - vm_compute. split; discriminate.
  - vm_compute. split; discriminate.
  - vm_compute. reflexivity.
Defined.

(** X3.  What [parseSFrameHeader] reads of a buffer.  The parsed counter
    is NaN exactly when the buffer is shorter than the header that its
    first byte announces (the empty buffer included).  When the buffer is
    long enough, the parsed [data] are its first bytes, as many as
    announced, and the result does not depend on what follows them: the
    header bytes followed by anything else parse to the same record. *)
Theorem parseSFrameHeader_prefix (buffer : bytes) :
  let h := parseSFrameHeader buffer in
  (counter h = NaN <-> Z.of_nat (length buffer) < announcedLength buffer)
  /\ (announcedLength buffer <= Z.of_nat (length buffer) ->
      data h = take (Z.to_nat (announcedLength buffer)) buffer
      /\ forall rest, parseSFrameHeader (data h ++ rest) = h).
Proof.
  intros h. split.
  - subst h. unfold parseSFrameHeader, announcedLength.
    pose proof (land_7_range (ToInt32 (get buffer 0))) as HK.
    pose proof (land_7_range (Z.shiftr (ToInt32 (get buffer 0)) 4)) as HL.
    unfold lengthAdjustment.
    destruct (Z.land (ToInt32 (get buffer 0)) 8 =? 0); cbn [negb counter].
    + split.
      * intros Hc.
        destruct (Z.le_gt_cases
                    (1 + (Z.land (Z.shiftr (ToInt32 (get buffer 0)) 4) 7 + 1))
                    (Z.of_nat (length buffer))) as [Hle|]; [|lia].
        destruct (readBigEndian_Num buffer 1
                    (Z.land (Z.shiftr (ToInt32 (get buffer 0)) 4) 7 + 1))
          as [v Hv]; [lia|lia|]. congruence.
      * intros Hlt. apply readBigEndian_NaN; lia.
    + split.
      * intros Hc.
        destruct (Z.le_gt_cases
                    (1 + (Z.land (ToInt32 (get buffer 0)) 7 + 1)
                     + (Z.land (Z.shiftr (ToInt32 (get buffer 0)) 4) 7 + 1))
                    (Z.of_nat (length buffer))) as [Hle|]; [|lia].
        destruct (readBigEndian_Num buffer (1 + (Z.land (ToInt32 (get buffer 0)) 7 + 1))
                    (Z.land (Z.shiftr (ToInt32 (get buffer 0)) 4) 7 + 1))
          as [v Hv]; [lia|lia|]. congruence.
      * intros Hlt. apply readBigEndian_NaN; lia.
  - intros Hlen. pose proof (announcedLength_range buffer) as Hr.
    set (n := Z.to_nat (announcedLength buffer)).
    assert (Hsplit : buffer = take n buffer ++ drop n buffer)
      by (symmetry; apply take_drop).
    assert (Hne : take n buffer <> []).
    { intros E. apply (f_equal length) in E. rewrite length_take in E.
      cbn [length] in E. lia. }
    assert (Hann : announcedLength (take n buffer) = announcedLength buffer).
    { rewrite Hsplit at 2. symmetry. now apply announcedLength_app. }
    assert (Hp : parseSFrameHeader (take n buffer) = h).
    { subst h. rewrite Hsplit at 2. symmetry. apply parseSFrameHeader_app.
      rewrite Hann, length_take. lia. }
    assert (Hd : data h = take n buffer).
    { subst h. unfold parseSFrameHeader, announcedLength in *.
      unfold lengthAdjustment.
      destruct (Z.land (ToInt32 (get buffer 0)) 8 =? 0); cbn [negb data].
      - rewrite <- subarray_take. f_equal. lia.
      - rewrite <- subarray_take. f_equal. lia. }
    split; [exact Hd|]. intros rest. rewrite Hd, <- Hp.
    apply parseSFrameHeader_app. rewrite Hann, length_take. lia.
Qed.

(** X4.  A key id that is negative or above [SFRAME_HEADER_MAXKEYID] is
    rejected with InvalidHeaderKey wherever an id enters: by
    [generateSFrameHeader] whatever the counter, by the constructors of
    [Sender] and [Receiver], by [Sender.setSenderId], which leaves the
    sender as it is, and by [Context.setSenderEncryptionKey] and, for an
    id without a receiver, [Context.setReceiverEncryptionKey], which leave
    the context as it is. *)
Theorem invalid_keyId_rejected {M : JSMath} {W : WebCrypto} (kid : Z) :
  kid < 0 \/ SFRAME_HEADER_MAXKEYID < kid ->
  (forall ctr, generateSFrameHeader kid ctr = Throw (SFrameError InvalidHeaderKey))
  /\ Sender.new kid = Throw (SFrameError InvalidHeaderKey)
  /\ Receiver.new kid = Throw (SFrameError InvalidHeaderKey)
  /\ (forall s : Sender.t,
        Sender.setSenderId s kid = (Throw (SFrameError InvalidHeaderKey), s))
  /\ (forall (ctx : Context.t) (key : bytes),
        Context.setSenderEncryptionKey ctx kid key
        = (Throw (SFrameError InvalidHeaderKey), ctx))
  /\ (forall (ctx : Context.t) (key : bytes),
        Context.receivers ctx !! Num kid = None ->
        Context.setReceiverEncryptionKey ctx kid key
        = (Throw (SFrameError InvalidHeaderKey), ctx)).
Proof.
  intros Hkid.
  assert (Hcheck : checkSFrameHeaderKeyId kid = Throw (SFrameError InvalidHeaderKey)).
  { unfold checkSFrameHeaderKeyId.
    destruct (Z.ltb_spec kid 0); [reflexivity|].
    destruct (Z.ltb_spec SFRAME_HEADER_MAXKEYID kid); [reflexivity|lia]. }
  split; [intros ctr; unfold generateSFrameHeader; now rewrite Hcheck|].
  split; [unfold Sender.new; now rewrite Hcheck|].
  split; [unfold Receiver.new; now rewrite Hcheck|].
  split; [intros s; unfold Sender.setSenderId; now rewrite Hcheck|].
  split.
  - intros ctx key. unfold Context.setSenderEncryptionKey, Sender.new, Sender.setSenderId.
    rewrite Hcheck. now destruct (Context.sender ctx).
  - intros ctx key Hnone. unfold Context.setReceiverEncryptionKey, Receiver.new.
    now rewrite Hnone, Hcheck.
Qed.

Lemma invalid_keyId_rejected_witness :
  @generateSFrameHeader binary64_math (-1) 0 = Throw (SFrameError InvalidHeaderKey)
  /\ @Context.setSenderEncryptionKey Toy.provider Context.new (2 ^ 53) Sample.shared
     = (Throw (SFrameError InvalidHeaderKey), Context.new).
Proof.
  split.
  - apply (proj1 (@invalid_keyId_rejected binary64_math Toy.provider (-1)
                    ltac:(left; reflexivity))).
  - apply (@invalid_keyId_rejected binary64_math Toy.provider (2 ^ 53)
             ltac:(right; reflexivity)).
Defined.

(** ** IV.ts: any counter, any salt *)

Lemma fold_left_None {A} (f : bytes -> A -> option bytes) (l : list A) :
  fold_left (fun view i => match view with Some iv => f iv i | None => None end) l None
  = None.
Proof. induction l as [|i l IH]; [reflexivity | exact IH]. Qed.

(** A counter that is longer than the salt makes the first [setUint8]
    fail. *)
Lemma generateIV_long_counter (ctr salt : bytes) :
  (length salt < length ctr)%nat ->
  generateIV ctr salt = Throw (SFrameError InitializationVectorError).
Proof.
  intros Hlen. unfold generateIV.
  destruct ctr as [|c ctr]; [cbn in Hlen; lia|].
  match goal with
  | |- context [fold_left ?f (upto (Z.of_nat (length (c :: ctr)))) (Some ?a)] =>
      assert (Hinner : fold_left f (upto (Z.of_nat (length (c :: ctr)))) (Some a) = None)
  end.
  { unfold upto. rewrite Nat2Z.id. cbn [length seq map fold_left].
    match goal with
    | |- fold_left _ _ ?x = None => replace x with (@None bytes); [apply fold_left_None|]
    end.
    unfold setUint8. cbn [length] in Hlen.
    destruct (Z.ltb_spec (Z.of_nat (length salt) - Z.of_nat (S (length ctr)) + Z.of_nat 0) 0);
      [reflexivity|lia]. }
  rewrite Hinner, fold_left_None. reflexivity.
Qed.

Lemma lxor_byte_range a b : 0 <= a < 2 ^ 8 -> 0 <= b < 2 ^ 8 -> 0 <= Z.lxor a b < 2 ^ 8.
Proof.
  intros Ha Hb.
  assert (H0 : 0 <= Z.lxor a b) by (apply Z.lxor_nonneg; lia).
  split; [exact H0|].
  destruct (Z.eq_dec (Z.lxor a b) 0) as [-> | Hne]; [lia|].
  apply Z.log2_lt_pow2; [lia|].
  pose proof (Z.log2_lxor a b ltac:(lia) ltac:(lia)) as Hl.
  assert (La : Z.log2 a < 8).
  { destruct (Z.eq_dec a 0) as [-> | ?]; [cbn; lia|]. apply Z.log2_lt_pow2; lia. }
  assert (Lb : Z.log2 b < 8).
  { destruct (Z.eq_dec b 0) as [-> | ?]; [cbn; lia|]. apply Z.log2_lt_pow2; lia. }
  lia.
Qed.

Lemma byte_xor_cancel (x x' y : byte) : byte.xor x y = byte.xor x' y -> x = x'.
Proof.
  intros H. apply (f_equal byte.unsigned) in H. unfold byte.xor in H.
  rewrite !byte.unsigned_of_Z in H. unfold byte.wrap in H.
  pose proof (byte.unsigned_range x) as Rx. pose proof (byte.unsigned_range x') as Rx'.
  pose proof (byte.unsigned_range y) as Ry.
  rewrite !Z.mod_small in H by (apply lxor_byte_range; assumption).
  apply byte.unsigned_inj.
  apply (f_equal (fun z => Z.lxor z (byte.unsigned y))) in H.
  now rewrite !Z.lxor_assoc, !Z.lxor_nilpotent, !Z.lxor_0_r in H.
Qed.

Lemma xorBytes_cancel (a a' s : bytes) :
  length a = length s -> length a' = length s ->
  xorBytes a s = xorBytes a' s -> a = a'.
Proof.
  revert a a'. induction s as [|y s IH]; intros a a' Ha Ha' H.
  - destruct a, a'; cbn in *; congruence.
  - destruct a as [|x a], a' as [|x' a']; cbn in Ha, Ha'; try lia.
    cbn [xorBytes] in H. injection H as Hx Hr.
    f_equal; [now apply (byte_xor_cancel x x' y) | apply IH; congruence].
Qed.

Lemma beValue_alloc k (c : bytes) : beValue (alloc k ++ c) 0 = beValue c 0.
Proof.
  rewrite beValue_app. f_equal.
  induction k as [|k IH]; [reflexivity|].
  cbn [alloc repeat beValue fold_left]. exact IH.
Qed.

(** Counters that give the same IV under one salt denote the same
    number. *)
Lemma generateIV_value (c1 c2 salt iv : bytes) :
  generateIV c1 salt = Ok iv -> generateIV c2 salt = Ok iv ->
  beValue c1 0 = beValue c2 0 /\ (length c1 = length c2 -> c1 = c2).
Proof.
  intros H1 H2.
  destruct (Nat.le_gt_cases (length c1) (length salt)) as [L1|L1];
    [|rewrite generateIV_long_counter in H1 by lia; discriminate].
  destruct (Nat.le_gt_cases (length c2) (length salt)) as [L2|L2];
    [|rewrite generateIV_long_counter in H2 by lia; discriminate].
  rewrite generateIV_spec in H1, H2 by lia.
  injection H1 as H1. injection H2 as H2. rewrite <- H2 in H1.
  apply xorBytes_cancel in H1;
    [|rewrite length_app, length_alloc; lia..].
  split.
  - rewrite <- (beValue_alloc (length salt - length c1) c1), H1. apply beValue_alloc.
  - intros E. rewrite E in H1. now apply app_inv_head in H1.
Qed.

(** X5.  [generateIV] on every counter and salt.  When the counter is not
    longer than the salt, the IV is the counter, right aligned in as many
    zero bytes as the salt has, xored with the salt; it has the length of
    the salt, whatever that is.  When the counter is longer than the salt,
    [generateIV] fails with InitializationVectorError. *)
Theorem generateIV_total (ctr salt : bytes) :
  generateIV ctr salt
  = if (length ctr <=? length salt)%nat
    then Ok (xorBytes (alloc (length salt - length ctr) ++ ctr) salt)
    else Throw (SFrameError InitializationVectorError).
Proof.
  destruct (Nat.leb_spec (length ctr) (length salt)).
  - now apply generateIV_spec.
  - now apply generateIV_long_counter.
Qed.

Section FrameIV.
Context {M : JSMath} {W : WebCrypto}.
Hypothesis Hsound : log_quotient_sound M.
Hypothesis Hhkdf : hkdf_length W.

Lemma generated_rawCounter kid ctr h :
  0 <= kid <= SFRAME_HEADER_MAXKEYID -> 0 <= ctr <= 2 ^ 53 ->
  generateSFrameHeader kid ctr = Ok h ->
  exists lc,
    calculateKLENorLEN ctr = Num lc /\ 0 <= lc <= 7 /\ ctr < 256 ^ (lc + 1)
    /\ rawCounter h = bigEndian (Z.to_nat (lc + 1)) ctr.
Proof.
  intros Hk Hc Hgen.
  destruct (calculateKLENorLEN_sound Hsound ctr Hc) as (lc & Hlc & Hlc7 & Hclt).
  exists lc. repeat (split; [assumption|]).
  assert (Hc64 : 0 <= ctr < 2 ^ 64) by lia.
  destruct (Z.le_gt_cases kid 7) as [Hbasic | Hext].
  - rewrite (generateSFrameHeader_basic kid ctr lc) in Hgen by (assumption || lia).
    now injection Hgen as <-.
  - unfold SFRAME_HEADER_MAXKEYID in Hk.
    destruct (calculateKLENorLEN_sound Hsound kid ltac:(lia)) as (lk & Hlk & Hlk7 & Hklt).
    rewrite (generateSFrameHeader_extended kid ctr lk lc) in Hgen
      by (assumption || unfold SFRAME_HEADER_MAXKEYID; lia).
    now injection Hgen as <-.
Qed.

(** X6.  One IV per counter.  For a cipher suite created from key
    material, with a sound logarithm and a key derivation that returns the
    length it is asked for: the IV of every generated header exists and
    has 12 bytes, and the IVs of two headers, whatever their key ids, are
    equal exactly when their counters are.  So frames of one sender never
    share an IV below 2^53, and the key id does not enter the IV: two
    senders that use the same key material and the same counter use the
    same IV. *)
Theorem frame_IV_unique variant raw (K : CipherSuite) kid kid' ctr ctr' h h' :
  createCipherSuite variant raw = Ok K ->
  0 <= kid <= SFRAME_HEADER_MAXKEYID -> 0 <= kid' <= SFRAME_HEADER_MAXKEYID ->
  0 <= ctr <= 2 ^ 53 -> 0 <= ctr' <= 2 ^ 53 ->
  generateSFrameHeader kid ctr = Ok h -> generateSFrameHeader kid' ctr' = Ok h' ->
  exists iv iv',
    generateIV (rawCounter h) (saltKey K) = Ok iv
    /\ generateIV (rawCounter h') (saltKey K) = Ok iv'
    /\ length iv = 12%nat
    /\ (iv = iv' <-> ctr = ctr').
Proof.
  intros HK Hk Hk' Hc Hc' Hgen Hgen'.
  destruct (createCipherSuite_ok Hhkdf variant raw K HK) as [_ Hsalt].
  destruct (generated_rawCounter kid ctr h Hk Hc Hgen) as (lc & Hlc & Hlc7 & Hlt & Hraw).
  destruct (generated_rawCounter kid' ctr' h' Hk' Hc' Hgen')
    as (lc' & Hlc' & Hlc7' & Hlt' & Hraw').
  assert (Hlen : (length (rawCounter h) <= length (saltKey K))%nat)
    by (rewrite Hraw, length_bigEndian, Hsalt; lia).
  assert (Hlen' : (length (rawCounter h') <= length (saltKey K))%nat)
    by (rewrite Hraw', length_bigEndian, Hsalt; lia).
  eexists _, _.
  split; [now apply generateIV_spec|]. split; [now apply generateIV_spec|].
  split.
  { rewrite length_xorBytes, length_app, length_alloc. lia. }
  split.
  - intros E.
    destruct (generateIV_value (rawCounter h) (rawCounter h') (saltKey K) _
                (generateIV_spec _ _ Hlen)
                ltac:(rewrite E; now apply generateIV_spec)) as [Hv _].
    rewrite Hraw, Hraw' in Hv.
    rewrite !beValue_bigEndian_small in Hv by (rewrite Z2Nat.id by lia; lia).
    exact Hv.
  - intros <-. rewrite Hlc in Hlc'. injection Hlc' as <-.
    now rewrite Hraw, Hraw'.
Qed.

End FrameIV.

Lemma frame_IV_unique_witness :
  exists iv iv',
    generateIV (map byte.of_Z [0x01; 0x00]) (saltKey Sample.key) = Ok iv
    /\ generateIV (map byte.of_Z [0xff]) (saltKey Sample.key) = Ok iv'
    /\ length iv = 12%nat
    /\ (iv = iv' <-> 0x100 = 0xff).
Proof.
  apply (@frame_IV_unique binary64_math Toy.provider binary64_math_sound Toy_hkdf_length
           AES_GCM_256_SHA512 Sample.shared Sample.key 5 0xbbccdd 0x100 0xff
           {| data := map byte.of_Z [0x15; 0x01; 0x00]; keyId := Num 5;
              counter := Num 0x100; rawCounter := map byte.of_Z [0x01; 0x00] |}
           {| data := map byte.of_Z [0x0a; 0xbb; 0xcc; 0xdd; 0xff]; keyId := Num 0xbbccdd;
              counter := Num 0xff; rawCounter := map byte.of_Z [0xff] |}).
  - vm_compute. reflexivity.
  - vm_compute. split; discriminate.
  - vm_compute. split; discriminate.
  - vm_compute. split; discriminate.
  - vm_compute. split; discriminate.
  - vm_compute. reflexivity.
  - vm_compute. reflexivity.
Defined.

(** ** SFrameCrypto.ts: the authentication of a frame *)

Lemma strict_eq_Some (t : byte) (o : option byte) :
  strict_eq (Some t) o = true <-> o = Some t.
Proof.
  destruct o as [c|]; cbn; [|split; discriminate].
  split.
  - intros H. apply Byte.byte_dec_bl in H. now subst.
  - intros [= ->]. now apply Byte.byte_dec_lb.
Qed.

(** The loop that compares the tag of the frame with the signature. *)
Lemma authenticated_loop (tag authCode : bytes) :
  fold_left
    (fun authenticated i => authenticated && strict_eq (get tag i) (get authCode i))
    (upto (Z.of_nat (length tag))) true = true
  <-> take (length tag) authCode = tag.
Proof.
  assert (Hinv :
    (fun k x => x = true <-> take k authCode = take k tag)
      (length tag)
      (fold_left
         (fun authenticated i => authenticated && strict_eq (get tag i) (get authCode i))
         (upto (Z.of_nat (length tag))) true)).
  { apply fold_upto_ind; [now rewrite !take_0|].
    intros k x Hk IH.
    destruct (lookup_lt_is_Some_2 tag k Hk) as [t Ht].
    rewrite !get_nat, Ht, andb_true_iff, IH, strict_eq_Some.
    rewrite (take_S_r tag k t Ht). split.
    - intros [E Hc]. now rewrite (take_S_r authCode k t Hc), E.
    - intros E.
      assert (Hlen : (k < length authCode)%nat).
      { apply (f_equal length) in E.
        rewrite length_take, length_app, length_take in E. cbn [length] in E. lia. }
      destruct (lookup_lt_is_Some_2 authCode k Hlen) as [c Hc].
      rewrite (take_S_r authCode k c Hc) in E.
      apply app_inj_tail in E as [E ->]. split; [exact E | exact Hc]. }
  cbn beta in Hinv. rewrite Hinv. now rewrite firstn_all.
Qed.

(** A tag that is shorter than [nT] never passes. *)
Lemma authenticated_loop_short (tag authCode : bytes) n :
  Z.of_nat (length tag) < n -> n <= Z.of_nat (length authCode) ->
  fold_left
    (fun authenticated i => authenticated && strict_eq (get tag i) (get authCode i))
    (upto n) true = false.
Proof.
  intros Ht Hc. rewrite (upto_snoc n) by lia.
  rewrite fold_left_app. cbn [fold_left].
  replace (get tag (n - 1)) with (@None byte).
  - destruct (lookup_lt_is_Some_2 authCode (Z.to_nat (n - 1))) as [c Hl]; [lia|].
    replace (n - 1) with (Z.of_nat (Z.to_nat (n - 1))) by lia.
    rewrite get_nat, Hl. cbn [strict_eq]. apply andb_false_r.
  - unfold get. destruct (Z.ltb_spec (n - 1) 0); [reflexivity|].
    symmetry. apply lookup_ge_None. lia.
Qed.

(** X7.  [SFrameCrypto.decrypt] authenticates before it decrypts.  Take a
    frame made of [skip] bytes, a signed part at least as long as the
    header, and a last part [tag] of [nT] bytes, and let [authCode] be the
    HMAC of the signed part under the authentication key.  When the first
    [nT] bytes of [authCode] are [tag], the result is that of the cipher on
    the signed part without its first header-many bytes, with additional
    data [header.data], together with [tag].  When they differ, in any
    byte, [decrypt] throws the plain error 'Authentication error', whatever
    the cipher would do. *)
Theorem decrypt_verifies_tag {W : WebCrypto} (cs : SFrameCrypto.t) (header : SFrameHeader)
    (pfx signed tag iv authCode : bytes) :
  Z.of_nat (length tag) = nT (config cs) ->
  (length (data header) <= length signed)%nat ->
  generateIV (rawCounter header) (saltKey cs) = Ok iv ->
  hmac_sign (authKey cs) signed = Some authCode ->
  (take (length tag) authCode = tag ->
   SFrameCrypto.decrypt cs header (pfx ++ signed ++ tag) (Z.of_nat (length pfx))
   = do payload <-
       await (subtle_decrypt (algorithm (config cs)) iv (nK (config cs) * 8)
                (data header) (encryptionKey cs)
                (drop (length (data header)) signed));
     Ok (payload, tag))
  /\ (take (length tag) authCode <> tag ->
      SFrameCrypto.decrypt cs header (pfx ++ signed ++ tag) (Z.of_nat (length pfx))
      = Throw (PlainError "Authentication error")).
Proof.
  intros HnT Hhdr Hiv Hmac.
  assert (Hdec :
    SFrameCrypto.decrypt cs header (pfx ++ signed ++ tag) (Z.of_nat (length pfx))
    = if negb (fold_left
                 (fun authenticated i =>
                    authenticated && strict_eq (get tag i) (get authCode i))
                 (upto (Z.of_nat (length tag))) true)
      then Throw (PlainError "Authentication error")
      else
        do payload <-
          await (subtle_decrypt (algorithm (config cs)) iv (nK (config cs) * 8)
                   (data header) (encryptionKey cs)
                   (drop (length (data header)) signed));
        Ok (payload, tag)).
  { unfold SFrameCrypto.decrypt. rewrite Hiv. cbn [bind].
    set (frame := pfx ++ signed ++ tag).
    set (hdr := take (length (data header)) signed).
    set (enc := drop (length (data header)) signed).
    assert (Hsplit : signed = hdr ++ enc) by (symmetry; apply take_drop).
    assert (Hhl : length hdr = length (data header))
      by (subst hdr; rewrite length_take; lia).
    assert (Hlen : length frame = (length pfx + (length signed + length tag))%nat)
      by (subst frame; rewrite !length_app; lia).
    assert (Htag :
      subarray frame
        (Z.of_nat (length pfx) + (Z.of_nat (length frame) - Z.of_nat (length pfx))
         - nT (config cs))
        (Z.of_nat (length pfx) + (Z.of_nat (length frame) - Z.of_nat (length pfx)))
      = tag).
    { replace (Z.of_nat (length pfx) + (Z.of_nat (length frame) - Z.of_nat (length pfx))
               - nT (config cs))
        with (Z.of_nat (length (pfx ++ signed))) by (rewrite !length_app; lia).
      replace (Z.of_nat (length pfx) + (Z.of_nat (length frame) - Z.of_nat (length pfx)))
        with (Z.of_nat (length (pfx ++ signed) + length tag))
        by (rewrite !length_app; lia).
      pose proof (subarray_mid (pfx ++ signed) tag []) as Hs.
      rewrite app_nil_r, <- !app_assoc in Hs. exact Hs. }
    assert (Hpayload :
      subarray frame (Z.of_nat (length pfx) + Z.of_nat (length (data header)))
        (Z.of_nat (length pfx) + (Z.of_nat (length frame) - Z.of_nat (length pfx))
         - nT (config cs))
      = enc).
    { replace (Z.of_nat (length pfx) + Z.of_nat (length (data header)))
        with (Z.of_nat (length (pfx ++ hdr))) by (rewrite !length_app; lia).
      replace (Z.of_nat (length pfx) + (Z.of_nat (length frame) - Z.of_nat (length pfx))
               - nT (config cs))
        with (Z.of_nat (length (pfx ++ hdr) + length enc)).
      2:{ rewrite !length_app. rewrite Hsplit, length_app in Hlen. lia. }
      pose proof (subarray_mid (pfx ++ hdr) enc tag) as Hs.
      rewrite <- !app_assoc in Hs. subst frame. rewrite Hsplit at 1.
      rewrite <- !app_assoc. exact Hs. }
    rewrite Htag, Hpayload.
    assert (Hsigned :
      subarray frame (Z.of_nat (length pfx))
        (Z.of_nat (length pfx) + Z.of_nat (length (data header)) + Z.of_nat (length enc))
      = signed).
    { replace (Z.of_nat (length pfx) + Z.of_nat (length (data header))
               + Z.of_nat (length enc))
        with (Z.of_nat (length pfx + length signed)).
      2:{ rewrite Hsplit at 1. rewrite length_app. lia. }
      apply subarray_mid. }
    rewrite Hsigned, Hmac. cbn [await bind]. rewrite <- HnT. reflexivity. }
  rewrite Hdec. split; intros Htag.
  - apply authenticated_loop in Htag. now rewrite Htag.
  - destruct (fold_left _ _ true) eqn:E; [|reflexivity].
    apply authenticated_loop in E. contradiction.
Qed.

Lemma decrypt_verifies_tag_witness :
  @SFrameCrypto.decrypt Toy.provider Sample.key
    {| data := map byte.of_Z [0x05; 0x00]; keyId := Num 5; counter := Num 0;
       rawCounter := map byte.of_Z [0x00] |}
    ([] ++ map byte.of_Z [0x05; 0x00; 0xaa] ++ alloc 16) (Z.of_nat (length (@nil byte)))
  = Throw (PlainError "Authentication error").
Proof.
  refine (proj2 (@decrypt_verifies_tag Toy.provider Sample.key
                   {| data := map byte.of_Z [0x05; 0x00]; keyId := Num 5; counter := Num 0;
                      rawCounter := map byte.of_Z [0x00] |}
                   [] (map byte.of_Z [0x05; 0x00; 0xaa]) (alloc 16)
                   (xorBytes (alloc 11 ++ map byte.of_Z [0x00]) (saltKey Sample.key))
                   (repeat (Toy.checksum (authKey Sample.key
                                          ++ map byte.of_Z [0x05; 0x00; 0xaa])) 32)
                   _ _ _ _) _).
  - reflexivity.
  - cbn [length map data]. lia.
  - vm_compute. reflexivity.
  - reflexivity.
  - vm_compute. discriminate.
Defined.

Lemma length_subarray (a : bytes) b e : (length (subarray a b e) <= length a)%nat.
Proof.
  unfold subarray. rewrite length_take, length_drop. lia.
Qed.

Section ShortFrames.
Context {W : WebCrypto}.
Hypothesis Hmac : hmac_sha256 W.

Lemma SFrameCrypto_decrypt_short (cs : SFrameCrypto.t) (header : SFrameHeader)
    (frame : bytes) skip :
  Z.of_nat (length frame) < nT (config cs) <= 32 ->
  exists e, SFrameCrypto.decrypt cs header frame skip = Throw e.
Proof.
  intros HnT. unfold SFrameCrypto.decrypt.
  destruct (generateIV _ _) as [iv|e]; [|now exists e]. cbn [bind].
  match goal with
  | |- context [hmac_sign ?k ?m] => destruct (Hmac k m) as (authCode & -> & Hlen)
  end.
  cbn [await bind].
  rewrite authenticated_loop_short; [cbn [negb]; eauto| |lia].
  pose proof (length_subarray frame
                (skip + (Z.of_nat (length frame) - skip) - nT (config cs))
                (skip + (Z.of_nat (length frame) - skip))).
  lia.
Qed.

Lemma tryKeys_short (keys : list SFrameCrypto.t) (header : SFrameHeader)
    (frame : bytes) skip :
  Forall (fun k => Z.of_nat (length frame) < nT (config k) <= 32) keys ->
  Receiver.tryKeys keys header frame skip = None.
Proof.
  induction 1 as [|k keys Hk _ IH]; [reflexivity|].
  cbn [Receiver.tryKeys].
  destruct (SFrameCrypto_decrypt_short k header frame skip Hk) as [e ->]. exact IH.
Qed.

(** X8.  A frame that is shorter than the tag is never decrypted.  With an
    HMAC of 32 bytes, when the receiver for the key id of the frame holds
    only keys whose tag length [nT] exceeds the length of the whole frame
    (16 for the keys that a context creates), [Context.decrypt] fails with
    ReplayAttackError or DecryptionFailure, whatever the skip, and leaves
    the context as it is.  The empty frame is such a frame. *)
Theorem short_frame_rejected (ctx : Context.t) (frame : bytes) skip (r : Receiver.t) :
  Context.receivers ctx !! keyId (parseSFrameHeader (Context.subarray_from frame skip))
  = Some r ->
  Forall (fun k => Z.of_nat (length frame) < nT (config k) <= 32) (Receiver.keyring r) ->
  Context.decrypt ctx frame skip = (Throw (SFrameError ReplayAttackError), ctx)
  \/ Context.decrypt ctx frame skip = (Throw (SFrameError DecryptionFailure), ctx).
Proof.
  intros Hl Hkeys. unfold Context.decrypt. rewrite Hl.
  unfold Receiver.decrypt, Receiver.checkForReplayAttack.
  destruct ctx as [sender receivers]. cbn [Context.sender Context.receivers] in *.
  destruct (lt _ _ && gt _ _).
  - left. now rewrite (insert_id _ _ _ Hl).
  - right. rewrite (tryKeys_short _ _ _ _ Hkeys). now rewrite (insert_id _ _ _ Hl).
Qed.

End ShortFrames.

Lemma short_frame_rejected_witness :
  @Context.decrypt Toy.provider Sample.receiver (map byte.of_Z [0x05; 0x00; 0xaa]) 0
  = (Throw (SFrameError ReplayAttackError), Sample.receiver)
  \/ @Context.decrypt Toy.provider Sample.receiver (map byte.of_Z [0x05; 0x00; 0xaa]) 0
     = (Throw (SFrameError DecryptionFailure), Sample.receiver).
Proof.
  apply (@short_frame_rejected Toy.provider Toy_hmac_sha256 Sample.receiver
           (map byte.of_Z [0x05; 0x00; 0xaa]) 0 (Receiver.mk (Num (-1)) [Sample.key])).
  - vm_compute. reflexivity.
  - apply List.Forall_cons; [|apply List.Forall_nil]. vm_compute.
    split; [reflexivity | discriminate].
Defined.

(** ** Receiver.ts and Context.ts: what decrypting does to the state *)

Section ReceiverState.
Context {W : WebCrypto}.

Lemma tryKeys_None (keys : list SFrameCrypto.t) (h : SFrameHeader) (frame : bytes) skip :
  Receiver.tryKeys keys h frame skip = None
  <-> Forall (fun k => exists e, SFrameCrypto.decrypt k h frame skip = Throw e) keys.
Proof.
  induction keys as [|k keys IH]; cbn [Receiver.tryKeys].
  - split; [constructor | reflexivity].
  - destruct (SFrameCrypto.decrypt k h frame skip) as [r|e] eqn:Hd.
    + split; [discriminate|]. intros H. apply Forall_cons in H as [[e He] _]. congruence.
    + rewrite IH. split.
      * intros H. constructor; eauto.
      * intros H. now apply Forall_cons in H as [_ H].
Qed.

(** X9.  When decryption fails.  [Receiver.decrypt] fails with
    DecryptionFailure exactly when the frame passes the replay check and
    every key of the keyring rejects it, for whatever reason (a wrong
    tag, a rejection by the cipher, an IV that cannot be built); a
    receiver without keys fails so on every frame that passes the replay
    check. *)
Theorem decryptionFailure_iff (r : Receiver.t) (h : SFrameHeader) (frame : bytes) skip :
  fst (Receiver.decrypt r h frame skip) = Throw (SFrameError DecryptionFailure)
  <-> Receiver.checkForReplayAttack r h = Ok tt
      /\ Forall (fun k => exists e, SFrameCrypto.decrypt k h frame skip = Throw e)
           (Receiver.keyring r).
Proof.
  rewrite <- tryKeys_None. unfold Receiver.decrypt, Receiver.checkForReplayAttack.
  destruct (lt _ _ && gt _ _); cbn [fst].
  - split; [discriminate | intros [? _]; discriminate].
  - destruct (Receiver.tryKeys _ _ _ _) as [[decryptedFrame authTag]|].
    + split; [|intros [_ ?]; discriminate].
      destruct (if skip =? 0 then _ else _); cbn [fst]; discriminate.
    + cbn [fst]. split; auto.
Qed.



(** What a call of [Receiver.decrypt] can do to the receiver. *)
Lemma Receiver_decrypt_state (r : Receiver.t) (h : SFrameHeader) (frame : bytes) skip :
  match Receiver.decrypt r h frame skip with
  | (Ok _, r') =>
      r' = Receiver.mk (JS.max (counter h) (Receiver.maxReceivedCounter r))
             (Receiver.keyring r)
      /\ Receiver.checkForReplayAttack r h = Ok tt
  | (Throw _, r') => r' = r
  end.
Proof.
  unfold Receiver.decrypt.
  destruct (Receiver.checkForReplayAttack r h) as [[]|e]; [|reflexivity].
  destruct (Receiver.tryKeys _ _ _ _) as [[decryptedFrame authTag]|]; [|reflexivity].
  destruct (if skip =? 0 then _ else _); [split|]; reflexivity.
Qed.


(** X10.  What [Context.decrypt] can change.  Whatever the frame, the
    sender of the context and the receivers for other key ids than that of
    the frame stay as they are.  When the call fails, for whatever reason,
    the whole context stays as it is: a frame that is refused does not
    move the replay window.  When it succeeds, the receiver for the key id
    of the frame keeps its keyring and records [Math.max] of the counter
    of the frame and the highest counter it had. *)
Theorem Context_decrypt_frame_condition (ctx : Context.t) (frame : bytes) skip :
  let h := parseSFrameHeader (Context.subarray_from frame skip) in
  let r := fst (Context.decrypt ctx frame skip) in
  let ctx' := snd (Context.decrypt ctx frame skip) in
  Context.sender ctx' = Context.sender ctx
  /\ (forall k, k <> keyId h -> Context.receivers ctx' !! k = Context.receivers ctx !! k)
  /\ match r with
     | Throw _ => ctx' = ctx
     | Ok _ =>
         exists rcv,
           Context.receivers ctx !! keyId h = Some rcv
           /\ Context.receivers ctx' !! keyId h
              = Some (Receiver.mk (JS.max (counter h) (Receiver.maxReceivedCounter rcv))
                        (Receiver.keyring rcv))
     end.
Proof.
  intros h r ctx'. subst r ctx'. unfold Context.decrypt. fold h.
  destruct ctx as [sender receivers]. cbn [Context.sender Context.receivers].
  destruct (receivers !! keyId h) as [rcv|] eqn:Hl.
  - pose proof (Receiver_decrypt_state rcv h frame skip) as Hs.
    destruct (Receiver.decrypt rcv h frame skip) as [[P|e] rcv'];
      cbn [fst snd Context.sender Context.receivers].
    + destruct Hs as [-> _].
      split; [reflexivity|]. split; [intros k Hk; now apply lookup_insert_ne|].
      exists rcv. split; [reflexivity | apply lookup_insert_eq].
    + subst rcv'. rewrite (insert_id _ _ _ Hl).
      split; [reflexivity|]. split; reflexivity.
  - cbn [fst snd Context.sender Context.receivers].
    split; [reflexivity|]. split; reflexivity.
Qed.


End ReceiverState.


(** ** Frames in any order *)

Lemma numbered_lookup c (l : list bytes) i :
  numbered c l !! i = (fun P => (c + Z.of_nat i, P)) <$> l !! i.
Proof.
  revert c i. induction l as [|P l IH]; intros c i; [reflexivity|].
  destruct i as [|i]; cbn [numbered].
  - cbn. now rewrite Z.add_0_r.
  - change (numbered (c + 1) l !! i
            = (fun P0 => (c + Z.of_nat (S i), P0)) <$> l !! i).
    rewrite IH. destruct (l !! i); cbn; [|reflexivity]. do 2 f_equal. lia.
Qed.

Lemma length_numbered c (l : list bytes) : length (numbered c l) = length l.
Proof.
  revert c. induction l as [|P l IH]; intros c; [reflexivity|].
  cbn [numbered length]. now rewrite IH.
Qed.

(** Frames in the order of their counters all pass. *)
Lemma windowOutcomes_in_order (l : list bytes) c m :
  m <= c -> windowOutcomes m (numbered c l) = map Ok l.
Proof.
  revert c m. induction l as [|P l IH]; intros c m Hm; [reflexivity|].
  cbn [numbered windowOutcomes map].
  destruct (Z.ltb_spec c m); [lia|]. cbn [andb]. f_equal. apply IH. lia.
Qed.

Lemma Forall2_pick {A B} (R : A -> B -> Prop) (l1 : list A) (l2 : list B) d1 d2
    (order : list nat) :
  Forall2 R l1 l2 -> Forall (fun i => (i < length l1)%nat) order ->
  Forall2 R (map (fun i => nth i l1 d1) order) (map (fun i => nth i l2 d2) order).
Proof.
  intros H Hord. pose proof (Forall2_length _ _ _ H) as Hlen.
  induction Hord as [|i order Hi _ IH]; [constructor|].
  cbn [map]. constructor; [|exact IH].
  destruct (lookup_lt_is_Some_2 l1 i Hi) as [x Hx].
  destruct (lookup_lt_is_Some_2 l2 i ltac:(lia)) as [y Hy].
  rewrite (nth_lookup_Some _ _ _ _ Hx), (nth_lookup_Some _ _ _ _ Hy).
  exact (Forall2_lookup_lr _ _ _ _ _ _ H Hx Hy).
Qed.

Section Arrival.
Context {W : WebCrypto}.

(** The receiver follows the window rule on the frames of a sender whose
    key it holds, in whatever order they arrive. *)
Lemma decryptAll_valid (K : SFrameCrypto.t) id (skip : nat)
    (newer : list SFrameCrypto.t) (sender : option Sender.t) :
  forall cps frames,
    Forall2 (fun cp frame => validFrame K id (fst cp) (snd cp) skip frame) cps frames ->
    Forall (fun cp => 0 <= fst cp <= 2 ^ 53 /\ (skip <= length (snd cp))%nat) cps ->
    forall m receivers,
      -1 <= m <= 2 ^ 53 ->
      receivers !! Num id = Some (Receiver.mk (Num m) (K :: newer)) ->
      decryptAll (Context.mk sender receivers) frames (Z.of_nat skip)
      = windowOutcomes m cps.
Proof.
  intros cps frames Hvalid.
  induction Hvalid as [|[c P] frame cps frames Hv _ IH]; intros Hall m receivers Hm Hlookup;
    [reflexivity|].
  apply Forall_cons in Hall as [[Hc Hskip] Hall]. cbn [fst snd] in *.
  cbn [decryptAll windowOutcomes].
  rewrite (Context_decrypt_valid K id c m P frame skip sender receivers newer
             Hv Hskip Hc Hm Hlookup).
  destruct ((c <? m) && (Receiver.ReplayWindow <? m - c)).
  - f_equal. now apply IH.
  - f_equal. apply IH; [assumption|lia|apply lookup_insert_eq].
Qed.

Lemma setSenderEncryptionKey_new id shared (K : SFrameCrypto.t) :
  0 <= id <= SFRAME_HEADER_MAXKEYID ->
  SFrameCrypto.createSFrameCrypto shared AES_GCM_256_SHA512 = Ok K ->
  Context.setSenderEncryptionKey Context.new id shared
  = (Ok tt, Context.mk (Some (Sender.mk id 0 (Some K))) ∅).
Proof.
  intros Hid HK. unfold Context.setSenderEncryptionKey, Context.new, Sender.new.
  cbn [Context.sender Context.receivers].
  rewrite checkSFrameHeaderKeyId_ok by assumption. cbn [bind]. now rewrite HK.
Qed.

Lemma setReceiverEncryptionKey_new id shared (K : SFrameCrypto.t) :
  0 <= id <= SFRAME_HEADER_MAXKEYID ->
  SFrameCrypto.createSFrameCrypto shared AES_GCM_256_SHA512 = Ok K ->
  Context.setReceiverEncryptionKey Context.new id shared
  = (Ok tt, Context.mk None {[ Num id := Receiver.mk (Num (-1)) [K] ]}).
Proof.
  intros Hid HK. unfold Context.setReceiverEncryptionKey, Context.new, Receiver.new.
  cbn [Context.sender Context.receivers]. rewrite lookup_empty.
  rewrite checkSFrameHeaderKeyId_ok by assumption. cbn [bind]. rewrite HK.
  unfold Receiver.setEncryptionKey. cbn [Receiver.maxReceivedCounter Receiver.keyring app].
  now rewrite insert_insert_eq, insert_empty.
Qed.

End Arrival.

(** X12.  Frames in order and out of order.  Two fresh contexts are given
    the same key material under the same valid id, one as sender and one
    as receiver; the cipher is one that the provider inverts.  The sender
    encrypts any list of up to 2^53 payloads, each at least as long as the
    skip.  Then the receiver decrypts the frames, taken in the order in
    which they were sent, each to its payload.  And when the frames arrive
    in any other order, some of them lost and some of them repeated, the
    outcome of every attempt is the one that the window rule prescribes
    from the counters: a frame is refused with ReplayAttackError when its
    counter is more than 128 below the highest counter decrypted so far,
    and decrypted to its payload otherwise. *)
Theorem arrival_order {M : JSMath} {W : WebCrypto} :
  log_quotient_sound M -> hmac_sha256 W -> hkdf_length W ->
  forall (shared : bytes) (K : SFrameCrypto.t) id (payloads : list bytes) (skip : nat),
    SFrameCrypto.createSFrameCrypto shared AES_GCM_256_SHA512 = Ok K ->
    subtle_inverts W (algorithm (config K)) ->
    0 <= id <= SFRAME_HEADER_MAXKEYID ->
    Z.of_nat (length payloads) <= 2 ^ 53 ->
    Forall (fun P => (skip <= length P)%nat) payloads ->
    exists sctx rctx frames,
      Context.setSenderEncryptionKey Context.new id shared = (Ok tt, sctx)
      /\ Context.setReceiverEncryptionKey Context.new id shared = (Ok tt, rctx)
      /\ encryptAll sctx payloads (Z.of_nat skip) = Ok frames
      /\ length frames = length payloads
      /\ decryptAll rctx frames (Z.of_nat skip) = map Ok payloads
      /\ forall order : list nat,
           Forall (fun i => (i < length payloads)%nat) order ->
           decryptAll rctx (map (fun i => nth i frames []) order) (Z.of_nat skip)
           = windowOutcomes (-1)
               (map (fun i => (Z.of_nat i, nth i payloads [])) order).
Proof.
  intros Hsound Hmac Hhkdf shared K id payloads skip HK Hinv Hid Hlen Hskip.
  destruct (encryptAll_spec Hsound Hmac Hhkdf AES_GCM_256_SHA512 shared K id skip
              HK Hinv Hid payloads 0 ∅ ltac:(lia) ltac:(lia))
    as (frames & Hall & Hvalid).
  assert (Hlookup :
    ({[ Num id := Receiver.mk (Num (-1)) [K] ]} : gmap Number Receiver.t) !! Num id
    = Some (Receiver.mk (Num (-1)) [K])) by apply lookup_singleton_eq.
  pose proof (Forall2_length _ _ _ Hvalid) as Hlenf.
  pose proof (length_numbered 0 payloads) as Hnum.
  pose proof (numbered_bounds 0 payloads) as Hbounds.
  assert (Hcps : Forall (fun cp => 0 <= fst cp <= 2 ^ 53 /\ (skip <= length (snd cp))%nat)
                   (numbered 0 payloads)).
  { apply List.Forall_forall. intros cp Hcp.
    destruct (proj1 (List.Forall_forall _ _) Hbounds cp Hcp) as [Hr Hin].
    split; [lia|]. exact (proj1 (List.Forall_forall _ _) Hskip _ Hin). }
  eexists _, _, frames.
  split; [exact (setSenderEncryptionKey_new id shared K Hid HK)|].
  split; [exact (setReceiverEncryptionKey_new id shared K Hid HK)|].
  split; [exact Hall|]. split; [lia|]. split.
  - rewrite (decryptAll_valid K id skip [] None _ _ Hvalid Hcps (-1) _ ltac:(lia) Hlookup).
    apply windowOutcomes_in_order. lia.
  - intros order Hord.
    assert (Hpick :
      Forall2 (fun cp frame => validFrame K id (fst cp) (snd cp) skip frame)
        (map (fun i => (Z.of_nat i, nth i payloads [])) order)
        (map (fun i => nth i frames []) order)).
    { pose proof (Forall2_pick _ _ _ (0, []) [] order Hvalid
                    ltac:(now rewrite Hnum)) as Hp.
      erewrite map_ext_in; [exact Hp|].
      intros i Hi. cbn beta.
      pose proof (proj1 (List.Forall_forall _ _) Hord i Hi) as Hlt.
      destruct (lookup_lt_is_Some_2 payloads i Hlt) as [P HP].
      rewrite (nth_lookup_Some _ _ _ _ HP).
      symmetry. apply nth_lookup_Some. rewrite numbered_lookup, HP. reflexivity. }
    apply (decryptAll_valid K id skip [] None _ _ Hpick); [|lia|exact Hlookup].
    apply List.Forall_forall. intros cp Hcp. apply in_map_iff in Hcp as (i & <- & Hi).
    pose proof (proj1 (List.Forall_forall _ _) Hord i Hi) as Hlt. cbn beta in Hlt.
    destruct (lookup_lt_is_Some_2 payloads i Hlt) as [P HP].
    cbn [fst snd]. rewrite (nth_lookup_Some _ _ _ _ HP). split; [lia|].
    apply (proj1 (List.Forall_forall _ _) Hskip).
    apply list_elem_of_In. eapply list_elem_of_lookup_2. exact HP.
Qed.

Lemma arrival_order_witness :
  exists sctx rctx frames,
    @Context.setSenderEncryptionKey Toy.provider Context.new 5 Sample.shared
    = (Ok tt, sctx)
    /\ @Context.setReceiverEncryptionKey Toy.provider Context.new 5 Sample.shared
       = (Ok tt, rctx)
    /\ @encryptAll binary64_math Toy.provider sctx (Sample.payloads 3) (Z.of_nat 4)
       = Ok frames
    /\ length frames = length (Sample.payloads 3)
    /\ @decryptAll Toy.provider rctx frames (Z.of_nat 4) = map Ok (Sample.payloads 3)
    /\ forall order : list nat,
         Forall (fun i => (i < length (Sample.payloads 3))%nat) order ->
         @decryptAll Toy.provider rctx (map (fun i => nth i frames []) order) (Z.of_nat 4)
         = windowOutcomes (-1)
             (map (fun i => (Z.of_nat i, nth i (Sample.payloads 3) [])) order).
Proof.
  apply (@arrival_order binary64_math Toy.provider
           binary64_math_sound Toy_hmac_sha256 Toy_hkdf_length
           Sample.shared Sample.key 5 (Sample.payloads 3) 4%nat).
  - vm_compute. reflexivity.
  - apply Toy_subtle_inverts.
  - vm_compute. split; discriminate.
  - vm_compute. discriminate.
  - apply Sample_payloads_length.
Defined.

(** ** Keys of a receiver and of a sender *)

Lemma subarray_from_wireFrame (P : bytes) (skip : nat) (hdr enc tag : bytes) :
  (skip <= length P)%nat ->
  Context.subarray_from (wireFrame P skip hdr enc tag) (Z.of_nat skip)
  = hdr ++ enc ++ tag.
Proof.
  intros Hskip. unfold wireFrame.
  replace (skip - length P)%nat with O by lia. cbn [alloc repeat app].
  rewrite subarray_from_drop by (rewrite length_app, length_take; lia).
  rewrite drop_app_length'; [reflexivity|]. rewrite length_take. lia.
Qed.

(** X13.  A receiver with several keys.  The keys of a receiver are tried
    in the order in which they were installed, the oldest first.  When the
    receiver for the id of a sender holds the sender's key anywhere in its
    keyring, and every key before it rejects the frame, then the frame
    that the sender encrypts (with a cipher that the provider inverts, a
    counter up to 2^53 that is not more than the window below the highest
    counter of the receiver, and a skip within the payload) is decrypted to
    the payload, and the receiver records the counter and keeps all its
    keys. *)
Theorem key_rotation_roundtrip {M : JSMath} {W : WebCrypto} :
  log_quotient_sound M -> hmac_sha256 W -> hkdf_length W ->
  forall variant raw (K : SFrameCrypto.t) id c m (P : bytes) (skip : nat)
         (older newer : list SFrameCrypto.t) sender receivers,
    SFrameCrypto.createSFrameCrypto raw variant = Ok K ->
    subtle_inverts W (algorithm (config K)) ->
    0 <= id <= SFRAME_HEADER_MAXKEYID ->
    0 <= c <= 2 ^ 53 ->
    -1 <= m <= 2 ^ 53 -> m <= c + Receiver.ReplayWindow ->
    (skip <= length P)%nat ->
    receivers !! Num id = Some (Receiver.mk (Num m) (older ++ K :: newer)) ->
    exists frame,
      fst (Sender.encrypt (Sender.mk id c (Some K)) P (Z.of_nat skip)) = Ok frame
      /\ (Forall
            (fun k =>
               exists e,
                 SFrameCrypto.decrypt k
                   (parseSFrameHeader (Context.subarray_from frame (Z.of_nat skip)))
                   frame (Z.of_nat skip) = Throw e)
            older ->
          Context.decrypt (Context.mk sender receivers) frame (Z.of_nat skip)
          = (Ok P,
             Context.mk sender
               (<[Num id := Receiver.mk (Num (Z.max c m)) (older ++ K :: newer)]>
                  receivers))).
Proof.
  intros Hsound Hmac Hhkdf variant raw K id c m P skip older newer sender receivers
    HK Hinv Hid Hc Hm Hwin Hskip Hlookup.
  destruct (Sender_encrypt_spec Hsound Hmac Hhkdf variant raw K id c P skip
              HK Hinv Hid Hc)
    as (h & iv & encrypted & authCode & Hgen & Hparse & Hkid & Hctr & Hiv
        & Henc & Hdec & Hsign & HnT & Hsend).
  eexists. split; [rewrite Hsend; reflexivity|].
  rewrite subarray_from_wireFrame, Hparse by assumption.
  intros Hold.
  rewrite (Context_decrypt_spec K h id c m P iv encrypted authCode skip
             sender receivers older newer Hparse Hkid Hctr Hiv Hdec Hsign HnT
             Hskip Hc Hm Hlookup Hold).
  unfold Receiver.ReplayWindow in *.
  destruct (Z.ltb_spec c m); destruct (Z.ltb_spec 128 (m - c)); cbn [andb];
    first [reflexivity | lia].
Qed.

Lemma key_rotation_roundtrip_witness :
  exists frame,
    fst (@Sender.encrypt binary64_math Toy.provider (Sample.sender 7) Sample.payload 4)
    = Ok frame
    /\ @Context.decrypt Toy.provider
         (Context.mk None {[ Num 5 := Receiver.mk (Num 6) [Rotated.key; Sample.key] ]})
         frame 4
       = (Ok Sample.payload,
          Context.mk None
            (<[Num 5 := Receiver.mk (Num 7) [Rotated.key; Sample.key]]>
               {[ Num 5 := Receiver.mk (Num 6) [Rotated.key; Sample.key] ]})).
Proof.
  destruct (@key_rotation_roundtrip binary64_math Toy.provider
              binary64_math_sound Toy_hmac_sha256 Toy_hkdf_length
              AES_GCM_256_SHA512 Sample.shared Sample.key 5 7 6 Sample.payload 4%nat
              [Rotated.key] [] None
              {[ Num 5 := Receiver.mk (Num 6) [Rotated.key; Sample.key] ]})
    as (frame & Henc & Hdec).
  - vm_compute. reflexivity.
  - apply Toy_subtle_inverts.
  - vm_compute. split; discriminate.
  - vm_compute. split; discriminate.
  - vm_compute. split; discriminate.
  - vm_compute. discriminate.
  - cbn [length map Sample.payload]. lia.
  - apply lookup_singleton_eq.
  - exists frame. split; [exact Henc|]. apply Hdec.
    vm_compute in Henc. injection Henc as <-.
    apply List.Forall_cons; [|apply List.Forall_nil].
    exists (PlainError "Authentication error"). vm_compute. reflexivity.
Defined.

Lemma Num_inj_ne a b : a <> b -> Num a <> Num b.
Proof. congruence. Qed.

Lemma round_double_nonneg z : 0 <= z -> 0 <= round_double z.
Proof.
  intros Hz. unfold round_double.
  destruct (Z.abs z <? 2 ^ 53); [exact Hz|].
  rewrite Z.abs_eq by lia.
  set (e := Z.log2 z - 52).
  assert (Hp : 0 <= 2 ^ e) by (apply Z.pow_nonneg; lia).
  assert (Hq : 0 <= z / 2 ^ e) by (apply Z_div_nonneg_nonneg; lia).
  apply Z.mul_nonneg_nonneg; [destruct z; cbn; lia|].
  apply Z.mul_nonneg_nonneg; [|exact Hp].
  destruct (_ <? _); [exact Hq|].
  destruct (_ <? _); [lia|]. destruct (Z.even _); lia.
Qed.

Lemma readBigEndian_nonneg (view : bytes) start n v :
  readBigEndian view start n = Num v -> 0 <= v.
Proof.
  unfold readBigEndian, upto. generalize (seq 0 (Z.to_nat n)). intros l.
  assert (H0 : forall x, Num 0 = Num x -> 0 <= x) by (intros x [= <-]; lia).
  revert H0. generalize (Num 0). revert v.
  induction l as [|i l IH]; intros v acc Hacc; cbn [map fold_left]; [apply Hacc|].
  apply IH. intros x.
  destruct acc as [|a]; [discriminate|]. cbn [mul].
  destruct (get view (start + Z.of_nat i)) as [b|]; [|discriminate].
  cbn [ToNumber add]. intros [= <-].
  pose proof (byte.unsigned_range b). pose proof (Hacc a eq_refl).
  apply round_double_nonneg.
  pose proof (round_double_nonneg (a * 256) ltac:(lia)). lia.
Qed.

(** A parsed counter is NaN or not negative. *)
Lemma parsed_counter_nonneg (buffer : bytes) c :
  counter (parseSFrameHeader buffer) = Num c -> 0 <= c.
Proof.
  unfold parseSFrameHeader.
  destruct (negb _); cbn [counter]; apply readBigEndian_nonneg.
Qed.

Section KeyManagement.
Context {M : JSMath} {W : WebCrypto}.

(** X14.  Registering a receiver key.  For a valid id and key material
    from which the key is derived, [Context.setReceiverEncryptionKey]
    succeeds; afterwards [canDecrypt] holds of the id; a receiver that was
    registered under the id keeps its highest counter and its keys and
    holds the new key last, and a new receiver starts with the highest
    counter -1 and the new key alone; the receivers for all other ids and
    the sender stay as they are. *)
Theorem setReceiverEncryptionKey_registers (ctx : Context.t) id (key : bytes)
    (K : SFrameCrypto.t) :
  0 <= id <= SFRAME_HEADER_MAXKEYID ->
  SFrameCrypto.createSFrameCrypto key AES_GCM_256_SHA512 = Ok K ->
  exists ctx',
    Context.setReceiverEncryptionKey ctx id key = (Ok tt, ctx')
    /\ Context.canDecrypt ctx' id = true
    /\ Context.receivers ctx' !! Num id
       = Some match Context.receivers ctx !! Num id with
              | Some r =>
                  Receiver.mk (Receiver.maxReceivedCounter r) (Receiver.keyring r ++ [K])
              | None => Receiver.mk (Num (-1)) [K]
              end
    /\ (forall k, k <> Num id ->
          Context.receivers ctx' !! k = Context.receivers ctx !! k)
    /\ Context.sender ctx' = Context.sender ctx.
Proof.
  intros Hid HK. unfold Context.setReceiverEncryptionKey, Context.canDecrypt.
  destruct ctx as [sender receivers]. cbn [Context.sender Context.receivers].
  unfold Receiver.new. rewrite checkSFrameHeaderKeyId_ok by assumption. cbn [bind].
  destruct (receivers !! Num id) as [r|] eqn:Hl; rewrite HK;
    (eexists; split; [reflexivity|]); cbn [Context.sender Context.receivers];
    rewrite insert_insert_eq, lookup_insert_eq;
    (split; [apply bool_decide_eq_true; eauto|]);
    (split; [reflexivity|]);
    (split; [|reflexivity]); intros k Hk; now apply lookup_insert_ne.
Qed.

(** X15.  Deleting a receiver.  [Context.deleteReceiver] returns whether a
    receiver was registered under the id; afterwards [canDecrypt] fails
    for the id and is unchanged for every other id, the sender is as it
    was, and a frame whose header carries the id is refused with
    InvalidKey. *)
Theorem deleteReceiver_removes (ctx : Context.t) id :
  let ctx' := snd (Context.deleteReceiver ctx id) in
  fst (Context.deleteReceiver ctx id) = Context.canDecrypt ctx id
  /\ Context.canDecrypt ctx' id = false
  /\ (forall id', id' <> id -> Context.canDecrypt ctx' id' = Context.canDecrypt ctx id')
  /\ Context.sender ctx' = Context.sender ctx
  /\ forall (frame : bytes) skip,
       keyId (parseSFrameHeader (Context.subarray_from frame skip)) = Num id ->
       Context.decrypt ctx' frame skip = (Throw (SFrameError InvalidKey), ctx').
Proof.
  intros ctx'. subst ctx'. unfold Context.deleteReceiver, Context.canDecrypt.
  cbn [fst snd Context.sender Context.receivers].
  split; [reflexivity|]. split.
  { apply bool_decide_eq_false. rewrite lookup_delete_eq. now intros [x Hx]. }
  split.
  { intros id' Hne. rewrite lookup_delete_ne by (now apply Num_inj_ne; auto).
    reflexivity. }
  split; [reflexivity|].
  intros frame skip Hk. unfold Context.decrypt. cbn [Context.receivers].
  now rewrite Hk, lookup_delete_eq.
Qed.

(** X16.  Setting the sender key.  For a valid id and key material from
    which the key is derived, [Context.setSenderEncryptionKey] leaves a
    sender with that id and that key whose counter is the one the sender
    had before, 0 when there was none: a change of the key or of the id
    does not restart the counter.  The receivers stay as they are. *)
Theorem setSenderEncryptionKey_keeps_counter (ctx : Context.t) id (key : bytes)
    (K : SFrameCrypto.t) :
  0 <= id <= SFRAME_HEADER_MAXKEYID ->
  SFrameCrypto.createSFrameCrypto key AES_GCM_256_SHA512 = Ok K ->
  Context.setSenderEncryptionKey ctx id key
  = (Ok tt,
     Context.mk
       (Some (Sender.mk id
                match Context.sender ctx with
                | Some s => Sender.counter s
                | None => 0
                end
                (Some K)))
       (Context.receivers ctx)).
Proof.
  intros Hid HK. unfold Context.setSenderEncryptionKey, Sender.new, Sender.setSenderId.
  rewrite checkSFrameHeaderKeyId_ok by assumption. cbn [bind].
  destruct (Context.sender ctx) as [s|]; rewrite HK; reflexivity.
Qed.

(** X17.  A key that cannot be derived.  When the key derivation rejects
    the key material, [Context.setSenderEncryptionKey] and
    [Context.setReceiverEncryptionKey] on a fresh context fail with that
    rejection, but not without a trace: the sender or the receiver has
    been created before the derivation was awaited.  Afterwards
    [canEncrypt] holds although every [encrypt] fails with InvalidKey, and
    [canDecrypt] holds of the id although every frame with that key id
    fails with DecryptionFailure. *)
Theorem failed_derivation_leaves_keyless (id : Z) (key : bytes) e :
  0 <= id <= SFRAME_HEADER_MAXKEYID ->
  SFrameCrypto.createSFrameCrypto key AES_GCM_256_SHA512 = Throw e ->
  (exists ctx',
     Context.setSenderEncryptionKey Context.new id key = (Throw e, ctx')
     /\ Context.canEncrypt ctx' = true
     /\ forall (P : bytes) skip,
          Context.encrypt ctx' P skip = (Throw (SFrameError InvalidKey), ctx'))
  /\ (exists ctx',
        Context.setReceiverEncryptionKey Context.new id key = (Throw e, ctx')
        /\ Context.canDecrypt ctx' id = true
        /\ forall (frame : bytes) skip,
             keyId (parseSFrameHeader (Context.subarray_from frame skip)) = Num id ->
             Context.decrypt ctx' frame skip
             = (Throw (SFrameError DecryptionFailure), ctx')).
Proof.
  intros Hid HK. split.
  - unfold Context.setSenderEncryptionKey, Context.new, Sender.new.
    cbn [Context.sender Context.receivers].
    rewrite checkSFrameHeaderKeyId_ok by assumption. cbn [bind]. rewrite HK.
    eexists. split; [reflexivity|]. split; [reflexivity|].
    intros P skip. reflexivity.
  - unfold Context.setReceiverEncryptionKey, Context.new, Receiver.new.
    cbn [Context.sender Context.receivers]. rewrite lookup_empty.
    rewrite checkSFrameHeaderKeyId_ok by assumption. cbn [bind]. rewrite HK.
    eexists. split; [reflexivity|]. split.
    + unfold Context.canDecrypt. cbn [Context.receivers].
      apply bool_decide_eq_true. rewrite lookup_insert_eq. eauto.
    + intros frame skip Hk. unfold Context.decrypt. cbn [Context.sender Context.receivers].
      rewrite Hk, lookup_insert_eq. unfold Receiver.decrypt, Receiver.checkForReplayAttack.
      cbn [Receiver.maxReceivedCounter Receiver.keyring Receiver.tryKeys].
      assert (Hlt : lt (counter (parseSFrameHeader (Context.subarray_from frame skip)))
                      (Num (-1)) = false).
      { destruct (counter _) as [|c] eqn:Hc; [reflexivity|].
        apply parsed_counter_nonneg in Hc. cbn [lt]. apply Z.ltb_ge. lia. }
      rewrite Hlt. cbn [andb]. now rewrite insert_insert_eq.
Qed.

End KeyManagement.

Lemma setReceiverEncryptionKey_registers_witness :
  exists ctx',
    @Context.setReceiverEncryptionKey Toy.provider Sample.receiver 5 Rotated.shared
    = (Ok tt, ctx')
    /\ Context.canDecrypt ctx' 5 = true
    /\ Context.receivers ctx' !! Num 5
       = Some match Context.receivers Sample.receiver !! Num 5 with
              | Some r =>
                  Receiver.mk (Receiver.maxReceivedCounter r)
                    (Receiver.keyring r ++ [Rotated.key])
              | None => Receiver.mk (Num (-1)) [Rotated.key]
              end
    /\ (forall k, k <> Num 5 ->
          Context.receivers ctx' !! k = Context.receivers Sample.receiver !! k)
    /\ Context.sender ctx' = Context.sender Sample.receiver.
Proof.
  apply (@setReceiverEncryptionKey_registers Toy.provider Sample.receiver 5
           Rotated.shared Rotated.key).
  - vm_compute. split; discriminate.
  - vm_compute. reflexivity.
Defined.

Lemma setSenderEncryptionKey_keeps_counter_witness :
  @Context.setSenderEncryptionKey Toy.provider
    (Context.mk (Some (Sample.sender 41)) ∅) 9 Rotated.shared
  = (Ok tt, Context.mk (Some (Sender.mk 9 41 (Some Rotated.key))) ∅).
Proof.
  apply (@setSenderEncryptionKey_keeps_counter Toy.provider
           (Context.mk (Some (Sample.sender 41)) ∅) 9 Rotated.shared Rotated.key).
  - vm_compute. split; discriminate.
  - vm_compute. reflexivity.
Defined.

Lemma failed_derivation_leaves_keyless_witness :
  (exists ctx',
     @Context.setSenderEncryptionKey rejecting Context.new 5 Sample.shared
     = (Throw SubtleRejected, ctx')
     /\ Context.canEncrypt ctx' = true
     /\ forall (P : bytes) skip,
          @Context.encrypt binary64_math rejecting ctx' P skip
          = (Throw (SFrameError InvalidKey), ctx'))
  /\ (exists ctx',
        @Context.setReceiverEncryptionKey rejecting Context.new 5 Sample.shared
        = (Throw SubtleRejected, ctx')
        /\ Context.canDecrypt ctx' 5 = true
        /\ forall (frame : bytes) skip,
             keyId (parseSFrameHeader (Context.subarray_from frame skip)) = Num 5 ->
             @Context.decrypt rejecting ctx' frame skip
             = (Throw (SFrameError DecryptionFailure), ctx')).
Proof.
  apply (@failed_derivation_leaves_keyless binary64_math rejecting 5 Sample.shared
           SubtleRejected).
  - vm_compute. split; discriminate.
  - reflexivity.
Defined.

(** ** The invariant of a context *)

Lemma checkSFrameHeaderKeyId_inv keyId u :
  checkSFrameHeaderKeyId keyId = Ok u -> 0 <= keyId <= SFRAME_HEADER_MAXKEYID.
Proof.
  unfold checkSFrameHeaderKeyId.
  destruct (Z.ltb_spec keyId 0); [discriminate|].
  destruct (Z.ltb_spec SFRAME_HEADER_MAXKEYID keyId); [discriminate|]. lia.
Qed.

Lemma round_double_succ c : 0 <= c <= 2 ^ 53 -> 0 <= round_double (c + 1) <= 2 ^ 53.
Proof.
  intros Hc. destruct (Z.eq_dec c (2 ^ 53)) as [-> | Hne].
  - rewrite round_double_saturates. lia.
  - rewrite round_double_exact by lia. lia.
Qed.

Section Invariant.
Context {M : JSMath} {W : WebCrypto}.

(** X18.  The invariant of a context.  A new context satisfies
    [apiInvariant], and each of the methods that change a context
    ([setSenderEncryptionKey], [setReceiverEncryptionKey],
    [deleteReceiver], [encrypt] and [decrypt]) takes a context that
    satisfies it to one that satisfies it, whatever its arguments and
    whether it succeeds or fails.  So in a context that is only used
    through its methods the sender has a valid id and a counter from 0 to
    2^53, receivers exist only under valid ids, and no receiver has a
    highest counter below -1. *)
Theorem api_invariant :
  apiInvariant Context.new
  /\ forall ctx : Context.t,
       apiInvariant ctx ->
       (forall id key, apiInvariant (snd (Context.setSenderEncryptionKey ctx id key)))
       /\ (forall id key, apiInvariant (snd (Context.setReceiverEncryptionKey ctx id key)))
       /\ (forall id, apiInvariant (snd (Context.deleteReceiver ctx id)))
       /\ (forall (P : bytes) skip, apiInvariant (snd (Context.encrypt ctx P skip)))
       /\ (forall (frame : bytes) skip, apiInvariant (snd (Context.decrypt ctx frame skip))).
Proof.
  split.
  { split; [discriminate|]. intros k r H. cbn in H. now rewrite lookup_empty in H. }
  intros [sender receivers] [Hs Hr]. cbn [Context.sender Context.receivers] in Hs, Hr.
  split; [|split; [|split; [|split]]].
  - intros id key. unfold Context.setSenderEncryptionKey, Sender.new, Sender.setSenderId.
    cbn [Context.sender Context.receivers].
    destruct sender as [s|].
    + destruct (checkSFrameHeaderKeyId id) as [u|e] eqn:Hc; [|now split].
      apply checkSFrameHeaderKeyId_inv in Hc.
      destruct (Hs s eq_refl) as [_ Hcnt].
      destruct (SFrameCrypto.createSFrameCrypto key AES_GCM_256_SHA512);
        cbn [snd]; (split; [intros s' [= <-]; cbn; split; assumption | exact Hr]).
    + destruct (checkSFrameHeaderKeyId id) as [u|e] eqn:Hc; [|now split].
      apply checkSFrameHeaderKeyId_inv in Hc. cbn [bind].
      destruct (SFrameCrypto.createSFrameCrypto key AES_GCM_256_SHA512);
        cbn [snd]; (split; [intros s' [= <-]; cbn; split; [assumption|lia] | exact Hr]).
  - intros id key. unfold Context.setReceiverEncryptionKey, Receiver.new.
    cbn [Context.sender Context.receivers].
    destruct (receivers !! Num id) as [r|] eqn:Hl.
    + destruct (Hr _ _ Hl) as [Hk Hm].
      destruct (SFrameCrypto.createSFrameCrypto key AES_GCM_256_SHA512);
        cbn [snd]; (split; [exact Hs|]); cbn [Context.receivers]; intros k r' Hk';
        rewrite ?insert_insert_eq in Hk';
        (destruct (decide (k = Num id)) as [-> | Hne];
         [rewrite lookup_insert_eq in Hk'; injection Hk' as <-; split; assumption
         |rewrite lookup_insert_ne in Hk' by congruence; now apply Hr]).
    + destruct (checkSFrameHeaderKeyId id) as [u|e] eqn:Hc; [|now split].
      apply checkSFrameHeaderKeyId_inv in Hc. cbn [bind].
      destruct (SFrameCrypto.createSFrameCrypto key AES_GCM_256_SHA512);
        cbn [snd]; (split; [exact Hs|]); cbn [Context.receivers]; intros k r' Hk';
        rewrite ?insert_insert_eq in Hk';
        (destruct (decide (k = Num id)) as [-> | Hne];
         [rewrite lookup_insert_eq in Hk'; injection Hk' as <-;
          split; [eauto | right; exists (-1); split; [reflexivity|lia]]
         |rewrite lookup_insert_ne in Hk' by congruence; now apply Hr]).
  - intros id. unfold Context.deleteReceiver. cbn [snd].
    split; [exact Hs|]. cbn [Context.receivers]. intros k r Hk.
    apply lookup_delete_Some in Hk as [_ Hk]. now apply Hr.
  - intros P skip. unfold Context.encrypt. cbn [Context.sender Context.receivers].
    destruct sender as [s|]; [|now split].
    destruct (Hs s eq_refl) as [Hid Hcnt].
    unfold Sender.encrypt. destruct (Sender.key s); cbn [snd].
    + split; [|exact Hr]. intros s' [= <-]. cbn.
      split; [assumption | now apply round_double_succ].
    + split; [|exact Hr]. intros s' [= <-]. now split.
  - intros frame skip. unfold Context.decrypt. cbn [Context.sender Context.receivers].
    set (h := parseSFrameHeader (Context.subarray_from frame skip)).
    destruct (receivers !! keyId h) as [r|] eqn:Hl; [|now split].
    destruct (Hr _ _ Hl) as [Hk Hm].
    pose proof (Receiver_decrypt_state r h frame skip) as Hst.
    destruct (Receiver.decrypt r h frame skip) as [[P|e] r']; cbn [snd].
    + destruct Hst as [-> _]. split; [exact Hs|].
      cbn [Context.receivers]. intros k r' Hk'.
      destruct (decide (k = keyId h)) as [-> | Hne].
      * rewrite lookup_insert_eq in Hk'. injection Hk' as <-.
        split; [assumption|]. cbn [Receiver.maxReceivedCounter].
        destruct (counter h) as [|c] eqn:Hc; [now left|].
        apply parsed_counter_nonneg in Hc.
        destruct Hm as [-> | (m & -> & Hm)]; [now left|].
        right. exists (Z.max c m). split; [reflexivity|lia].
      * rewrite lookup_insert_ne in Hk' by congruence. now apply Hr.
    + subst r'. rewrite (insert_id _ _ _ Hl). now split.
Qed.

(** X19.  A negative skip is rejected.  [Sender.encrypt] with a skip below
    0 never returns a frame: where nothing else fails before, the frame
    buffer cannot be allocated or the header cannot be written at the
    negative offset. *)
Theorem negative_skip_rejected (s : Sender.t) (P : bytes) skip :
  skip < 0 -> exists e, fst (Sender.encrypt s P skip) = Throw e.
Proof.
  intros Hskip. unfold Sender.encrypt.
  destruct (Sender.key s) as [k|]; cbn [fst]; [|eauto].
  destruct (generateSFrameHeader _ _) as [h|e]; cbn [bind]; [|eauto].
  unfold SFrameCrypto.encrypt.
  destruct (generateIV _ _) as [iv|e]; cbn [bind]; [|eauto].
  destruct (subtle_encrypt _ _ _ _ _ _) as [encrypted|]; cbn [await bind]; [|eauto].
  destruct (Uint8Array _) as [encryptedFrame|e]; cbn [bind]; [|eauto].
  assert (Hset : set encryptedFrame (data h) skip = None).
  { unfold set. destruct (Z.ltb_spec skip 0); [reflexivity|lia]. }
  rewrite Hset. cbn [bind]. eauto.
Qed.

End Invariant.

Lemma negative_skip_rejected_witness :
  exists e,
    fst (@Sender.encrypt binary64_math Toy.provider (Sample.sender 0) Sample.payload (-1))
    = Throw e.
Proof.
  apply (@negative_skip_rejected binary64_math Toy.provider). reflexivity.
Defined.

(** ** CipherSuite.ts: the keys of a suite *)

(** X20.  The keys of a cipher suite.  With a key derivation that returns
    the length it is asked for, a suite that [createCipherSuite] returns
    carries the configuration of its variant and the key material as its
    base key; its methods [deriveEncryptionKeyBits] and [deriveSaltBits]
    return the encryption key and the salt that it holds; and the
    encryption key and the authentication key have [nK] bytes, the salt
    [nN] bytes. *)
Theorem derived_keys {W : WebCrypto} :
  hkdf_length W ->
  forall variant (keyMaterial : bytes) (K : CipherSuite),
    createCipherSuite variant keyMaterial = Ok K ->
    getCipherSuiteConfig variant = Some (config K)
    /\ baseKey K = keyMaterial
    /\ deriveEncryptionKeyBits K = Ok (encryptionKey K)
    /\ deriveSaltBits K = Ok (saltKey K)
    /\ Z.of_nat (length (encryptionKey K)) = nK (config K)
    /\ Z.of_nat (length (saltKey K)) = nN (config K)
    /\ Z.of_nat (length (authKey K)) = nK (config K).
Proof.
  intros Hhkdf variant keyMaterial K. unfold createCipherSuite.
  destruct (getCipherSuiteConfig variant) as [cfg|] eqn:Hcfg; [|discriminate].
  destruct (hkdf (hashAlgorithm cfg) _ (TextEncoder_encode "key") _ _) as [ek|] eqn:Hek;
    [|discriminate].
  destruct (hkdf (hashAlgorithm cfg) _ (TextEncoder_encode "salt") _ _) as [sk|] eqn:Hsk;
    [|discriminate].
  destruct (hkdf "SHA-256" _ (TextEncoder_encode "auth") _ _) as [ak|] eqn:Hak;
    [|discriminate].
  cbn [await bind]. intros [= <-].
  unfold deriveEncryptionKeyBits, deriveSaltBits, deriveBits.
  cbn [config baseKey encryptionKey saltKey authKey].
  rewrite Hek, Hsk. cbn [await].
  apply Hhkdf in Hek, Hsk, Hak.
  assert (HnK : nK cfg * 8 / 8 = nK cfg) by (apply Z.div_mul; lia).
  assert (HnN : nN cfg * 8 / 8 = nN cfg) by (apply Z.div_mul; lia).
  repeat split; congruence.
Qed.

Lemma derived_keys_witness :
  getCipherSuiteConfig AES_GCM_256_SHA512 = Some (config Sample.key)
  /\ baseKey Sample.key = Sample.shared
  /\ @deriveEncryptionKeyBits Toy.provider Sample.key = Ok (encryptionKey Sample.key)
  /\ @deriveSaltBits Toy.provider Sample.key = Ok (saltKey Sample.key)
  /\ Z.of_nat (length (encryptionKey Sample.key)) = nK (config Sample.key)
  /\ Z.of_nat (length (saltKey Sample.key)) = nN (config Sample.key)
  /\ Z.of_nat (length (authKey Sample.key)) = nK (config Sample.key).
Proof.
  apply (@derived_keys Toy.provider Toy_hkdf_length AES_GCM_256_SHA512 Sample.shared).
  vm_compute. reflexivity.
Defined.

(** ** Context.ts: media frames *)

Section RouteFrames.
Context {M : JSMath} {W : WebCrypto}.
Hypothesis Hsound : log_quotient_sound M.
Hypothesis Hmac : hmac_sha256 W.
Hypothesis Hhkdf : hkdf_length W.

(** X21.  The key id of an encrypted media frame.  When a context whose
    sender has the id [id], a key with a cipher that the provider inverts
    and a counter up to 2^53 encrypts a media frame whose header length
    lies within its data, then [readKeyId] of the encrypted data, taken
    with the same header length, is [id], in any context, so that a
    receiver can find the key for the frame; and the encrypted data start
    with the header of the media frame, unchanged. *)
Theorem readKeyId_of_encrypted variant raw (K : SFrameCrypto.t) id c
    (receivers : gmap Number Receiver.t) (f : MediaFrame.t) (skip : nat) (ctx : Context.t) :
  SFrameCrypto.createSFrameCrypto raw variant = Ok K ->
  subtle_inverts W (algorithm (config K)) ->
  0 <= id <= SFRAME_HEADER_MAXKEYID -> 0 <= c <= 2 ^ 53 ->
  MediaFrame.headerLength f = Z.of_nat skip ->
  (skip <= length (MediaFrame.data f))%nat ->
  exists frame,
    fst (Context.encryptFrame (Context.mk (Some (Sender.mk id c (Some K))) receivers) f)
    = Ok frame
    /\ Context.readKeyId ctx (MediaFrame.mk frame (MediaFrame.headerLength f)) = Num id
    /\ take skip frame = take skip (MediaFrame.data f).
Proof.
  intros HK Hinv Hid Hc Hhl Hskip.
  destruct (Sender_encrypt_spec Hsound Hmac Hhkdf variant raw K id c (MediaFrame.data f) skip
              HK Hinv Hid Hc)
    as (h & iv & encrypted & authCode & Hgen & Hparse & Hkid & Hctr & Hiv
        & Henc & Hdec & Hsign & HnT & Hsend).
  eexists. split.
  { unfold Context.encryptFrame, Context.encrypt. cbn [Context.sender Context.receivers].
    rewrite Hhl, Hsend. reflexivity. }
  split.
  - unfold Context.readKeyId. cbn [MediaFrame.data MediaFrame.headerLength].
    rewrite Hhl, subarray_from_wireFrame, Hparse by assumption. exact Hkid.
  - unfold wireFrame. rewrite take_app_le by (rewrite length_take; lia).
    rewrite take_take. f_equal. lia.
Qed.

End RouteFrames.

Lemma readKeyId_of_encrypted_witness :
  exists frame,
    fst (@Context.encryptFrame binary64_math Toy.provider
           (Context.mk (Some (Sample.sender 0)) ∅) (MediaFrame.mk Sample.payload 4))
    = Ok frame
    /\ Context.readKeyId Context.new (MediaFrame.mk frame 4) = Num 5
    /\ take 4 frame = take 4 Sample.payload.
Proof.
  apply (@readKeyId_of_encrypted binary64_math Toy.provider
           binary64_math_sound Toy_hmac_sha256 Toy_hkdf_length
           AES_GCM_256_SHA512 Sample.shared Sample.key 5 0 ∅
           (MediaFrame.mk Sample.payload 4) 4%nat Context.new).
  - vm_compute. reflexivity.
  - apply Toy_subtle_inverts.
  - vm_compute. split; discriminate.
  - vm_compute. split; discriminate.
  - reflexivity.
  - cbn [length map Sample.payload MediaFrame.data]. lia.
Defined.

(** ** Utils.ts *)

Lemma hex_digits_parse (x : byte) :
  length (Utils.padStart (Utils.toString x 16) 2 "0"%char) = 2%nat
  /\ Utils.ToUint8 (Utils.parseInt (Utils.padStart (Utils.toString x 16) 2 "0"%char) 16) = x.
Proof. destruct x; split; reflexivity. Qed.

Lemma bin_digits_parse (x : byte) :
  length (Utils.padStart (Utils.toString x 2) 8 "0"%char) = 8%nat
  /\ forallb (fun c => negb (Ascii.eqb c " "%char))
       (Utils.padStart (Utils.toString x 2) 8 "0"%char) = true
  /\ Utils.ToUint8 (Utils.parseInt (Utils.padStart (Utils.toString x 2) 8 "0"%char) 2) = x.
Proof. destruct x; repeat split; reflexivity. Qed.

Lemma length_concat_chunks {A} k (chunks : list (list A)) :
  Forall (fun c => length c = k) chunks ->
  length (concat chunks) = (length chunks * k)%nat.
Proof.
  induction 1 as [|c chunks Hc _ IH]; [reflexivity|].
  cbn [concat length]. rewrite length_app, IH, Hc. lia.
Qed.

(** Cutting a concatenation of slices of one length gives back the
    slices. *)
Lemma map_slices {B} (g : list ascii -> B) k (chunks : list (list ascii)) :
  (0 < k)%nat ->
  Forall (fun c => length c = k) chunks ->
  map (fun i => g (Utils.substring (concat chunks) (i * k) ((i + 1) * k)))
    (Utils.slices (length (concat chunks)) k)
  = map g chunks.
Proof.
  intros Hk Hall. unfold Utils.slices.
  rewrite (length_concat_chunks k chunks Hall).
  replace ((length chunks * k + k - 1) / k)%nat with (length chunks).
  2:{ apply (Nat.div_unique _ _ _ (k - 1)); lia. }
  induction Hall as [|c chunks Hc Hall IH]; [reflexivity|].
  cbn [length seq map concat]. f_equal.
  - unfold Utils.substring. cbn [Nat.mul Nat.add drop].
    rewrite Nat.add_0_r, Nat.sub_0_r, <- Hc, drop_0. now rewrite take_app_length.
  - rewrite <- seq_shift, map_map, <- IH. apply map_ext. intros i.
    unfold Utils.substring. f_equal.
    replace ((S i + 1) * k - S i * k)%nat with ((i + 1) * k - i * k)%nat by lia.
    f_equal. replace (S i * k)%nat with (length c + i * k)%nat by lia.
    now rewrite drop_app_add.
Qed.

Lemma filter_spaced (s : list ascii) i :
  forallb (fun c => negb (Ascii.eqb c " "%char)) s = true ->
  List.filter (fun c => negb (Ascii.eqb c " "%char)) (Utils.spaced i s) = s.
Proof.
  revert i. induction s as [|d s IH]; intros i Hs; [reflexivity|].
  cbn [forallb] in Hs. apply andb_true_iff in Hs as [Hd Hs].
  cbn [Utils.spaced].
  destruct ((0 <? i)%nat && (i mod 4 =? 0)%nat);
    cbn [app List.filter]; rewrite ?Hd; try change (negb (Ascii.eqb " " " ")) with false;
    cbv iota; f_equal; now apply IH.
Qed.

Lemma forallb_concat {A} (p : A -> bool) (chunks : list (list A)) :
  Forall (fun c => forallb p c = true) chunks -> forallb p (concat chunks) = true.
Proof.
  induction 1 as [|c chunks Hc _ IH]; [reflexivity|].
  cbn [concat]. now rewrite forallb_app, Hc, IH.
Qed.

Lemma String_length_of_list (l : list ascii) :
  String.length (string_of_list_ascii l) = length l.
Proof. induction l as [|c l IH]; [reflexivity|]. cbn. now rewrite IH. Qed.

(** X22.  Hexadecimal round trip.  [fromHex] of [toHex] of a buffer is
    the buffer, and [toHex] writes two characters per byte; so [toHex] is
    injective. *)
Theorem fromHex_toHex (buffer : bytes) :
  Utils.fromHex (Utils.toHex buffer) = buffer
  /\ String.length (Utils.toHex buffer) = (2 * length buffer)%nat.
Proof.
  unfold Utils.fromHex, Utils.toHex.
  rewrite list_ascii_of_string_of_list_ascii.
  set (chunks := map (fun x => Utils.padStart (Utils.toString x 16) 2 "0"%char) buffer).
  assert (Hall : Forall (fun c => length c = 2%nat) chunks).
  { subst chunks. apply List.Forall_forall. intros c Hc.
    apply in_map_iff in Hc as (x & <- & _). apply hex_digits_parse. }
  split.
  - rewrite (map_slices (fun s => Utils.ToUint8 (Utils.parseInt s 16)) 2 chunks
               ltac:(lia) Hall).
    subst chunks. rewrite map_map. rewrite <- (map_id buffer) at 2.
    apply map_ext. intros x. apply hex_digits_parse.
  - rewrite String_length_of_list, (length_concat_chunks 2 chunks Hall).
    subst chunks. rewrite length_map. lia.
Qed.

(** X23.  Binary round trip.  [fromBin] of [toBin] of a buffer is the
    buffer: the spaces that [toBin] puts between the groups of four digits
    are dropped again, and every eight digits give back their byte. *)
Theorem fromBin_toBin (buffer : bytes) : Utils.fromBin (Utils.toBin buffer) = buffer.
Proof.
  unfold Utils.fromBin, Utils.toBin.
  rewrite list_ascii_of_string_of_list_ascii.
  set (chunks := map (fun x => Utils.padStart (Utils.toString x 2) 8 "0"%char) buffer).
  assert (Hall : Forall (fun c => length c = 8%nat) chunks).
  { subst chunks. apply List.Forall_forall. intros c Hc.
    apply in_map_iff in Hc as (x & <- & _). apply bin_digits_parse. }
  rewrite filter_spaced.
  2:{ apply forallb_concat. subst chunks. apply List.Forall_forall. intros c Hc.
      apply in_map_iff in Hc as (x & <- & _). apply bin_digits_parse. }
  rewrite (map_slices (fun s => Utils.ToUint8 (Utils.parseInt s 2)) 8 chunks
             ltac:(lia) Hall).
  subst chunks. rewrite map_map. rewrite <- (map_id buffer) at 2.
  apply map_ext. intros x. apply bin_digits_parse.
Qed.

Lemma forallb_upto (p : Z -> bool) (n : nat) :
  forallb p (upto (Z.of_nat n)) = true <-> forall i, (i < n)%nat -> p (Z.of_nat i) = true.
Proof.
  rewrite upto_of_nat, forallb_forall. split.
  - intros H i Hi. apply H. apply in_map. apply in_seq. lia.
  - intros H x Hx. apply in_map_iff in Hx as (i & <- & Hi). apply in_seq in Hi.
    apply H. lia.
Qed.

(** X24.  [equals] decides equality: it returns true exactly when the two
    buffers have the same length and the same bytes. *)
Theorem equals_spec (a b : bytes) : Utils.equals a b = true <-> a = b.
Proof.
  unfold Utils.equals. split.
  - destruct (Nat.eqb_spec (length a) (length b)) as [Hlen|]; [|discriminate].
    cbn [negb]. rewrite forallb_upto. intros H.
    apply list_eq_same_length with (length a); [now symmetry|reflexivity|].
    intros i x y Hi Hx Hy. specialize (H i Hi). rewrite !get_nat, Hx, Hy in H.
    cbn [strict_eq] in H. now apply Byte.byte_dec_bl.
  - intros <-. rewrite Nat.eqb_refl. cbn [negb]. apply forallb_upto.
    intros i _. apply strict_eq_refl.
Qed.
